(** * The libntfs block cache (cache2.c / cache2.h)

    A shallow embedding of the page cache that sits between the NTFS
    volume driver and the block device, and the properties of it that the
    specification states.

    Conventions of the embedding.
    - [sec_t] and [uint64_t] values are [Z] in [0, 2^64), [unsigned int]
      and [u32] values are [Z] in [0, 2^32); every C operation that can
      wrap is written with [wrap64] / [wrap32].
    - The page table [cacheEntries] is a list, a slot is addressed by its
      position in it; [numberOfPages] is its length.
    - Memory buffers are lists of bytes; a pointer into a buffer is an
      offset; only the address of the caller's buffer is kept, for the
      32-byte alignment test. A copy never goes past the end of a list:
      memory safety is not part of the model.
    - [size_t] and [uintptr_t] are 32 bits wide, as on the PowerPC targets
      (GameCube, Wii) the Makefile builds for.
    - The block device is a pair of functions over a device state, as the
      [DISC_INTERFACE] function pointers are; every call is recorded in a
      log, so that "no device I/O" and "exactly one device call" are
      statements about the log.
    - An operation yields [Ok] with its C return value and the new world,
      or [Stuck]: [Undefined] where C leaves the behaviour undefined
      (a shift by 64 or more, a division by zero, an index outside the
      page table, a copy that overruns the four-byte buffer of the
      little-endian reader), [OutOfFuel] where a [while] loop was cut
      off. The buffers of the callers and of the slots are not checked:
      what is proved of a copy or of a device transfer holds for
      buffers that hold the bytes transferred, and the theorems that
      depend on it say so.

    The devoptab directory routines of ntfsdir.c are embedded in the last
    part of the file, as trees of library calls, with conventions of
    their own. *)

From Stdlib Require Import ZArith List Lia Bool.
From Stdlib Require Import Strings.Byte.
From stdpp Require Import base option list.

Local Open Scope Z_scope.

(** ** Machine arithmetic *)

(** Modelled from the spec: [sec_t] is declared in a header of libogc
    that is not among the sources; the spec (4.5) has 64-bit sector
    numbers. [wrap64] is the wrap-around of [sec_t] and [uint64_t]. *)
Definition wrap64 (x : Z) : Z := x mod 2 ^ 64.

(** The wrap-around of [unsigned int], [u32] and [size_t]. *)
Definition wrap32 (x : Z) : Z := x mod 2 ^ 32.

(** [#define CACHE_FREE ((sec_t)-1)] *)
Definition CACHE_FREE : Z := wrap64 (-1).

(** [UINT_MAX] of <limits.h>, for a 32-bit [unsigned int]. *)
Definition UINT_MAX : Z := 2 ^ 32 - 1.

(** Number of trailing zero bits of a positive number. *)
Fixpoint ctz (p : positive) : Z :=
  match p with
  | xO q => 1 + ctz q
  | _ => 0
  end.

(** Modelled from the spec: [ffsll] of bit_ops.h is not among the sources.
    The spec (4.3) uses it as "lowest set bit": the C function returns one
    plus the index of the least significant set bit, and 0 for 0. *)
Definition ffsll (x : Z) : Z :=
  match x with
  | Zpos p => ctz p + 1
  | _ => 0
  end.

(** Modelled from the spec: [flsll] of bit_ops.h is not among the sources.
    The spec (4.3) uses it as "highest set bit": one plus the index of the
    most significant set bit, and 0 for 0. *)
Definition flsll (x : Z) : Z :=
  match x with
  | Zpos _ => Z.log2 x + 1
  | _ => 0
  end.

(** [x << n] on [uint64_t]; C leaves a shift by 64 or more undefined. *)
Definition shl64 (x n : Z) : option Z :=
  if (0 <=? n) && (n <? 64) then Some (wrap64 (Z.shiftl x n)) else None.

(** ** Memory buffers *)

Definition buffer := list byte.

(** [memcpy (dst + off, src, length src)], never past the end of [dst]. *)
Definition blit (dst : buffer) (off : nat) (src : buffer) : buffer :=
  take (length dst) (take off dst ++ src ++ drop (off + length src) dst).

(** The [n] bytes at [p + off]. *)
Definition slice (p : buffer) (off n : Z) : buffer :=
  take (Z.to_nat n) (drop (Z.to_nat off) p).

(** ** Data model (cache2.h) *)

Record NTFS_CACHE_ENTRY : Type := mkEntry {
  sector : Z;          (* sec_t *)
  count : Z;           (* unsigned int *)
  last_access : Z;     (* unsigned int *)
  dirty : Z;           (* uint64_t *)
  cache : buffer       (* uint8_t* *)
}.

(** The two function pointers of [DISC_INTERFACE] the cache calls. [D] is
    the state of the medium. A read yields its status and the bytes it
    left in the destination; a write is given the bytes at the source. *)
Record DISC_INTERFACE (D : Type) : Type := mkDisc {
  readSectors : D -> Z -> Z -> bool * buffer * D;
  writeSectors : D -> Z -> Z -> buffer -> bool * D
}.
Arguments mkDisc {D} _ _.
Arguments readSectors {D} _ _ _ _.
Arguments writeSectors {D} _ _ _ _ _.

Record NTFS_CACHE (D : Type) : Type := mkCache {
  disc : DISC_INTERFACE D;
  endOfPartition : Z;            (* sec_t *)
  numberOfPages : Z;             (* unsigned int *)
  sectorsPerPage : Z;            (* unsigned int *)
  bytesPerSector : Z;            (* unsigned int *)
  cacheEntries : list NTFS_CACHE_ENTRY
}.
Arguments mkCache {D} _ _ _ _ _ _.
Arguments disc {D} _.
Arguments endOfPartition {D} _.
Arguments numberOfPages {D} _.
Arguments sectorsPerPage {D} _.
Arguments bytesPerSector {D} _.
Arguments cacheEntries {D} _.

(** One call of the device, as the log keeps it. *)
Inductive io_event : Type :=
  | DevRead (start n : Z) (ok : bool)
  | DevWrite (start n : Z) (data : buffer) (ok : bool).

(** Everything an operation of the cache can read or change: the cache
    object, the process-wide [accessCounter], the medium behind the
    [DISC_INTERFACE], and the log of device calls, oldest first. *)
Record world (D : Type) : Type := mkWorld {
  the_cache : NTFS_CACHE D;
  accessCounter : Z;             (* static u32 accessCounter *)
  medium : D;
  io_log : list io_event
}.
Arguments mkWorld {D} _ _ _ _.
Arguments the_cache {D} _.
Arguments accessCounter {D} _.
Arguments medium {D} _.
Arguments io_log {D} _.

(** ** Outcomes and the state monad of the operations *)

Inductive fault : Type := Undefined | OutOfFuel.

Inductive res (A : Type) : Type :=
  | Ok (a : A)
  | Stuck (f : fault).
Arguments Ok {A} _.
Arguments Stuck {A} _.

Definition M (D A : Type) : Type := world D -> res (A * world D).

Definition ret {D A} (a : A) : M D A := fun w => Ok (a, w).

Definition bind {D A B} (m : M D A) (k : A -> M D B) : M D B :=
  fun w =>
    match m w with
    | Ok (a, w') => k a w'
    | Stuck f => Stuck f
    end.

Definition undefined {D A} : M D A := fun _ => Stuck Undefined.

Declare Scope cache_scope.
Delimit Scope cache_scope with cache.
Notation "x <- m ;; k" := (bind m (fun x => k))
  (at level 100, m at next level, right associativity) : cache_scope.
Notation "m ;;; k" := (bind m (fun _ => k))
  (at level 100, right associativity) : cache_scope.
Local Open Scope cache_scope.

Section Cache.

Context {D : Type}.

Definition set_entries (c : NTFS_CACHE D) (es : list NTFS_CACHE_ENTRY) : NTFS_CACHE D :=
  mkCache (disc c) (endOfPartition c) (numberOfPages c) (sectorsPerPage c)
          (bytesPerSector c) es.

(** [cache->...]: the cache object of the call. *)
Definition get_cache : M D (NTFS_CACHE D) := fun w => Ok (the_cache w, w).

(** [cacheEntries[i]], read. *)
Definition entry_at (i : nat) : M D NTFS_CACHE_ENTRY :=
  fun w =>
    match cacheEntries (the_cache w) !! i with
    | Some e => Ok (e, w)
    | None => Stuck Undefined
    end.

(** [cacheEntries[i] = e], for a slot of the table. *)
Definition set_entry (i : nat) (e : NTFS_CACHE_ENTRY) : M D unit :=
  fun w =>
    Ok (tt, mkWorld (set_entries (the_cache w) (<[i := e]> (cacheEntries (the_cache w))))
                    (accessCounter w) (medium w) (io_log w)).

(** [static u32 accessTime()]: [accessCounter++; return accessCounter;] *)
Definition accessTime : M D Z :=
  fun w =>
    let t := wrap32 (accessCounter w + 1) in
    Ok (t, mkWorld (the_cache w) t (medium w) (io_log w)).

(** [cache->disc->readSectors (start, n, dst)]: the status and the bytes
    the device left at [dst], at most [n] sectors of them. *)
Definition dev_read (start n : Z) : M D (bool * buffer) :=
  fun w =>
    let c := the_cache w in
    let '(ok, data, d') := readSectors (disc c) (medium w) start n in
    Ok ((ok, take (Z.to_nat (n * bytesPerSector c)) data),
        mkWorld c (accessCounter w) d' (io_log w ++ [DevRead start n ok])).

(** [cache->disc->writeSectors (start, n, src)], [src] being the
    [n] sectors at the source pointer. *)
Definition dev_write (start n : Z) (src : buffer) : M D bool :=
  fun w =>
    let c := the_cache w in
    let '(ok, d') := writeSectors (disc c) (medium w) start n src in
    Ok (ok, mkWorld c (accessCounter w) d' (io_log w ++ [DevWrite start n src ok])).

(** ** [_NTFS_cache_getPage] *)

(** What the [for] loop of [_NTFS_cache_getPage] leaves: the slot that
    covers the sector, or the victim [oldUsed] with [foundFree]. *)
Inductive scan_result : Type :=
  | Hit (i : nat)
  | Miss (foundFree : bool) (oldUsed : nat).

(** A slot is FREE. *)
Definition is_free (e : NTFS_CACHE_ENTRY) : bool := sector e =? CACHE_FREE.

(** The hit test of line 131. *)
Definition covers (e : NTFS_CACHE_ENTRY) (sect : Z) : bool :=
  (sect >=? sector e) && (sect <? wrap64 (sector e + count e)).

(** The [for] loop of lines 130-141, from slot [i] on, [es] being the
    slots [i], [i+1], ... of the table. *)
Fixpoint getPage_scan (es : list NTFS_CACHE_ENTRY) (i : nat) (sect : Z)
    (foundFree : bool) (oldUsed : nat) (oldAccess : Z) : scan_result :=
  match es with
  | [] => Miss foundFree oldUsed
  | e :: es' =>
      if covers e sect then Hit i
      else if negb foundFree && (is_free e || (last_access e <? oldAccess))
      then getPage_scan es' (S i) sect (is_free e) i (last_access e)
      else getPage_scan es' (S i) sect foundFree oldUsed oldAccess
  end.

Definition with_last_access (e : NTFS_CACHE_ENTRY) (t : Z) : NTFS_CACHE_ENTRY :=
  mkEntry (sector e) (count e) t (dirty e) (cache e).

Definition with_dirty (e : NTFS_CACHE_ENTRY) (d : Z) : NTFS_CACHE_ENTRY :=
  mkEntry (sector e) (count e) (last_access e) d (cache e).

(** The extent of a writeback (lines 144-145 and 405-406): the first
    dirty sector [sec] of the page and the number [secs_to_write] of
    sectors up to the last dirty one. *)
Definition writeback_sec (e : NTFS_CACHE_ENTRY) : Z :=
  wrap64 (ffsll (dirty e) - 1).

Definition writeback_secs (e : NTFS_CACHE_ENTRY) : Z :=
  wrap64 (flsll (dirty e) - writeback_sec e).

(** The arguments of the device write of lines 147 and 408. *)
Definition writeback_start (e : NTFS_CACHE_ENTRY) : Z :=
  wrap64 (sector e + writeback_sec e).

Definition writeback_data (c : NTFS_CACHE D) (e : NTFS_CACHE_ENTRY) : buffer :=
  slice (cache e) (writeback_sec e * bytesPerSector c)
        (writeback_secs e * bytesPerSector c).

(** The contiguous writeback of one slot (lines 144-149 and 405-410):
    [true] when the device accepted the write and the bitmap was
    cleared, [false] when the write failed. *)
Definition writeback (i : nat) (e : NTFS_CACHE_ENTRY) : M D bool :=
  c <- get_cache ;;
  ok <- dev_write (writeback_start e) (writeback_secs e) (writeback_data c e) ;;
  if ok then set_entry i (with_dirty e 0) ;;; ret true
  else ret false.

(** Lines 143-150: the victim is written back when it is dirty and no
    FREE slot was found. [false]: the function returns NULL. *)
Definition getPage_evict (foundFree : bool) (oldUsed : nat) : M D bool :=
  e <- entry_at oldUsed ;;
  if negb foundFree && negb (dirty e =? 0) then writeback oldUsed e
  else ret true.

(** Lines 162-172: the window [(sec, secs_to_read)] of the page to load,
    or [None] when the load is elided. [sect] is already page-local and
    [numSectors] already clipped. *)
Definition read_window (write : bool) (sect numSectors sectorsPerPage : Z)
    : option (Z * Z) :=
  let sec := 0 in
  let secs_to_read := sectorsPerPage in
  if write then
    if (sect =? sec) && (numSectors =? secs_to_read) then None
    else if sect =? sec then
      Some (wrap64 (sec + numSectors), wrap64 (secs_to_read - numSectors))
    else if wrap64 (sect + numSectors) =? wrap64 (sec + secs_to_read) then
      Some (sec, wrap64 (secs_to_read - numSectors))
    else Some (sec, secs_to_read)
  else Some (sec, secs_to_read).

(** Line 152: the base sector of the page of [sect]. *)
Definition page_base (sectorsPerPage sect : Z) : Z :=
  wrap64 ((sect / sectorsPerPage) * sectorsPerPage).

(** Lines 154-155: the sector count of the page at [base]; the
    difference of two [sec_t] is stored in an [unsigned int]. *)
Definition page_count (endOfPartition sectorsPerPage base : Z) : Z :=
  let count := wrap32 (wrap64 (endOfPartition - base)) in
  if count >? sectorsPerPage then sectorsPerPage else count.

(** Line 157: [numSectors] clipped to the page. *)
Definition clip_sectors (numSectors sectorsPerPage sect : Z) : Z :=
  if numSectors >? wrap64 (sectorsPerPage - sect)
  then wrap64 (sectorsPerPage - sect) else numSectors.

(** Lines 152-183: rebase the victim and load the page. *)
Definition getPage_populate (oldUsed : nat) (sect numSectors : Z) (write : bool)
    : M D (option nat) :=
  c <- get_cache ;;
  if sectorsPerPage c =? 0 then undefined else
  e <- entry_at oldUsed ;;
  let base := page_base (sectorsPerPage c) sect in
  let sect := wrap64 (sect - base) in
  let cnt := page_count (endOfPartition c) (sectorsPerPage c) base in
  (* after line 156 the local sectorsPerPage equals the slot's count *)
  let sectorsPerPage := cnt in
  let numSectors := clip_sectors numSectors sectorsPerPage sect in
  match read_window write sect numSectors sectorsPerPage with
  | None =>
      t <- accessTime ;;
      set_entry oldUsed (mkEntry base cnt t (dirty e) (cache e)) ;;;
      ret (Some oldUsed)
  | Some (sec, secs_to_read) =>
      r <- dev_read (wrap64 (base + sec)) secs_to_read ;;
      let buf := blit (cache e) (Z.to_nat (sec * bytesPerSector c)) (snd r) in
      if fst r then
        t <- accessTime ;;
        set_entry oldUsed (mkEntry base cnt t (dirty e) buf) ;;;
        ret (Some oldUsed)
      else
        set_entry oldUsed (mkEntry CACHE_FREE 0 0 0 buf) ;;;
        ret None
  end.

(** [_NTFS_cache_getPage (cache, sector, numSectors, write)]: the index
    of the slot returned, [None] for NULL. *)
Definition _NTFS_cache_getPage (sect numSectors : Z) (write : bool)
    : M D (option nat) :=
  c <- get_cache ;;
  match getPage_scan (cacheEntries c) 0 sect false 0 UINT_MAX with
  | Hit i =>
      e <- entry_at i ;;
      t <- accessTime ;;
      set_entry i (with_last_access e t) ;;;
      ret (Some i)
  | Miss foundFree oldUsed =>
      ok <- getPage_evict foundFree oldUsed ;;
      if ok then getPage_populate oldUsed sect numSectors write
      else ret None
  end.

(** ** [_NTFS_cache_findPage] *)

(** The loop of lines 194-208 from slot [i] on; [entry] and [lowest] are
    the loop's variables. *)
Fixpoint findPage_scan (es : list NTFS_CACHE_ENTRY) (i : nat) (sect cnt : Z)
    (entry : option nat) (lowest : Z) : option nat :=
  match es with
  | [] => entry
  | e :: es' =>
      if negb (sector e =? CACHE_FREE) then
        let intersect :=
          if sect >? sector e then wrap64 (sect - sector e) <? count e
          else wrap64 (sector e - sect) <? cnt in
        if intersect && (sector e <? lowest)
        then findPage_scan es' (S i) sect cnt (Some i) (sector e)
        else findPage_scan es' (S i) sect cnt entry lowest
      else findPage_scan es' (S i) sect cnt entry lowest
  end.

Definition _NTFS_cache_findPage (c : NTFS_CACHE D) (sect cnt : Z) : option nat :=
  findPage_scan (cacheEntries c) 0 sect cnt None CACHE_FREE.

(** Lines 221-230 and 353-362, the same text in both loops: how many
    sectors go straight to the device, 0 for none. [ptr] is the address
    of the caller's buffer. *)
Definition bypass_probe (sect numSectors ptr : Z) : M D Z :=
  c <- get_cache ;;
  if ptr mod 32 =? 0 then
    if sectorsPerPage c =? 0 then undefined
    else if sect mod sectorsPerPage c =? 0 then
      match _NTFS_cache_findPage c sect numSectors with
      | None => ret (wrap64 ((numSectors / sectorsPerPage c) * sectorsPerPage c))
      | Some i =>
          e <- entry_at i ;;
          if sector e >? sect then ret (wrap64 (sector e - sect)) else ret 0
      end
    else ret 0
  else ret 0.

(** ** [_NTFS_cache_readSectors] *)

(** The [while] loop of lines 220-253. The caller's buffer is the memory
    [mem] at address [dest]; [off] is how far the pointer has advanced.
    The result carries the caller's buffer as the loop left it. *)
Fixpoint readSectors_loop (fuel : nat) (sect numSectors dest off : Z) (mem : buffer)
    : M D (bool * buffer) :=
  if numSectors =? 0 then ret (true, mem) else
  match fuel with
  | O => fun _ => Stuck OutOfFuel
  | S fuel =>
      c <- get_cache ;;
      secs_to_read <- bypass_probe sect numSectors (dest + off) ;;
      if secs_to_read >? 0 then
        r <- dev_read sect secs_to_read ;;
        let mem := blit mem (Z.to_nat off) (snd r) in
        if fst r then
          readSectors_loop fuel (wrap64 (sect + secs_to_read))
            (wrap64 (numSectors - secs_to_read)) dest
            (off + secs_to_read * bytesPerSector c) mem
        else ret (false, mem)
      else
        r <- _NTFS_cache_getPage sect numSectors false ;;
        match r with
        | None => ret (false, mem)
        | Some i =>
            entry <- entry_at i ;;
            let sec := wrap64 (sect - sector entry) in
            let secs_to_read := wrap64 (count entry - sec) in
            let secs_to_read :=
              if secs_to_read >? numSectors then numSectors else secs_to_read in
            let mem := blit mem (Z.to_nat off)
                         (slice (cache entry) (sec * bytesPerSector c)
                                (secs_to_read * bytesPerSector c)) in
            readSectors_loop fuel (wrap64 (sect + secs_to_read))
              (wrap64 (numSectors - secs_to_read)) dest
              (off + secs_to_read * bytesPerSector c) mem
        end
  end.

Definition _NTFS_cache_readSectors (fuel : nat) (sect numSectors dest : Z)
    (mem : buffer) : M D (bool * buffer) :=
  readSectors_loop fuel sect numSectors dest 0 mem.

(** ** Partial-sector access *)

(** [offset + size > cache->bytesPerSector], an [unsigned int] plus a
    [size_t], both 32 bits wide on the PowerPC targets of the library. *)
Definition partial_out_of_sector (c : NTFS_CACHE D) (offset size : Z) : bool :=
  wrap32 (offset + size) >? bytesPerSector c.

(** [_NTFS_cache_readPartialSector]: the status and the caller's
    [buffer] after the call. *)
Definition _NTFS_cache_readPartialSector (buf : buffer) (sect offset size : Z)
    : M D (bool * buffer) :=
  c <- get_cache ;;
  if partial_out_of_sector c offset size then ret (false, buf) else
  r <- _NTFS_cache_getPage sect 1 false ;;
  match r with
  | None => ret (false, buf)
  | Some i =>
      entry <- entry_at i ;;
      let sec := wrap64 (sect - sector entry) in
      ret (true, blit buf 0 (slice (cache entry) (sec * bytesPerSector c + offset) size))
  end.

(** Modelled from the spec: the little-endian decoders [u8array_to_u16]
    and [u8array_to_u32] of bit_ops.h are not among the sources; the spec
    (4.5) calls them "little-endian helpers". *)
Definition u8 (item : buffer) (i : nat) : Z :=
  match item !! i with
  | Some b => Z.of_N (Byte.to_N b)
  | None => 0
  end.

Definition u8array_to_u16 (item : buffer) (offset : nat) : Z :=
  Z.lor (u8 item offset) (Z.shiftl (u8 item (offset + 1)) 8).

Definition u8array_to_u32 (item : buffer) (offset : nat) : Z :=
  Z.lor (Z.lor (u8 item offset) (Z.shiftl (u8 item (offset + 1)) 8))
        (Z.lor (Z.shiftl (u8 item (offset + 2)) 16)
               (Z.shiftl (u8 item (offset + 3)) 24)).

Definition byte_of_Z (z : Z) : byte :=
  match Byte.of_N (Z.to_N (z mod 256)) with
  | Some b => b
  | None => x00
  end.

(** Modelled from the spec: the little-endian encoders [u16_to_u8array]
    and [u32_to_u8array] of bit_ops.h are not among the sources. *)
Definition u16_to_u8array (item : buffer) (offset : nat) (value : Z) : buffer :=
  blit item offset [byte_of_Z value; byte_of_Z (Z.shiftr value 8)].

Definition u32_to_u8array (item : buffer) (offset : nat) (value : Z) : buffer :=
  blit item offset [byte_of_Z value; byte_of_Z (Z.shiftr value 8);
                    byte_of_Z (Z.shiftr value 16); byte_of_Z (Z.shiftr value 24)].

(** [_NTFS_cache_readLittleEndianValue]: the status and [*value] after
    the call. [num_bytes] is an [int]; it becomes the [size_t] argument
    of the partial read, which copies that many bytes into the local
    [uint8_t buf[4]] when it returns [true]: a copy of more than four
    bytes (a width above 4 that fits the sector, or a negative width
    whose conversion passes the test of line 266) overruns [buf], and
    the behaviour is undefined. *)
Definition _NTFS_cache_readLittleEndianValue (value : Z) (sect offset num_bytes : Z)
    : M D (bool * Z) :=
  r <- _NTFS_cache_readPartialSector [x00; x00; x00; x00] sect offset (wrap32 num_bytes) ;;
  if negb (fst r) then ret (false, value) else
  if wrap32 num_bytes >? 4 then undefined else
  let buf := snd r in
  if num_bytes =? 1 then ret (true, u8 buf 0)
  else if num_bytes =? 2 then ret (true, u8array_to_u16 buf 0)
  else if num_bytes =? 4 then ret (true, u8array_to_u32 buf 0)
  else ret (false, value).

(** [entry->dirty |= mask], storing the slot's new buffer with it. *)
Definition mark_dirty (i : nat) (entry : NTFS_CACHE_ENTRY) (buf : buffer) (mask : Z)
    : M D unit :=
  set_entry i (mkEntry (sector entry) (count entry) (last_access entry)
                       (Z.lor (dirty entry) mask) buf).

(** [_NTFS_cache_writePartialSector] *)
Definition _NTFS_cache_writePartialSector (buf : buffer) (sect offset size : Z)
    : M D bool :=
  c <- get_cache ;;
  if partial_out_of_sector c offset size then ret false else
  r <- _NTFS_cache_getPage sect 1 false ;;
  match r with
  | None => ret false
  | Some i =>
      entry <- entry_at i ;;
      let sec := wrap64 (sect - sector entry) in
      let page := blit (cache entry) (Z.to_nat (sec * bytesPerSector c + offset))
                       (take (Z.to_nat size) buf) in
      match shl64 1 sec with
      | None => undefined
      | Some mask => mark_dirty i entry page mask ;;; ret true
      end
  end.

(** [_NTFS_cache_writeLittleEndianValue] *)
Definition _NTFS_cache_writeLittleEndianValue (value : Z) (sect offset size : Z)
    : M D bool :=
  let buf := [x00; x00; x00; x00] in
  if size =? 1 then
    _NTFS_cache_writePartialSector (blit buf 0 [byte_of_Z value]) sect offset (wrap32 size)
  else if size =? 2 then
    _NTFS_cache_writePartialSector (u16_to_u8array buf 0 value) sect offset (wrap32 size)
  else if size =? 4 then
    _NTFS_cache_writePartialSector (u32_to_u8array buf 0 value) sect offset (wrap32 size)
  else ret false.

(** [_NTFS_cache_eraseWritePartialSector] *)
Definition _NTFS_cache_eraseWritePartialSector (buf : buffer) (sect offset size : Z)
    : M D bool :=
  c <- get_cache ;;
  if partial_out_of_sector c offset size then ret false else
  r <- _NTFS_cache_getPage sect 1 true ;;
  match r with
  | None => ret false
  | Some i =>
      entry <- entry_at i ;;
      let sec := wrap64 (sect - sector entry) in
      let zeroed := blit (cache entry) (Z.to_nat (sec * bytesPerSector c))
                         (repeat x00 (Z.to_nat (bytesPerSector c))) in
      let page := blit zeroed (Z.to_nat (sec * bytesPerSector c + offset))
                       (take (Z.to_nat size) buf) in
      match shl64 1 sec with
      | None => undefined
      | Some mask => mark_dirty i entry page mask ;;; ret true
      end
  end.

(** ** [_NTFS_cache_writeSectors] *)

(** [((1ULL << secs_to_write) - 1) << sec] of line 386. *)
Definition dirty_mask (secs_to_write sec : Z) : option Z :=
  match shl64 1 secs_to_write with
  | None => None
  | Some one => shl64 (wrap64 (one - 1)) sec
  end.

(** The [while] loop of lines 352-387; [mem] at address [src] is the
    caller's buffer, [off] how far the pointer has advanced. *)
Fixpoint writeSectors_loop (fuel : nat) (sect numSectors src off : Z) (mem : buffer)
    : M D bool :=
  if numSectors =? 0 then ret true else
  match fuel with
  | O => fun _ => Stuck OutOfFuel
  | S fuel =>
      c <- get_cache ;;
      secs_to_write <- bypass_probe sect numSectors (src + off) ;;
      if secs_to_write >? 0 then
        ok <- dev_write sect secs_to_write
                (slice mem off (secs_to_write * bytesPerSector c)) ;;
        if ok then
          writeSectors_loop fuel (wrap64 (sect + secs_to_write))
            (wrap64 (numSectors - secs_to_write)) src
            (off + secs_to_write * bytesPerSector c) mem
        else ret false
      else
        r <- _NTFS_cache_getPage sect numSectors true ;;
        match r with
        | None => ret false
        | Some i =>
            entry <- entry_at i ;;
            let sec := wrap64 (sect - sector entry) in
            let secs_to_write := wrap64 (count entry - sec) in
            let secs_to_write :=
              if secs_to_write >? numSectors then numSectors else secs_to_write in
            let page := blit (cache entry) (Z.to_nat (sec * bytesPerSector c))
                             (slice mem off (secs_to_write * bytesPerSector c)) in
            match dirty_mask secs_to_write sec with
            | None => undefined
            | Some mask =>
                mark_dirty i entry page mask ;;;
                writeSectors_loop fuel (wrap64 (sect + secs_to_write))
                  (wrap64 (numSectors - secs_to_write)) src
                  (off + secs_to_write * bytesPerSector c) mem
            end
        end
  end.

Definition _NTFS_cache_writeSectors (fuel : nat) (sect numSectors src : Z)
    (mem : buffer) : M D bool :=
  writeSectors_loop fuel sect numSectors src 0 mem.

(** ** [_NTFS_cache_flush] and [_NTFS_cache_invalidate] *)

(** The [for] loop of lines 401-412 over the slots [i], [i+1], ...,
    [k] of them. *)
Fixpoint flush_from (k : nat) (i : nat) : M D bool :=
  match k with
  | O => ret true
  | S k' =>
      entry <- entry_at i ;;
      if dirty entry =? 0 then flush_from k' (S i)
      else
        ok <- writeback i entry ;;
        if ok then flush_from k' (S i) else ret false
  end.

Definition _NTFS_cache_flush : M D bool :=
  c <- get_cache ;;
  flush_from (length (cacheEntries c)) 0.

(** Lines 421-424 for one slot. *)
Definition reset_entry (e : NTFS_CACHE_ENTRY) : NTFS_CACHE_ENTRY :=
  mkEntry CACHE_FREE 0 0 0 (cache e).

Definition _NTFS_cache_invalidate : M D unit :=
  _NTFS_cache_flush ;;;
  fun w =>
    Ok (tt, mkWorld (set_entries (the_cache w) (map reset_entry (cacheEntries (the_cache w))))
                    (accessCounter w) (medium w) (io_log w)).

(** ** The whole-sector wrappers of cache2.h *)

(** [_NTFS_cache_readSector]: a partial read of [bytesPerSector] bytes at
    offset 0. *)
Definition _NTFS_cache_readSector (buf : buffer) (sect : Z) : M D (bool * buffer) :=
  c <- get_cache ;;
  _NTFS_cache_readPartialSector buf sect 0 (bytesPerSector c).

(** [_NTFS_cache_writeSector]: a partial write of [bytesPerSector] bytes at
    offset 0. *)
Definition _NTFS_cache_writeSector (buf : buffer) (sect : Z) : M D bool :=
  c <- get_cache ;;
  _NTFS_cache_writePartialSector buf sect 0 (bytesPerSector c).

End Cache.

(** ** [_NTFS_cache_constructor] *)

(** Modelled from the spec: mem_allocate.h is not among the sources. The
    allocator capability of 6.2 has a general allocator ([ntfs_alloc]) and
    an aligned one ([ntfs_align]), and either may fail: [alloc_ok n] tells
    whether the [n]-th call of [ntfs_alloc] returns memory, [align_ok n]
    the same for [ntfs_align]. *)
Record allocator : Type := mkAllocator {
  alloc_ok : nat -> bool;
  align_ok : nat -> bool
}.

(** The buffer [ntfs_align (size)] returns on its [n]-th call: [size]
    bytes, or no byte at all for NULL. *)
Definition ntfs_align (heap : allocator) (n : nat) (size : Z) : buffer :=
  if align_ok heap n then repeat x00 (Z.to_nat size) else [].

Definition _NTFS_cache_constructor {D : Type} (heap : allocator)
    (numberOfPages sectorsPerPage : Z) (discInterface : DISC_INTERFACE D)
    (endOfPartition bytesPerSector : Z) : option (NTFS_CACHE D) :=
  if (numberOfPages =? 0) || (sectorsPerPage =? 0) then None else
  let numberOfPages := if numberOfPages <? 4 then 4 else numberOfPages in
  let sectorsPerPage :=
    if sectorsPerPage <? 32 then 32
    else if sectorsPerPage >? 64 then 64 else sectorsPerPage in
  if negb (alloc_ok heap 0) then None else
  if negb (alloc_ok heap 1) then None else
  Some (mkCache discInterface endOfPartition numberOfPages sectorsPerPage bytesPerSector
          (map (fun i => mkEntry CACHE_FREE 0 0 0
                           (ntfs_align heap i (wrap32 (sectorsPerPage * bytesPerSector))))
               (seq 0 (Z.to_nat numberOfPages)))).

(** The world after a call of the constructor that returned a cache: the
    constructor touches neither the static [accessCounter] nor the medium. *)
Definition construct {D : Type} (heap : allocator)
    (numberOfPages sectorsPerPage : Z) (discInterface : DISC_INTERFACE D)
    (endOfPartition bytesPerSector : Z) (ticks : Z) (d : D) (log : list io_event)
    : option (world D) :=
  match _NTFS_cache_constructor heap numberOfPages sectorsPerPage discInterface
          endOfPartition bytesPerSector with
  | Some c => Some (mkWorld c ticks d log)
  | None => None
  end.

(** ** A scripted medium, for the concrete runs *)

Module Scripted.

(** The state of the medium is the list of the statuses of the calls to
    come; once the list is used up every call succeeds. A read of sector
    [s] yields [bps] bytes, each the low byte of [s]. *)
Definition medium_state : Type := list bool.

Definition next (d : medium_state) : bool * medium_state :=
  match d with
  | [] => (true, [])
  | ok :: d' => (ok, d')
  end.

Definition sector_bytes (bps : Z) (s : Z) : buffer :=
  repeat (byte_of_Z s) (Z.to_nat bps).

Definition read (bps : Z) (d : medium_state) (start n : Z) : bool * buffer * medium_state :=
  let '(ok, d') := next d in
  (ok, if ok then flat_map (fun k => sector_bytes bps (start + Z.of_nat k)) (seq 0 (Z.to_nat n))
       else [], d').

Definition write (d : medium_state) (start n : Z) (src : buffer) : bool * medium_state :=
  next d.

Definition interface (bps : Z) : DISC_INTERFACE medium_state :=
  mkDisc (read bps) write.

(** Every allocation succeeds. *)
Definition heap_ok : allocator := mkAllocator (fun _ => true) (fun _ => true).

(** The cache of the scenarios of the spec: 4 pages of 32 sectors, with
    sectors of [bps] bytes and [e] sectors in the partition. *)
Definition fresh (e bps : Z) (script : medium_state) : option (world medium_state) :=
  construct heap_ok 4 32 (interface bps) e bps 0 script [].

End Scripted.

(** ** Concrete caches, for the runs *)

(** A fresh cache of four 64-sector pages over the scripted medium, with
    one byte per sector. *)
Definition fresh64 : world Scripted.medium_state :=
  mkWorld
    (mkCache (Scripted.interface 1) 4096 4 64 1
       (repeat (mkEntry CACHE_FREE 0 0 0 (repeat x00 64)) 4))
    0 [] [].

(** A full cache whose least recently used slot, slot 0, has sectors 2
    to 5 dirty, over a medium whose next call fails. *)
Definition full_dirty : world Scripted.medium_state :=
  mkWorld
    (mkCache (Scripted.interface 1) 4096 4 32 1
       [mkEntry 0 32 1 60 (repeat x01 32); mkEntry 32 32 2 0 (repeat x00 32);
        mkEntry 64 32 3 0 (repeat x00 32); mkEntry 96 32 4 0 (repeat x00 32)])
    4 [false] [].

(** Three dirty slots, over a medium whose second call fails. *)
Definition two_dirty : world Scripted.medium_state :=
  mkWorld
    (mkCache (Scripted.interface 1) 4096 4 32 1
       [mkEntry 0 32 1 60 (repeat x01 32); mkEntry 32 32 2 3 (repeat x02 32);
        mkEntry 64 32 3 8 (repeat x03 32); mkEntry CACHE_FREE 0 0 0 (repeat x00 32)])
    3 [true; false] [].

(** The fresh cache of the scenarios, one byte per sector, over a medium
    whose first call fails. *)
Definition cold_failing : world Scripted.medium_state :=
  mkWorld
    (mkCache (Scripted.interface 1) 4096 4 32 1
       (repeat (mkEntry CACHE_FREE 0 0 0 (repeat x00 32)) 4))
    0 [false] [].

(** The fresh cache of the scenarios, one byte per sector, over a medium
    that never fails. *)
Definition cold : world Scripted.medium_state :=
  mkWorld
    (mkCache (Scripted.interface 1) 4096 4 32 1
       (repeat (mkEntry CACHE_FREE 0 0 0 (repeat x00 32)) 4))
    0 [] [].

(** A table with slots 1 and 2 FREE, page 0 in slot 0 and page 64 in
    slot 3. *)
Definition table_with_free : list NTFS_CACHE_ENTRY :=
  [mkEntry 0 32 7 0 []; mkEntry CACHE_FREE 0 0 0 [];
   mkEntry CACHE_FREE 0 0 0 []; mkEntry 64 32 3 0 []].

(** * Properties *)

(** ** Zero-length transfers *)

(** C10. For every cache state, [_NTFS_cache_readSectors] and
    [_NTFS_cache_writeSectors] called with [numSectors = 0] return [true]
    whatever the fuel: the world after the call is the world before it, so
    no device call was logged and no slot, dirty bitmap, access tick or
    byte of the caller's buffer changed. *)
Theorem zero_sectors_is_noop {D : Type} (w : world D) (fuel : nat)
    (sect ptr : Z) (mem : buffer) :
  _NTFS_cache_readSectors fuel sect 0 ptr mem w = Ok ((true, mem), w) /\
  _NTFS_cache_writeSectors fuel sect 0 ptr mem w = Ok (true, w).
Proof.
  unfold _NTFS_cache_readSectors, _NTFS_cache_writeSectors.
  split; destruct fuel; reflexivity.
Qed.

(** ** The constructor *)

Section Constructor.

Context {D : Type}.
Variables (heap : allocator) (discInterface : DISC_INTERFACE D).
Variables (pages sectors eop bps : Z).

Let built := _NTFS_cache_constructor heap pages sectors discInterface eop bps.

(** The two checked allocations decide, with the two zero tests, whether
    the constructor returns NULL. *)
Lemma constructor_none :
  built = None <->
  pages = 0 \/ sectors = 0 \/
  alloc_ok heap 0 = false \/ alloc_ok heap 1 = false.
Proof.
  unfold built, _NTFS_cache_constructor.
  destruct (Z.eqb_spec pages 0) as [->|Hp]; cbn [orb]; [tauto|].
  destruct (Z.eqb_spec sectors 0) as [->|Hs]; cbn [orb]; [tauto|].
  destruct (alloc_ok heap 0); cbn [negb]; [|tauto].
  destruct (alloc_ok heap 1); cbn [negb]; [|tauto].
  split; [discriminate|].
  intros [?|[?|[?|?]]]; congruence.
Qed.

(** A slot as the constructor leaves it. *)
Definition pristine (e : NTFS_CACHE_ENTRY) : Prop :=
  sector e = CACHE_FREE /\ count e = 0 /\ last_access e = 0 /\ dirty e = 0.

Lemma constructor_some (c : NTFS_CACHE D) :
  built = Some c ->
  disc c = discInterface /\
  endOfPartition c = eop /\
  bytesPerSector c = bps /\
  numberOfPages c = Z.max pages 4 /\
  sectorsPerPage c = Z.max 32 (Z.min sectors 64) /\
  Z.of_nat (length (cacheEntries c)) = Z.max pages 4 /\
  Forall pristine (cacheEntries c) /\
  (forall i e, cacheEntries c !! i = Some e ->
     cache e = ntfs_align heap i (wrap32 (sectorsPerPage c * bps))).
Proof.
  unfold built, _NTFS_cache_constructor.
  destruct ((pages =? 0) || (sectors =? 0)); [discriminate|].
  destruct (alloc_ok heap 0); cbn [negb]; [|discriminate].
  destruct (alloc_ok heap 1); cbn [negb]; [|discriminate].
  intros [= <-]. cbn.
  assert (Hp : (if pages <? 4 then 4 else pages) = Z.max pages 4)
    by (destruct (Z.ltb_spec pages 4); lia).
  assert (Hs : (if sectors <? 32 then 32
                else if sectors >? 64 then 64 else sectors)
               = Z.max 32 (Z.min sectors 64)).
  { destruct (Z.ltb_spec sectors 32); [lia|].
    destruct (Z.gtb_spec sectors 64); lia. }
  rewrite Hp, Hs. repeat split.
  - rewrite length_map, length_seq. lia.
  - apply Forall_forall. intros e He. apply list_elem_of_In, in_map_iff in He.
    destruct He as (i & <- & _). repeat split.
  - intros i e He. rewrite list_lookup_fmap in He.
    destruct (seq 0 (Z.to_nat (Z.max pages 4)) !! i) as [j|] eqn:Hj;
      [|discriminate].
    apply lookup_seq in Hj. destruct Hj as [-> _]. now inversion He.
Qed.

(** C9, as the code has it. Provided the slot buffers can be allocated,
    the constructor returns none exactly when [pages = 0] or
    [sectors = 0] (tested before clamping) or one of its two checked
    allocations (the cache object, the page table) fails. When it returns
    a cache, that cache has [numberOfPages = max pages 4] slots,
    [sectorsPerPage] clamped into [32, 64], every slot FREE with count,
    last access and dirty bitmap zero and a buffer of one page, and the
    process-wide access tick counter is what it was before the call. *)
Theorem constructor_spec (ticks : Z) (d : D) (log : list io_event) :
  (forall i, align_ok heap i = true) ->
  (construct heap pages sectors discInterface eop bps ticks d log = None <->
   pages = 0 \/ sectors = 0 \/
   alloc_ok heap 0 = false \/ alloc_ok heap 1 = false) /\
  (forall w,
     construct heap pages sectors discInterface eop bps ticks d log = Some w ->
     numberOfPages (the_cache w) = Z.max pages 4 /\
     sectorsPerPage (the_cache w) = Z.max 32 (Z.min sectors 64) /\
     Z.of_nat (length (cacheEntries (the_cache w))) = Z.max pages 4 /\
     Forall pristine (cacheEntries (the_cache w)) /\
     Forall (fun e => Z.of_nat (length (cache e))
                      = wrap32 (sectorsPerPage (the_cache w) * bps))
            (cacheEntries (the_cache w)) /\
     accessCounter w = ticks /\ medium w = d /\ io_log w = log).
Proof.
  intros Halign. unfold construct. fold built. split.
  - rewrite <- constructor_none. fold built.
    destruct built; split; congruence.
  - intros w Hw. destruct built as [c|] eqn:Hc; [|discriminate].
    injection Hw as <-. cbn.
    destruct (constructor_some c Hc) as (_ & _ & _ & Hp & Hs & Hl & Hf & Hb).
    repeat split; try assumption.
    apply Forall_lookup. intros i e He. rewrite (Hb i e He).
    unfold ntfs_align. rewrite Halign, repeat_length.
    apply Z2Nat.id. unfold wrap32. apply Z.mod_pos_bound. lia.
Qed.

End Constructor.

(** C9, witness: the cache of the scenarios, on a heap that never fails. *)
Lemma constructor_spec_witness :
  (Scripted.fresh 4096 512 [] = None <->
   4 = 0 \/ 32 = 0 \/
   alloc_ok Scripted.heap_ok 0 = false \/ alloc_ok Scripted.heap_ok 1 = false) /\
  (forall w, Scripted.fresh 4096 512 [] = Some w ->
     numberOfPages (the_cache w) = Z.max 4 4 /\
     sectorsPerPage (the_cache w) = Z.max 32 (Z.min 32 64) /\
     Z.of_nat (length (cacheEntries (the_cache w))) = Z.max 4 4 /\
     Forall pristine (cacheEntries (the_cache w)) /\
     Forall (fun e => Z.of_nat (length (cache e))
                      = wrap32 (sectorsPerPage (the_cache w) * 512))
            (cacheEntries (the_cache w)) /\
     accessCounter w = 0 /\ medium w = [] /\ io_log w = []).
Proof.
  apply (constructor_spec Scripted.heap_ok (Scripted.interface 512) 4 32 4096 512 0 [] []).
  reflexivity.
Defined.

(** C9, counterexample to the tick counter being zero after construction:
    [accessCounter] is a static of the process that the constructor does
    not reset. One partial read through a first cache leaves it at 1, and
    a second cache constructed then starts with the counter at 1. *)
Lemma constructor_tick_counterexample :
  exists w1 r w2 w3,
    Scripted.fresh 4096 1 [] = Some w1 /\
    _NTFS_cache_readPartialSector [x00] 0 0 1 w1 = Ok (r, w2) /\
    construct Scripted.heap_ok 4 32 (Scripted.interface 1) 4096 1
      (accessCounter w2) (medium w2) (io_log w2) = Some w3 /\
    Forall pristine (cacheEntries (the_cache w3)) /\
    accessCounter w3 = 1 /\ accessCounter w3 <> 0.
Proof.
  do 4 eexists. split; [reflexivity|]. split; [vm_compute; reflexivity|].
  split; [reflexivity|]. split.
  - repeat constructor.
  - split; [reflexivity|discriminate].
Qed.

(** The unchecked allocation: when [ntfs_align] returns NULL for a slot
    buffer the constructor still returns a cache. *)
Example constructor_ignores_ntfs_align_failure :
  exists c,
    _NTFS_cache_constructor (mkAllocator (fun _ => true) (fun _ => false))
      4 32 (Scripted.interface 512) 4096 512 = Some c /\
    Forall (fun e => cache e = []) (cacheEntries c).
Proof. eexists. split; [reflexivity|]. repeat constructor. Qed.

(** ** The dirty bitmap of a cached write *)

Section DirtyBitmap.

Lemma wrap64_small x : 0 <= x < 2 ^ 64 -> wrap64 x = x.
Proof. intros H. unfold wrap64. now apply Z.mod_small. Qed.

Lemma wrap32_small x : 0 <= x < 2 ^ 32 -> wrap32 x = x.
Proof. intros H. unfold wrap32. now apply Z.mod_small. Qed.

Lemma wrap64_range x : 0 <= wrap64 x < 2 ^ 64.
Proof. unfold wrap64. apply Z.mod_pos_bound. lia. Qed.

Lemma wrap32_range x : 0 <= wrap32 x < 2 ^ 32.
Proof. unfold wrap32. apply Z.mod_pos_bound. lia. Qed.

(** For fewer than 64 sectors the mask of line 386 is the run of [w] one
    bits that starts at bit [loc]. *)
Lemma dirty_mask_run (w loc : Z) :
  1 <= w < 64 -> 0 <= loc -> loc + w <= 64 ->
  exists m,
    dirty_mask w loc = Some m /\
    0 <= m < 2 ^ 64 /\
    forall k, 0 <= k -> Z.testbit m k = (loc <=? k) && (k <? loc + w).
Proof.
  intros Hw Hl Hlw. unfold dirty_mask, shl64.
  replace ((0 <=? w) && (w <? 64)) with true by (symmetry; apply andb_true_iff; lia).
  rewrite Z.shiftl_1_l.
  assert (Hp : 2 ^ w < 2 ^ 64) by (apply Z.pow_lt_mono_r; lia).
  assert (Hp0 : 0 < 2 ^ w) by (apply Z.pow_pos_nonneg; lia).
  rewrite (wrap64_small (2 ^ w)) by lia.
  rewrite (wrap64_small (2 ^ w - 1)) by lia.
  replace ((0 <=? loc) && (loc <? 64)) with true by (symmetry; apply andb_true_iff; lia).
  assert (Hones : 2 ^ w - 1 = Z.ones w) by (rewrite Z.ones_equiv; lia).
  rewrite Hones.
  assert (Hrange : 0 <= Z.shiftl (Z.ones w) loc < 2 ^ 64).
  { rewrite Z.shiftl_mul_pow2 by lia. rewrite <- Hones.
    assert (0 < 2 ^ loc) by (apply Z.pow_pos_nonneg; lia).
    split; [nia|].
    assert (2 ^ w * 2 ^ loc <= 2 ^ 64).
    { rewrite <- Z.pow_add_r by lia. apply Z.pow_le_mono_r; lia. }
    nia. }
  rewrite wrap64_small by exact Hrange.
  eexists. split; [reflexivity|]. split; [exact Hrange|].
  intros k Hk. rewrite Z.shiftl_spec by lia.
  destruct (Z.leb_spec loc k) as [Hle|Hgt]; cbn [andb].
  - destruct (Z.ltb_spec k (loc + w)).
    + apply Z.ones_spec_low. lia.
    + apply Z.ones_spec_high. lia.
  - apply Z.testbit_neg_r. lia.
Qed.

(** After [dirty |= mask] the bits [loc .. loc + w - 1] are set and the
    others are what they were, for every write of fewer than 64 sectors. *)
Lemma dirty_after_cached_write (d w loc : Z) :
  1 <= w < 64 -> 0 <= loc -> loc + w <= 64 ->
  exists m,
    dirty_mask w loc = Some m /\
    forall k, 0 <= k ->
      Z.testbit (Z.lor d m) k = Z.testbit d k || ((loc <=? k) && (k <? loc + w)).
Proof.
  intros Hw Hl Hlw. destruct (dirty_mask_run w loc Hw Hl Hlw) as (m & Hm & _ & Hbits).
  exists m. split; [exact Hm|]. intros k Hk. now rewrite Z.lor_spec, Hbits.
Qed.

(** For a full page of 64 sectors the inner shift is [1ULL << 64]. *)
Lemma dirty_mask_64 (loc : Z) : dirty_mask 64 loc = None.
Proof. reflexivity. Qed.

End DirtyBitmap.

Lemma cold_constructed : Scripted.fresh 4096 1 [] = Some cold.
Proof. reflexivity. Qed.

Lemma fresh64_constructed :
  construct Scripted.heap_ok 4 64 (Scripted.interface 1) 4096 1 0 [] [] = Some fresh64.
Proof. reflexivity. Qed.

(** C5, at the input where it fails. On a fresh cache with 64-sector
    pages, [_NTFS_cache_writeSectors (cache, 0, 64, src)] with a source
    buffer that is not 32-byte aligned takes the cached path for the whole
    page, and the dirty-bitmap update of line 386 then shifts [1ULL] by
    64: the behaviour is undefined, whatever the fuel, where the
    specification asks for the 64 dirty bits of the page. *)
Theorem writeSectors_full_page_undefined (fuel : nat) :
  _NTFS_cache_writeSectors (S fuel) 0 64 1 (repeat x01 64) fresh64 = Stuck Undefined.
Proof. vm_compute. reflexivity. Qed.

(** The same with an aligned source once page 0 is cached: after a read
    of sector 0, the aligned write of the 64 sectors of page 0 cannot
    bypass the cache and hits the same shift. *)
Example writeSectors_cached_page_undefined (fuel : nat) :
  exists r w,
    _NTFS_cache_readPartialSector [x00] 0 0 1 fresh64 = Ok (r, w) /\
    _NTFS_cache_writeSectors (S fuel) 0 64 0 (repeat x01 64) w = Stuck Undefined.
Proof.
  do 2 eexists. split; [vm_compute; reflexivity|].
  vm_compute. reflexivity.
Qed.

(** ** Precondition checks *)

Section Preconditions.

Context {D : Type}.

(** A partial operation whose [offset + size] check fails returns
    [false] and leaves the world as it is. *)
Lemma partial_out_of_sector_noop (w : world D) (buf : buffer) (sect offset size : Z) :
  partial_out_of_sector (the_cache w) offset size = true ->
  _NTFS_cache_readPartialSector buf sect offset size w = Ok ((false, buf), w) /\
  _NTFS_cache_writePartialSector buf sect offset size w = Ok (false, w) /\
  _NTFS_cache_eraseWritePartialSector buf sect offset size w = Ok (false, w).
Proof.
  intros H.
  unfold _NTFS_cache_readPartialSector, _NTFS_cache_writePartialSector,
    _NTFS_cache_eraseWritePartialSector, bind, get_cache.
  rewrite H. repeat split.
Qed.

(** [_NTFS_cache_writeLittleEndianValue] tests the width before it
    touches the cache. *)
Lemma writeLittleEndianValue_bad_width_noop (w : world D) (value sect offset size : Z) :
  size <> 1 -> size <> 2 -> size <> 4 ->
  _NTFS_cache_writeLittleEndianValue value sect offset size w = Ok (false, w).
Proof.
  intros H1 H2 H4. unfold _NTFS_cache_writeLittleEndianValue.
  destruct (Z.eqb_spec size 1); [contradiction|].
  destruct (Z.eqb_spec size 2); [contradiction|].
  destruct (Z.eqb_spec size 4); [contradiction|].
  reflexivity.
Qed.

(** The test of the partial operations is made on the 32-bit sum: an
    [offset] of 2^32 - 1 with a [size] of 1 wraps to 0 and passes it. *)
Example partial_check_wraps (c : NTFS_CACHE D) :
  0 <= bytesPerSector c -> partial_out_of_sector c (2 ^ 32 - 1) 1 = false.
Proof.
  intros H. unfold partial_out_of_sector.
  replace (wrap32 (2 ^ 32 - 1 + 1)) with 0 by reflexivity.
  destruct (Z.gtb_spec 0 (bytesPerSector c)); [lia|reflexivity].
Qed.

End Preconditions.

(** C6, at the input where it fails. [_NTFS_cache_readLittleEndianValue]
    with the invalid width 3 on the fresh cache of the scenarios (sectors
    of 4 bytes): the partial read runs before the width is tested, so the
    call returns [false] after a device read of page 0 that fills slot 0
    and advances the access tick counter to 1. *)
Theorem readLittleEndianValue_bad_width_touches_cache :
  exists w0 w1 buf,
    Scripted.fresh 4096 4 [] = Some w0 /\
    _NTFS_cache_readLittleEndianValue 0 0 0 3 w0 = Ok ((false, 0), w1) /\
    io_log w0 = [] /\ io_log w1 = [DevRead 0 32 true] /\
    accessCounter w0 = 0 /\ accessCounter w1 = 1 /\
    cacheEntries (the_cache w0) !! 0%nat = Some (mkEntry CACHE_FREE 0 0 0 (repeat x00 128)) /\
    cacheEntries (the_cache w1) !! 0%nat = Some (mkEntry 0 32 1 0 buf).
Proof.
  do 3 eexists. split; [reflexivity|]. split; [vm_compute; reflexivity|].
  repeat split.
Qed.

(** ** Writeback failures *)

Section Writeback.

Context {D : Type}.
Implicit Types (w : world D) (e : NTFS_CACHE_ENTRY).

(** What the device answers to the writeback of slot [e] in world [w]. *)
Definition writeback_answer w e : bool * D :=
  writeSectors (disc (the_cache w)) (medium w)
    (writeback_start e) (writeback_secs e) (writeback_data (the_cache w) e).

(** The log entry of that call. *)
Definition writeback_event w e : io_event :=
  DevWrite (writeback_start e) (writeback_secs e) (writeback_data (the_cache w) e)
           (fst (writeback_answer w e)).

Lemma writeback_eval w i e :
  writeback i e w =
  Ok (fst (writeback_answer w e),
      mkWorld (if fst (writeback_answer w e)
               then set_entries (the_cache w) (<[i := with_dirty e 0]> (cacheEntries (the_cache w)))
               else the_cache w)
              (accessCounter w) (snd (writeback_answer w e))
              (io_log w ++ [writeback_event w e])).
Proof.
  unfold writeback, writeback_event, writeback_answer, bind, get_cache, dev_write,
    set_entry, ret.
  destruct (writeSectors _ _ _ _ _) as [[] d']; reflexivity.
Qed.

Lemma with_dirty_clean e : dirty e = 0 -> with_dirty e 0 = e.
Proof. destruct e. cbn. now intros ->. Qed.

(** The loop of [_NTFS_cache_flush] over [k1 + k2] slots is the loop over
    the first [k1] followed, if none of their writes fails, by the loop
    over the other [k2]. *)
Lemma flush_from_app k1 : forall k2 i w,
  flush_from (k1 + k2) i w =
  match flush_from k1 i w with
  | Ok (true, w1) => flush_from k2 (i + k1) w1
  | r => r
  end.
Proof.
  induction k1 as [|k1 IH]; intros k2 i w.
  - cbn. now rewrite Nat.add_0_r.
  - cbn [Nat.add flush_from]. unfold bind at 1 3, entry_at.
    destruct (cacheEntries (the_cache w) !! i) as [e|]; [|reflexivity].
    destruct (dirty e =? 0).
    + rewrite IH. now rewrite Nat.add_succ_r.
    + unfold bind. rewrite writeback_eval.
      destruct (fst (writeback_answer w e)); [|reflexivity].
      rewrite IH. now rewrite Nat.add_succ_r.
Qed.

(** A flush loop that ran to its end cleared the dirty bitmaps of the
    slots it visited and changed nothing else of the cache. *)
Lemma flush_from_true k : forall i w w1,
  flush_from k i w = Ok (true, w1) ->
  the_cache w1 = set_entries (the_cache w) (cacheEntries (the_cache w1)) /\
  accessCounter w1 = accessCounter w /\
  length (cacheEntries (the_cache w1)) = length (cacheEntries (the_cache w)) /\
  forall j ej, cacheEntries (the_cache w) !! j = Some ej ->
    cacheEntries (the_cache w1) !! j
    = Some (if (i <=? j)%nat && (j <? i + k)%nat then with_dirty ej 0 else ej).
Proof.
  induction k as [|k IH]; intros i w w1.
  - cbn [flush_from]. unfold ret. intros [= <-]. repeat split.
    + now destruct (the_cache w).
    + intros j ej Hj.
      replace ((i <=? j)%nat && (j <? i + 0)%nat) with false; [exact Hj|].
      symmetry. apply andb_false_iff.
      destruct (Nat.leb_spec i j); [right|now left]. apply Nat.ltb_ge. lia.
  - cbn [flush_from]. unfold bind, entry_at.
    destruct (cacheEntries (the_cache w) !! i) as [e|] eqn:He; [|discriminate].
    destruct (Z.eqb_spec (dirty e) 0) as [Hz|Hnz].
    + intros H. destruct (IH _ _ _ H) as (Hc & Ha & Hl & Hs).
      repeat split; auto. intros j ej Hj. rewrite (Hs j ej Hj).
      destruct (Nat.eq_dec j i) as [->|Hne].
      * assert (ej = e) as -> by congruence.
        rewrite (with_dirty_clean e Hz).
        now destruct ((S i <=? i)%nat && (i <? S i + k)%nat),
                     ((i <=? i)%nat && (i <? i + S k)%nat).
      * f_equal.
        replace ((i <=? j)%nat && (j <? i + S k)%nat)
          with ((S i <=? j)%nat && (j <? S i + k)%nat); [reflexivity|].
        apply eq_true_iff_eq. rewrite !andb_true_iff, !Nat.leb_le, !Nat.ltb_lt. lia.
    + rewrite writeback_eval.
      destruct (fst (writeback_answer w e)) eqn:Hok; [|discriminate].
      intros H. destruct (IH _ _ _ H) as (Hc & Ha & Hl & Hs).
      cbn [the_cache accessCounter cacheEntries set_entries] in Hc, Ha, Hl, Hs.
      rewrite length_insert in Hl.
      repeat split; auto. intros j ej Hj.
      destruct (Nat.eq_dec j i) as [->|Hne].
      * assert (ej = e) as -> by congruence.
        rewrite (Hs i (with_dirty e 0)).
        -- replace ((S i <=? i)%nat && (i <? S i + k)%nat) with false.
           ++ replace ((i <=? i)%nat && (i <? i + S k)%nat) with true; [reflexivity|].
              symmetry. rewrite andb_true_iff, Nat.leb_le, Nat.ltb_lt. lia.
           ++ symmetry. apply andb_false_iff. left. apply Nat.leb_gt. lia.
        -- apply list_lookup_insert_eq. eapply lookup_lt_Some, He.
      * rewrite (Hs j ej).
        -- f_equal.
           replace ((i <=? j)%nat && (j <? i + S k)%nat)
             with ((S i <=? j)%nat && (j <? S i + k)%nat); [reflexivity|].
           apply eq_true_iff_eq. rewrite !andb_true_iff, !Nat.leb_le, !Nat.ltb_lt. lia.
        -- rewrite list_lookup_insert_ne by congruence. exact Hj.
Qed.

(** C1. For a slot [e] with a non-zero dirty bitmap whose single
    contiguous device write fails:
    - in [_NTFS_cache_getPage], when [e] is the victim of a miss that found
      no FREE slot, the function returns NULL and the cache object is the
      one before the call, so slot [e] keeps its base sector and its whole
      dirty bitmap; only the failed write is added to the log;
    - in [_NTFS_cache_flush], when the slots before slot [i] were flushed
      without failure (leading to world [w1]) and the write of slot [i]
      fails, the function returns [false], the failed write is the last
      device call (no later slot is attempted), slot [i] and every later
      slot are as before the flush, and every earlier slot is as before
      except that its dirty bitmap is zero. *)
Theorem writeback_failure_keeps_dirty :
  (forall w sect numSectors write v e,
     getPage_scan (cacheEntries (the_cache w)) 0 sect false 0 UINT_MAX = Miss false v ->
     cacheEntries (the_cache w) !! v = Some e ->
     dirty e <> 0 ->
     fst (writeback_answer w e) = false ->
     _NTFS_cache_getPage sect numSectors write w
     = Ok (None, mkWorld (the_cache w) (accessCounter w) (snd (writeback_answer w e))
                         (io_log w ++ [writeback_event w e]))) /\
  (forall w i w1 e,
     flush_from i 0 w = Ok (true, w1) ->
     cacheEntries (the_cache w1) !! i = Some e ->
     dirty e <> 0 ->
     fst (writeback_answer w1 e) = false ->
     exists w2,
       _NTFS_cache_flush w = Ok (false, w2) /\
       io_log w2 = io_log w1 ++ [writeback_event w1 e] /\
       accessCounter w2 = accessCounter w /\
       cacheEntries (the_cache w) !! i = Some e /\
       length (cacheEntries (the_cache w2)) = length (cacheEntries (the_cache w)) /\
       forall j ej, cacheEntries (the_cache w) !! j = Some ej ->
         cacheEntries (the_cache w2) !! j
         = Some (if (j <? i)%nat then with_dirty ej 0 else ej)).
Proof.
  split.
  - intros w sect numSectors write v e Hscan He Hd Hfail.
    unfold _NTFS_cache_getPage, bind, get_cache. rewrite Hscan.
    unfold getPage_evict, bind, entry_at. rewrite He. cbn [negb andb].
    destruct (Z.eqb_spec (dirty e) 0) as [|_]; [contradiction|]. cbn [negb].
    rewrite writeback_eval, Hfail. reflexivity.
  - intros w i w1 e Hpre He Hd Hfail.
    destruct (flush_from_true _ _ _ _ Hpre) as (Hc & Ha & Hl & Hs).
    assert (Hi : (i < length (cacheEntries (the_cache w)))%nat)
      by (rewrite <- Hl; eapply lookup_lt_Some, He).
    destruct (lookup_lt_is_Some_2 _ _ Hi) as [ei Hei].
    assert (ei = e) as ->.
    { specialize (Hs i ei Hei). rewrite He in Hs.
      replace ((0 <=? i)%nat && (i <? 0 + i)%nat) with false in Hs; [congruence|].
      symmetry. apply andb_false_iff. right. apply Nat.ltb_ge. lia. }
    eexists. split.
    + unfold _NTFS_cache_flush, bind, get_cache.
      replace (length (cacheEntries (the_cache w)))
        with (i + S (length (cacheEntries (the_cache w)) - S i))%nat by lia.
      rewrite flush_from_app, Hpre. cbn [flush_from Nat.add]. unfold bind, entry_at.
      rewrite He. destruct (Z.eqb_spec (dirty e) 0) as [|_]; [contradiction|].
      rewrite writeback_eval, Hfail. reflexivity.
    + cbn [the_cache accessCounter cacheEntries io_log].
      split; [reflexivity|]. split; [exact Ha|]. split; [exact Hei|].
      split; [exact Hl|]. intros j ej Hj. rewrite (Hs j ej Hj). reflexivity.
Qed.

End Writeback.

(** C1, witness: the eviction of slot 0 of [full_dirty] by a read of
    sector 128, and the flush of [two_dirty], which fails at slot 1. *)
Lemma writeback_failure_keeps_dirty_witness :
  _NTFS_cache_getPage 128 1 false full_dirty
  = Ok (None, mkWorld (the_cache full_dirty) 4 []
                [DevWrite 2 4 (repeat x01 4) false]) /\
  exists w2,
    _NTFS_cache_flush two_dirty = Ok (false, w2) /\
    io_log w2 = [DevWrite 2 4 (repeat x01 4) true; DevWrite 32 2 (repeat x02 2) false] /\
    map dirty (cacheEntries (the_cache w2)) = [0; 3; 8; 0].
Proof.
  split.
  - apply (proj1 writeback_failure_keeps_dirty full_dirty 128 1 false 0%nat
             (mkEntry 0 32 1 60 (repeat x01 32))); [reflexivity|reflexivity|discriminate|reflexivity].
  - destruct (proj2 writeback_failure_keeps_dirty two_dirty 1%nat
                (mkWorld
                   (mkCache (Scripted.interface 1) 4096 4 32 1
                      [mkEntry 0 32 1 0 (repeat x01 32); mkEntry 32 32 2 3 (repeat x02 32);
                       mkEntry 64 32 3 8 (repeat x03 32);
                       mkEntry CACHE_FREE 0 0 0 (repeat x00 32)])
                   3 [false] [DevWrite 2 4 (repeat x01 4) true])
                (mkEntry 32 32 2 3 (repeat x02 32)))
      as (w2 & Hflush & Hlog & _ & _ & Hlen & Hslots);
      [reflexivity|reflexivity|discriminate|reflexivity|].
    exists w2. split; [exact Hflush|]. split; [exact Hlog|].
    pose proof (Hslots 0%nat _ eq_refl) as H0. pose proof (Hslots 1%nat _ eq_refl) as H1.
    pose proof (Hslots 2%nat _ eq_refl) as H2. pose proof (Hslots 3%nat _ eq_refl) as H3.
    cbn in Hlen, H0, H1, H2, H3.
    destruct (cacheEntries (the_cache w2)) as [|a [|b [|c [|d [|? ?]]]]];
      try discriminate Hlen.
    cbn in H0, H1, H2, H3. injection H0 as ->. injection H1 as ->.
    injection H2 as ->. injection H3 as ->. reflexivity.
Defined.

(** ** Misses: eviction, rebase and populate *)

Section Miss.

Context {D : Type}.
Implicit Types (w : world D) (e : NTFS_CACHE_ENTRY).

(** What the device answers to a read of [n] sectors at [start]. *)
Definition read_answer w (start n : Z) : bool * buffer * D :=
  readSectors (disc (the_cache w)) (medium w) start n.

(** The slot buffer after the device left its bytes at page-local sector
    [sec]. *)
Definition loaded w e (sec : Z) (data : buffer) (n : Z) : buffer :=
  blit (cache e) (Z.to_nat (sec * bytesPerSector (the_cache w)))
       (take (Z.to_nat (n * bytesPerSector (the_cache w))) data).

(** The world after [cacheEntries[v] = e'], a tick value [t], and
    possibly one more device call. *)
Definition put_slot w (v : nat) (e' : NTFS_CACHE_ENTRY) (t : Z) (d : D)
    (log : list io_event) : world D :=
  mkWorld (set_entries (the_cache w) (<[v := e']> (cacheEntries (the_cache w)))) t d log.

(** [getPage_populate], case by case. *)
Lemma getPage_populate_eval w v sect numSectors write e :
  sectorsPerPage (the_cache w) <> 0 ->
  cacheEntries (the_cache w) !! v = Some e ->
  let c := the_cache w in
  let base := page_base (sectorsPerPage c) sect in
  let cnt := page_count (endOfPartition c) (sectorsPerPage c) base in
  let loc := wrap64 (sect - base) in
  getPage_populate v sect numSectors write w =
  match read_window write loc (clip_sectors numSectors cnt loc) cnt with
  | None =>
      let t := wrap32 (accessCounter w + 1) in
      Ok (Some v, put_slot w v (mkEntry base cnt t (dirty e) (cache e)) t
                    (medium w) (io_log w))
  | Some (sec, secs_to_read) =>
      let start := wrap64 (base + sec) in
      let '(ok, data, d') := read_answer w start secs_to_read in
      let buf := loaded w e sec data secs_to_read in
      if ok then
        let t := wrap32 (accessCounter w + 1) in
        Ok (Some v, put_slot w v (mkEntry base cnt t (dirty e) buf) t d'
                      (io_log w ++ [DevRead start secs_to_read true]))
      else
        Ok (None, put_slot w v (mkEntry CACHE_FREE 0 0 0 buf) (accessCounter w) d'
                    (io_log w ++ [DevRead start secs_to_read false]))
  end.
Proof.
  intros HS He c base cnt loc.
  unfold getPage_populate, bind, get_cache, entry_at.
  destruct (Z.eqb_spec (sectorsPerPage (the_cache w)) 0) as [|_]; [contradiction|].
  rewrite He. fold c base loc cnt.
  destruct (read_window write loc (clip_sectors numSectors cnt loc) cnt)
    as [[sec secs]|]; [|reflexivity].
  unfold dev_read, read_answer, loaded. fold c.
  destruct (readSectors (disc c) (medium w) (wrap64 (base + sec)) secs)
    as [[[] data] d']; reflexivity.
Qed.

(** On a miss [_NTFS_cache_getPage] is the eviction followed, unless the
    writeback failed, by the populate step. *)
Lemma getPage_miss_eval w sect numSectors write ff v :
  getPage_scan (cacheEntries (the_cache w)) 0 sect false 0 UINT_MAX = Miss ff v ->
  _NTFS_cache_getPage sect numSectors write w =
  match getPage_evict ff v w with
  | Ok (true, w1) => getPage_populate v sect numSectors write w1
  | Ok (false, w1) => Ok (None, w1)
  | Stuck f => Stuck f
  end.
Proof.
  intros Hscan. unfold _NTFS_cache_getPage, bind at 1, get_cache. rewrite Hscan.
  unfold bind. destruct (getPage_evict ff v w) as [[[] w1]|]; reflexivity.
Qed.

(** The eviction step keeps the configuration of the cache, the tick
    counter and the length of the table, and changes no slot but the
    victim, of which it can only clear the dirty bitmap. *)
Lemma getPage_evict_ok w ff v w1 :
  getPage_evict ff v w = Ok (true, w1) ->
  exists e,
    cacheEntries (the_cache w) !! v = Some e /\
    accessCounter w1 = accessCounter w /\
    (w1 = w \/
     (ff = false /\ dirty e <> 0 /\ fst (writeback_answer w e) = true /\
      w1 = put_slot w v (with_dirty e 0) (accessCounter w)
             (snd (writeback_answer w e)) (io_log w ++ [writeback_event w e]))).
Proof.
  unfold getPage_evict, bind, entry_at.
  destruct (cacheEntries (the_cache w) !! v) as [e|] eqn:He; [|discriminate].
  destruct (negb ff && negb (dirty e =? 0)) eqn:Hwb.
  - rewrite writeback_eval.
    destruct (fst (writeback_answer w e)) eqn:Hok; [|discriminate].
    intros [= <-]. exists e. split; [reflexivity|]. split; [reflexivity|]. right.
    apply andb_true_iff in Hwb. destruct Hwb as [Hff Hd].
    apply negb_true_iff in Hff, Hd. apply Z.eqb_neq in Hd. auto.
  - unfold ret. intros [= <-]. exists e. auto.
Qed.

(** The bypass probe reads the cache and changes nothing. *)
Lemma bypass_probe_pure w sect numSectors ptr m w' :
  bypass_probe sect numSectors ptr w = Ok (m, w') -> w' = w.
Proof.
  unfold bypass_probe, bind, get_cache, ret, undefined, entry_at.
  destruct (ptr mod 32 =? 0); [|congruence].
  destruct (sectorsPerPage (the_cache w) =? 0); [discriminate|].
  destruct (sect mod sectorsPerPage (the_cache w) =? 0); [|congruence].
  destruct (_NTFS_cache_findPage (the_cache w) sect numSectors) as [i|]; [|congruence].
  destruct (cacheEntries (the_cache w) !! i) as [e|]; [|discriminate].
  destruct (sector e >? sect); congruence.
Qed.

(** What "the enclosing operation returns failure" means for a call of
    [_NTFS_cache_getPage (sect, numSectors, write)] that leads from [w] to
    [w2]: each access-layer operation that reaches this call (its
    precondition holding, the bypass not applying) returns [false] in
    world [w2], the caller's buffer untouched. *)
Definition enclosing_fail w w2 (sect numSectors : Z) (write : bool) : Prop :=
  (numSectors = 1 ->
   forall buf offset size,
     partial_out_of_sector (the_cache w) offset size = false ->
     (write = false ->
      _NTFS_cache_readPartialSector buf sect offset size w = Ok ((false, buf), w2) /\
      _NTFS_cache_writePartialSector buf sect offset size w = Ok (false, w2)) /\
     (write = true ->
      _NTFS_cache_eraseWritePartialSector buf sect offset size w = Ok (false, w2))) /\
  (numSectors <> 0 ->
   forall fuel ptr off mem,
     bypass_probe sect numSectors (ptr + off) w = Ok (0, w) ->
     (write = false ->
      readSectors_loop (S fuel) sect numSectors ptr off mem w = Ok ((false, mem), w2)) /\
     (write = true ->
      writeSectors_loop (S fuel) sect numSectors ptr off mem w = Ok (false, w2))).

(** NULL from [_NTFS_cache_getPage] makes the enclosing operation fail. *)
Lemma getPage_null_propagates w w2 sect numSectors write :
  _NTFS_cache_getPage sect numSectors write w = Ok (None, w2) ->
  enclosing_fail w w2 sect numSectors write.
Proof.
  intros Hnull. split.
  - intros -> buf offset size Hpre. split; intros ->.
    + unfold _NTFS_cache_readPartialSector, _NTFS_cache_writePartialSector,
        bind, get_cache.
      rewrite Hpre, Hnull. split; reflexivity.
    + unfold _NTFS_cache_eraseWritePartialSector, bind, get_cache.
      rewrite Hpre, Hnull. reflexivity.
  - intros Hn fuel ptr off mem Hprobe.
    destruct (Z.eqb_spec numSectors 0) as [|_]; [contradiction|].
    split; intros ->.
    + cbn [readSectors_loop]. destruct (Z.eqb_spec numSectors 0) as [|_]; [contradiction|].
      unfold bind, get_cache. rewrite Hprobe. cbn [Z.gtb Z.compare].
      rewrite Hnull. reflexivity.
    + cbn [writeSectors_loop]. destruct (Z.eqb_spec numSectors 0) as [|_]; [contradiction|].
      unfold bind, get_cache. rewrite Hprobe. cbn [Z.gtb Z.compare].
      rewrite Hnull. reflexivity.
Qed.

(** C7. On a miss of [_NTFS_cache_getPage] with victim [v], once the
    eviction step is over (world [w1]), if the populate step has a window
    to read and the device fails that read, then the function returns
    NULL in a world where slot [v] is FREE with count, last access and
    dirty bitmap zero, the other slots, the tick counter and the earlier
    log are those of [w1], the failed read is the last device call, and
    every enclosing access-layer operation returns failure. *)
Theorem populate_failure_frees_victim w sect numSectors write ff v w1 sec secs_to_read :
  sectorsPerPage (the_cache w) <> 0 ->
  getPage_scan (cacheEntries (the_cache w)) 0 sect false 0 UINT_MAX = Miss ff v ->
  getPage_evict ff v w = Ok (true, w1) ->
  let c := the_cache w in
  let base := page_base (sectorsPerPage c) sect in
  let cnt := page_count (endOfPartition c) (sectorsPerPage c) base in
  let loc := wrap64 (sect - base) in
  read_window write loc (clip_sectors numSectors cnt loc) cnt = Some (sec, secs_to_read) ->
  fst (fst (read_answer w1 (wrap64 (base + sec)) secs_to_read)) = false ->
  exists w2 buf,
    _NTFS_cache_getPage sect numSectors write w = Ok (None, w2) /\
    cacheEntries (the_cache w2) !! v = Some (mkEntry CACHE_FREE 0 0 0 buf) /\
    (forall j, j <> v ->
       cacheEntries (the_cache w2) !! j = cacheEntries (the_cache w1) !! j) /\
    accessCounter w2 = accessCounter w /\
    io_log w2 = io_log w1 ++ [DevRead (wrap64 (base + sec)) secs_to_read false] /\
    enclosing_fail w w2 sect numSectors write.
Proof.
  intros HS Hscan Hev c base cnt loc Hwin Hfail.
  destruct (getPage_evict_ok _ _ _ _ Hev) as (e & He & Hac & Hw1).
  assert (Hc1 : the_cache w1 = set_entries (the_cache w) (cacheEntries (the_cache w1))).
  { destruct Hw1 as [->|(_ & _ & _ & ->)]; [now destruct (the_cache w)|reflexivity]. }
  assert (exists e1, cacheEntries (the_cache w1) !! v = Some e1) as [e1 He1].
  { destruct Hw1 as [->|(_ & _ & _ & ->)]; [eauto|].
    exists (with_dirty e 0). cbn. apply list_lookup_insert_eq.
    eapply lookup_lt_Some, He. }
  assert (Hget : _NTFS_cache_getPage sect numSectors write w
                 = getPage_populate v sect numSectors write w1)
    by (rewrite (getPage_miss_eval _ _ _ _ _ _ Hscan), Hev; reflexivity).
  assert (HS1 : sectorsPerPage (the_cache w1) <> 0) by (rewrite Hc1; exact HS).
  rewrite (getPage_populate_eval w1 v sect numSectors write e1 HS1 He1) in Hget.
  replace (sectorsPerPage (the_cache w1)) with (sectorsPerPage c) in Hget
    by (rewrite Hc1; reflexivity).
  replace (endOfPartition (the_cache w1)) with (endOfPartition c) in Hget
    by (rewrite Hc1; reflexivity).
  fold base cnt loc in Hget. rewrite Hwin in Hget. cbv zeta in Hget.
  destruct (read_answer w1 (wrap64 (base + sec)) secs_to_read) as [[ok data] d'].
  cbn [fst] in Hfail. subst ok. rewrite Hac in Hget.
  eexists _, _. split; [exact Hget|].
  split; [|split; [|split; [|split]]].
  - cbn. apply list_lookup_insert_eq. eapply lookup_lt_Some, He1.
  - intros j Hj. cbn. apply list_lookup_insert_ne. congruence.
  - reflexivity.
  - reflexivity.
  - apply getPage_null_propagates. exact Hget.
Qed.

End Miss.

Lemma cold_failing_constructed : Scripted.fresh 4096 1 [false] = Some cold_failing.
Proof. reflexivity. Qed.

(** C7, witness: a cold read of sector 40 on [cold_failing]. *)
Lemma populate_failure_frees_victim_witness :
  exists w2 buf,
    _NTFS_cache_getPage 40 1 false cold_failing = Ok (None, w2) /\
    cacheEntries (the_cache w2) !! 0%nat = Some (mkEntry CACHE_FREE 0 0 0 buf) /\
    accessCounter w2 = 0 /\
    io_log w2 = [DevRead 32 32 false] /\
    enclosing_fail cold_failing w2 40 1 false.
Proof.
  destruct (populate_failure_frees_victim cold_failing 40 1 false true 0%nat
              cold_failing 0 32)
    as (w2 & buf & Hget & Hslot & _ & Hac & Hlog & Hencl).
  - discriminate.
  - reflexivity.
  - reflexivity.
  - reflexivity.
  - reflexivity.
  - exists w2, buf. auto.
Defined.

(** ** The write-allocate read window *)

Section Window.

Context {D : Type}.
Implicit Types (w : world D) (e : NTFS_CACHE_ENTRY).

(** The page base of a sector: a multiple of the page size, at most the
    sector and less than a page below it. *)
Lemma page_base_spec (spp sect : Z) :
  0 < spp -> 0 <= sect < 2 ^ 64 ->
  page_base spp sect = spp * (sect / spp) /\
  0 <= page_base spp sect <= sect /\
  sect - page_base spp sect < spp /\
  page_base spp sect mod spp = 0.
Proof.
  intros Hs Ht. unfold page_base.
  pose proof (Z.div_mod sect spp ltac:(lia)) as Hdm.
  pose proof (Z.mod_pos_bound sect spp Hs) as Hm.
  assert (Hq : 0 <= sect / spp) by (apply Z.div_pos; lia).
  assert (Hb : 0 <= sect / spp * spp <= sect) by nia.
  rewrite wrap64_small by lia.
  repeat split; try lia.
  apply Z.mod_mul. lia.
Qed.

(** The sector count of a page is an [unsigned int] no larger than the
    page size. *)
Lemma page_count_range (eop spp base : Z) :
  0 <= spp < 2 ^ 32 ->
  0 <= page_count eop spp base <= spp /\ page_count eop spp base < 2 ^ 32.
Proof.
  intros Hs. unfold page_count.
  pose proof (wrap32_range (wrap64 (eop - base))) as Hr.
  destruct (Z.gtb_spec (wrap32 (wrap64 (eop - base))) spp); lia.
Qed.

(** Line 157 is a minimum. *)
Lemma clip_sectors_min (numSectors spp loc : Z) :
  clip_sectors numSectors spp loc = Z.min numSectors (wrap64 (spp - loc)).
Proof.
  unfold clip_sectors. destruct (Z.gtb_spec numSectors (wrap64 (spp - loc))); lia.
Qed.

(** For a target inside the page, [loc <= cnt], neither [cnt - loc] nor
    [loc + n] wraps for the clipped [n]. *)
Lemma in_page_no_wrap (cnt loc numSectors : Z) :
  0 <= loc <= cnt -> cnt < 2 ^ 32 -> 0 <= numSectors ->
  wrap64 (cnt - loc) = cnt - loc /\
  wrap64 (loc + Z.min numSectors (wrap64 (cnt - loc)))
  = loc + Z.min numSectors (cnt - loc).
Proof.
  intros Hl Hc Hn.
  assert (H : wrap64 (cnt - loc) = cnt - loc) by (apply wrap64_small; lia).
  rewrite H. split; [reflexivity|]. apply wrap64_small. lia.
Qed.

(** A miss of [_NTFS_cache_getPage] whose device calls after the eviction
    step (world [w1]) are exactly [evs]. *)
Definition miss_issues w w1 (sect numSectors : Z) (write : bool)
    (evs : list io_event) : Prop :=
  exists o w2,
    _NTFS_cache_getPage sect numSectors write w = Ok (o, w2) /\
    io_log w2 = io_log w1 ++ evs.

(** C2. For a miss of [_NTFS_cache_getPage] with [write = true] and
    victim [v], once the eviction step is over (world [w1]), with [base]
    the page base of the target, [cnt] the slot's sector count,
    [loc = sect - base] and [n = min (numSectors, cnt - loc)] (the
    [sec_t] arithmetic of the code):
    - if [loc = 0] and [n = cnt], no device read is issued and slot [v] is
      returned, holding page [base] with [cnt] sectors and a fresh tick;
    - if [loc = 0] and [n < cnt], the one read issued is that of the
      [cnt - n] sectors from [base + n], the window [n, cnt);
    - if [loc > 0] and [loc + n = cnt], the one read issued is that of the
      [loc] sectors from [base], the window [0, loc);
    - otherwise the one read issued is that of the [cnt] sectors from
      [base], the whole window [0, cnt). *)
Theorem write_allocate_window w sect numSectors ff v w1 :
  0 <= sect < 2 ^ 64 ->
  0 <= numSectors < 2 ^ 64 ->
  0 < sectorsPerPage (the_cache w) < 2 ^ 32 ->
  getPage_scan (cacheEntries (the_cache w)) 0 sect false 0 UINT_MAX = Miss ff v ->
  getPage_evict ff v w = Ok (true, w1) ->
  let c := the_cache w in
  let base := page_base (sectorsPerPage c) sect in
  let cnt := page_count (endOfPartition c) (sectorsPerPage c) base in
  let loc := sect - base in
  let n := Z.min numSectors (wrap64 (cnt - loc)) in
  (loc = 0 /\ n = cnt ->
     exists w2 e',
       _NTFS_cache_getPage sect numSectors true w = Ok (Some v, w2) /\
       io_log w2 = io_log w1 /\
       cacheEntries (the_cache w2) !! v = Some e' /\
       sector e' = base /\ count e' = cnt /\ last_access e' = accessCounter w2 /\
       accessCounter w2 = wrap32 (accessCounter w + 1)) /\
  (loc = 0 /\ n < cnt ->
     exists ok, miss_issues w w1 sect numSectors true
                  [DevRead (wrap64 (base + n)) (cnt - n) ok]) /\
  (loc > 0 /\ wrap64 (loc + n) = cnt ->
     exists ok, miss_issues w w1 sect numSectors true [DevRead base loc ok]) /\
  (loc <> 0 /\ wrap64 (loc + n) <> cnt ->
     exists ok, miss_issues w w1 sect numSectors true [DevRead base cnt ok]).
Proof.
  intros Ht Hn HS Hscan Hev c base cnt loc n.
  destruct (getPage_evict_ok _ _ _ _ Hev) as (e & He & Hac & Hw1).
  assert (Hc1 : the_cache w1 = set_entries (the_cache w) (cacheEntries (the_cache w1))).
  { destruct Hw1 as [->|(_ & _ & _ & ->)]; [now destruct (the_cache w)|reflexivity]. }
  assert (exists e1, cacheEntries (the_cache w1) !! v = Some e1) as [e1 He1].
  { destruct Hw1 as [->|(_ & _ & _ & ->)]; [eauto|].
    exists (with_dirty e 0). cbn. apply list_lookup_insert_eq.
    eapply lookup_lt_Some, He. }
  assert (Hget : _NTFS_cache_getPage sect numSectors true w
                 = getPage_populate v sect numSectors true w1)
    by (rewrite (getPage_miss_eval _ _ _ _ _ _ Hscan), Hev; reflexivity).
  assert (HS1 : sectorsPerPage (the_cache w1) <> 0).
  { rewrite Hc1. change (sectorsPerPage (the_cache w) <> 0). lia. }
  assert (HSc : 0 < sectorsPerPage c < 2 ^ 32) by exact HS.
  rewrite (getPage_populate_eval w1 v sect numSectors true e1 HS1 He1) in Hget.
  replace (sectorsPerPage (the_cache w1)) with (sectorsPerPage c) in Hget
    by (rewrite Hc1; reflexivity).
  replace (endOfPartition (the_cache w1)) with (endOfPartition c) in Hget
    by (rewrite Hc1; reflexivity).
  destruct (page_base_spec (sectorsPerPage c) sect ltac:(lia) Ht) as (_ & Hb & Hlt & _).
  destruct (page_count_range (endOfPartition c) (sectorsPerPage c) base ltac:(lia))
    as [Hcnt Hcnt32].
  fold base in Hb, Hlt, Hget. fold cnt in Hcnt, Hcnt32, Hget.
  rewrite (wrap64_small (sect - base)) in Hget by lia. fold loc in Hget.
  rewrite clip_sectors_min in Hget. fold n in Hget.
  pose proof (wrap64_range (cnt - loc)) as Hwr.
  assert (Hn0 : 0 <= n < 2 ^ 64) by (unfold n; lia).
  unfold read_window in Hget. rewrite Z.add_0_l, (wrap64_small n Hn0) in Hget.
  rewrite Z.add_0_l, (wrap64_small cnt) in Hget by lia.
  cbv zeta in Hget.
  split; [|split; [|split]].
  - intros [Hl Hnc].
    rewrite (proj2 (Z.eqb_eq loc 0) Hl), (proj2 (Z.eqb_eq n cnt) Hnc) in Hget.
    cbn [andb] in Hget. eexists _, _. split; [exact Hget|].
    cbn. rewrite list_lookup_insert_eq by (eapply lookup_lt_Some, He1).
    rewrite Hac. repeat split.
  - intros [Hl Hnc].
    rewrite (proj2 (Z.eqb_eq loc 0) Hl) in Hget.
    rewrite (proj2 (Z.eqb_neq n cnt)) in Hget by lia. cbn [andb] in Hget.
    rewrite (wrap64_small (cnt - n)) in Hget by lia.
    destruct (read_answer w1 (wrap64 (base + n)) (cnt - n)) as [[[] data] d'];
      [exists true|exists false]; eexists _, _; (split; [exact Hget|reflexivity]).
  - intros [Hl Hsum].
    rewrite (proj2 (Z.eqb_neq loc 0)) in Hget by lia. cbn [andb] in Hget.
    rewrite (proj2 (Z.eqb_eq (wrap64 (loc + n)) cnt) Hsum) in Hget.
    assert (Hback : wrap64 (cnt - n) = loc).
    { rewrite <- Hsum. unfold wrap64.
      pose proof (Z.div_mod (loc + n) (2 ^ 64) ltac:(lia)) as Hdm.
      replace ((loc + n) mod 2 ^ 64 - n)
        with (loc + (- ((loc + n) / 2 ^ 64)) * 2 ^ 64) by lia.
      rewrite Z_mod_plus_full. apply Z.mod_small. lia. }
    rewrite Hback, Z.add_0_r, (wrap64_small base) in Hget by lia.
    destruct (read_answer w1 base loc) as [[[] data] d'];
      [exists true|exists false]; eexists _, _; (split; [exact Hget|reflexivity]).
  - intros [Hl Hsum].
    rewrite (proj2 (Z.eqb_neq loc 0) Hl) in Hget. cbn [andb] in Hget.
    rewrite (proj2 (Z.eqb_neq (wrap64 (loc + n)) cnt) Hsum) in Hget.
    rewrite Z.add_0_r, (wrap64_small base) in Hget by lia.
    destruct (read_answer w1 base cnt) as [[[] data] d'];
      [exists true|exists false]; eexists _, _; (split; [exact Hget|reflexivity]).
Qed.

End Window.

(** C2, witness: on the cold cache, a write of the 32 sectors of page 0
    reads nothing, a write of sectors 0-7 reads [8, 32), a write of
    sectors 8-31 reads [0, 8), and a write of sectors 8-11 reads the whole
    page. *)
Lemma write_allocate_window_witness :
  (exists w2 e',
     _NTFS_cache_getPage 0 32 true cold = Ok (Some 0%nat, w2) /\
     io_log w2 = [] /\
     cacheEntries (the_cache w2) !! 0%nat = Some e' /\
     sector e' = 0 /\ count e' = 32 /\ last_access e' = accessCounter w2 /\
     accessCounter w2 = 1) /\
  (exists ok, miss_issues cold cold 0 8 true [DevRead 8 24 ok]) /\
  (exists ok, miss_issues cold cold 8 24 true [DevRead 0 8 ok]) /\
  (exists ok, miss_issues cold cold 8 4 true [DevRead 0 32 ok]).
Proof.
  assert (H32 : 0 < 32 < 2 ^ 32) by lia.
  split; [|split; [|split]].
  - destruct (write_allocate_window cold 0 32 true 0%nat cold) as (H & _);
      [lia|lia|exact H32|reflexivity|reflexivity|].
    apply H. split; reflexivity.
  - destruct (write_allocate_window cold 0 8 true 0%nat cold) as (_ & H & _);
      [lia|lia|exact H32|reflexivity|reflexivity|].
    apply H. split; reflexivity.
  - destruct (write_allocate_window cold 8 24 true 0%nat cold) as (_ & _ & H & _);
      [lia|lia|exact H32|reflexivity|reflexivity|].
    apply H. split; reflexivity.
  - destruct (write_allocate_window cold 8 4 true 0%nat cold) as (_ & _ & _ & H);
      [lia|lia|exact H32|reflexivity|reflexivity|].
    apply H. split; discriminate.
Defined.

(** ** The replacement policy *)

Section Replacement.

(** What the loop of [_NTFS_cache_getPage] knows after the slots [pre]:
    with [foundFree], [oldUsed] is the first FREE slot; without, no slot
    is FREE, [oldAccess] bounds every [last_access] from below, strictly
    before [oldUsed], and is the [last_access] of [oldUsed] unless the
    loop has not assigned [oldUsed] yet. *)
Definition scan_inv (pre : list NTFS_CACHE_ENTRY) (foundFree : bool)
    (oldUsed : nat) (oldAccess : Z) : Prop :=
  if foundFree then
    (exists e, pre !! oldUsed = Some e /\ is_free e = true) /\
    (forall j e, pre !! j = Some e -> is_free e = true -> (oldUsed <= j)%nat)
  else
    (forall j e, pre !! j = Some e ->
       is_free e = false /\ oldAccess <= last_access e /\
       ((j < oldUsed)%nat -> oldAccess < last_access e)) /\
    ((exists e, pre !! oldUsed = Some e /\ last_access e = oldAccess) \/
     (oldUsed = 0%nat /\ oldAccess = UINT_MAX)).

Lemma scan_inv_step pre e ff ou oa :
  scan_inv pre ff ou oa ->
  scan_inv (pre ++ [e])
    (if negb ff && (is_free e || (last_access e <? oa)) then is_free e else ff)
    (if negb ff && (is_free e || (last_access e <? oa)) then length pre else ou)
    (if negb ff && (is_free e || (last_access e <? oa)) then last_access e else oa).
Proof.
  unfold scan_inv. destruct ff; cbn [negb andb].
  - intros [(e0 & He0 & Hf0) Hleast]. split.
    + exists e0. split; [|exact Hf0]. rewrite lookup_app_l; [exact He0|].
      eapply lookup_lt_Some, He0.
    + intros j e' Hj Hfree. apply lookup_app_Some in Hj.
      destruct Hj as [Hj|[Hlen _]]; [eauto|].
      apply lookup_lt_Some in He0. lia.
  - intros [Hall Hmin].
    assert (Hou : (ou < length pre)%nat \/ ou = 0%nat).
    { destruct Hmin as [(e0 & He0 & _)|[-> _]]; [left|now right].
      eapply lookup_lt_Some, He0. }
    destruct (is_free e) eqn:Hfree; cbn [orb].
    + split.
      * exists e. split; [|exact Hfree].
        rewrite lookup_app_r, Nat.sub_diag; [reflexivity|lia].
      * intros j e' Hj Hf'. apply lookup_app_Some in Hj.
        destruct Hj as [Hj|[Hlen _]]; [|exact Hlen].
        destruct (Hall j e' Hj) as [Hnf _]. congruence.
    + destruct (Z.ltb_spec (last_access e) oa) as [Hlt|Hge].
      * split.
        -- intros j e' Hj. apply lookup_app_Some in Hj.
           destruct Hj as [Hj|[Hlen Hj]].
           ++ destruct (Hall j e' Hj) as (Hnf & Hle & _).
              repeat split; [exact Hnf|lia|lia].
           ++ assert (j = length pre) as ->.
              { apply lookup_lt_Some in Hj. cbn in Hj. lia. }
              rewrite Nat.sub_diag in Hj. injection Hj as <-.
              repeat split; [exact Hfree|lia|lia].
        -- left. exists e. split; [|reflexivity].
           rewrite lookup_app_r, Nat.sub_diag; [reflexivity|lia].
      * split.
        -- intros j e' Hj. apply lookup_app_Some in Hj.
           destruct Hj as [Hj|[Hlen Hj]]; [now apply Hall|].
           assert (j = length pre) as ->.
           { apply lookup_lt_Some in Hj. cbn in Hj. lia. }
           rewrite Nat.sub_diag in Hj. injection Hj as <-.
           repeat split; [exact Hfree|lia|lia].
        -- destruct Hmin as [(e0 & He0 & Hla)|Hinit]; [left|now right].
           exists e0. split; [|exact Hla].
           rewrite lookup_app_l; [exact He0|]. eapply lookup_lt_Some, He0.
Qed.

(** Without a hit the loop ends in [Miss], with the invariant on the
    whole table. *)
Lemma getPage_scan_miss es : forall pre t ff ou oa,
  Forall (fun e => covers e t = false) es ->
  scan_inv pre ff ou oa ->
  exists ff' v oa',
    getPage_scan es (length pre) t ff ou oa = Miss ff' v /\
    scan_inv (pre ++ es) ff' v oa'.
Proof.
  induction es as [|e es IH]; intros pre t ff ou oa Hno Hinv.
  - exists ff, ou, oa. rewrite app_nil_r. split; [reflexivity|exact Hinv].
  - inversion Hno as [|? ? Hc Hno']; subst. cbn [getPage_scan]. rewrite Hc.
    pose proof (scan_inv_step pre e ff ou oa Hinv) as Hstep.
    specialize (IH (pre ++ [e]) t).
    rewrite length_app, Nat.add_1_r, <- app_assoc in IH. cbn [app] in IH.
    destruct (negb ff && (is_free e || (last_access e <? oa))); now apply IH.
Qed.

(** A hit ends the loop at the covering slot, a miss means no slot covers
    the sector. *)
Lemma getPage_scan_hit es : forall i t ff ou oa j,
  getPage_scan es i t ff ou oa = Hit j ->
  exists e, es !! (j - i)%nat = Some e /\ covers e t = true /\ (i <= j)%nat.
Proof.
  induction es as [|e es IH]; intros i t ff ou oa j; cbn [getPage_scan];
    [discriminate|].
  destruct (covers e t) eqn:Hc.
  - intros [= <-]. exists e. rewrite Nat.sub_diag. auto.
  - intros H.
    assert (exists e', es !! (j - S i)%nat = Some e' /\ covers e' t = true /\ (S i <= j)%nat)
      as (e' & He' & Hc' & Hle)
      by (destruct (negb ff && (is_free e || (last_access e <? oa))); eauto).
    exists e'. replace (j - i)%nat with (S (j - S i)) by lia. repeat split; auto. lia.
Qed.

(** C3. For every page table with at least one slot and every target
    sector that no slot covers, the scan of [_NTFS_cache_getPage] ends in
    a miss whose victim [v] is a slot of the table such that: when some
    slot is FREE, [foundFree] is set and [v] is the lowest-indexed FREE
    slot; when none is, [v] has the smallest [last_access] of the table
    and every slot before [v] has a strictly larger one (ties go to the
    smallest index). Slot [v] is the one [_NTFS_cache_getPage] then
    writes back and populates. *)
Theorem getPage_victim (es : list NTFS_CACHE_ENTRY) (t : Z) :
  es <> [] ->
  Forall (fun e => 0 <= last_access e <= UINT_MAX) es ->
  Forall (fun e => covers e t = false) es ->
  exists foundFree v ev,
    getPage_scan es 0 t false 0 UINT_MAX = Miss foundFree v /\
    es !! v = Some ev /\
    ((exists j e, es !! j = Some e /\ is_free e = true) ->
       foundFree = true /\ is_free ev = true /\
       forall j e, es !! j = Some e -> is_free e = true -> (v <= j)%nat) /\
    ((forall j e, es !! j = Some e -> is_free e = false) ->
       foundFree = false /\
       forall j e, es !! j = Some e ->
         last_access ev <= last_access e /\
         ((j < v)%nat -> last_access ev < last_access e)) /\
    (forall (D : Type) (w : world D) numSectors write,
       cacheEntries (the_cache w) = es ->
       _NTFS_cache_getPage t numSectors write w =
       match getPage_evict foundFree v w with
       | Ok (true, w1) => getPage_populate v t numSectors write w1
       | Ok (false, w1) => Ok (None, w1)
       | Stuck f => Stuck f
       end).
Proof.
  intros Hne Hty Hno.
  destruct (getPage_scan_miss es [] t false 0%nat UINT_MAX Hno)
    as (ff & v & oa & Hscan & Hinv).
  { split; [|now right]. intros j e Hj. rewrite lookup_nil in Hj. discriminate. }
  cbn in Hscan, Hinv. exists ff, v. unfold scan_inv in Hinv.
  assert (Hget : forall (D : Type) (w : world D) numSectors write,
            cacheEntries (the_cache w) = es ->
            _NTFS_cache_getPage t numSectors write w =
            match getPage_evict ff v w with
            | Ok (true, w1) => getPage_populate v t numSectors write w1
            | Ok (false, w1) => Ok (None, w1)
            | Stuck f => Stuck f
            end).
  { intros D w numSectors write Hes. apply getPage_miss_eval. now rewrite Hes. }
  destruct ff.
  - destruct Hinv as [(ev & Hev & Hfv) Hleast]. exists ev.
    split; [exact Hscan|]. split; [exact Hev|]. split; [|split; [|exact Hget]].
    + intros _. auto.
    + intros Hnone. specialize (Hnone v ev Hev). congruence.
  - destruct Hinv as [Hall Hmin].
    assert (exists ev, es !! v = Some ev /\ last_access ev = oa) as (ev & Hev & Hla).
    { destruct Hmin as [?|[-> ->]]; [assumption|].
      destruct es as [|e0 es']; [contradiction|]. exists e0. split; [reflexivity|].
      destruct (Hall 0%nat e0 eq_refl) as (_ & Hge & _).
      inversion Hty; subst. lia. }
    exists ev. split; [exact Hscan|]. split; [exact Hev|]. split; [|split; [|exact Hget]].
    + intros (j & e & Hj & Hf). destruct (Hall j e Hj). congruence.
    + intros _. split; [reflexivity|]. intros j e Hj.
      destruct (Hall j e Hj) as (_ & Hle & Hs). split; [lia|].
      intros Hlt. specialize (Hs Hlt). lia.
Qed.

(** C3, witness: no slot of [table_with_free] covers sector 40, and
    slot 1 is the victim. *)
Lemma getPage_victim_witness :
  exists foundFree v ev,
    getPage_scan table_with_free 0 40 false 0 UINT_MAX = Miss foundFree v /\
    table_with_free !! v = Some ev /\
    ((exists j e, table_with_free !! j = Some e /\ is_free e = true) ->
       foundFree = true /\ is_free ev = true /\
       forall j e, table_with_free !! j = Some e -> is_free e = true -> (v <= j)%nat) /\
    ((forall j e, table_with_free !! j = Some e -> is_free e = false) ->
       foundFree = false /\
       forall j e, table_with_free !! j = Some e ->
         last_access ev <= last_access e /\
         ((j < v)%nat -> last_access ev < last_access e)).
Proof.
  destruct (getPage_victim table_with_free 40)
    as (foundFree & v & ev & Hscan & Hev & Hfree & Hlru & _).
  - discriminate.
  - repeat constructor; cbn; unfold UINT_MAX; lia.
  - repeat constructor.
  - exists foundFree, v, ev. auto.
Defined.

End Replacement.

(** ** The bypass of aligned bulk transfers *)

Section Bypass.

Context {D : Type}.
Implicit Types (w : world D) (e : NTFS_CACHE_ENTRY).

(** Slot [e] holds no sector of [[t, t + n)]: it is FREE, or it is a
    page of at least one sector that ends before [t] or starts at or
    after [t + n]. *)
Definition slot_apart (t n : Z) e : Prop :=
  0 <= sector e < 2 ^ 64 /\
  (is_free e = false ->
   1 <= count e /\ (sector e + count e <= t \/ t + n <= sector e)).

(** [_NTFS_cache_findPage] finds nothing among slots that are all apart
    from the range. *)
Lemma findPage_scan_apart es : forall i t n lowest,
  0 <= t < 2 ^ 64 -> 1 <= n ->
  Forall (slot_apart t n) es ->
  findPage_scan es i t n None lowest = None.
Proof.
  induction es as [|e es IH]; intros i t n lowest Ht Hn Hall; [reflexivity|].
  inversion Hall as [|? ? [Hty He] Hall']; subst. cbn [findPage_scan].
  fold (is_free e). destruct (is_free e) eqn:Hfree; cbn [negb]; [now apply IH|].
  destruct (He eq_refl) as [Hc Hapart].
  replace (if t >? sector e then wrap64 (t - sector e) <? count e
           else wrap64 (sector e - t) <? n) with false; [now apply IH|].
  symmetry. destruct (Z.gtb_spec t (sector e)).
  - rewrite wrap64_small by lia. apply Z.ltb_ge. lia.
  - rewrite wrap64_small by lia. apply Z.ltb_ge. lia.
Qed.

(** The probe lets [k] whole pages through. *)
Lemma bypass_probe_whole_pages w t k ptr :
  0 < sectorsPerPage (the_cache w) ->
  0 <= t < 2 ^ 64 -> 1 <= k -> k * sectorsPerPage (the_cache w) < 2 ^ 64 ->
  ptr mod 32 = 0 -> t mod sectorsPerPage (the_cache w) = 0 ->
  Forall (slot_apart t (k * sectorsPerPage (the_cache w))) (cacheEntries (the_cache w)) ->
  bypass_probe t (k * sectorsPerPage (the_cache w)) ptr w
  = Ok (k * sectorsPerPage (the_cache w), w).
Proof.
  intros HS Ht Hk Hlim Hptr Hal Hall.
  unfold bypass_probe, bind, get_cache, ret.
  rewrite Hptr, Hal. cbn [Z.eqb].
  destruct (Z.eqb_spec (sectorsPerPage (the_cache w)) 0) as [|_]; [lia|].
  unfold _NTFS_cache_findPage.
  rewrite findPage_scan_apart by (auto; nia).
  rewrite Z.div_mul by lia. rewrite wrap64_small by nia. reflexivity.
Qed.

(** C4. For every cache state whose non-FREE slots are pages of at least
    one sector, none of which intersects [[t, t + k*S)], a call of
    [_NTFS_cache_readSectors] or [_NTFS_cache_writeSectors] with a 32-byte
    aligned buffer, [t] a multiple of the page size [S] and exactly [k*S]
    sectors ([k >= 1]) returns, for any fuel of at least one step, with the
    status of one device call: the log grows by exactly that call, a read
    (resp. write) of all [k*S] sectors at [t], and the cache object, with
    every slot, and the tick counter are unchanged. *)
Theorem aligned_bulk_bypass w t k ptr mem fuel :
  0 < sectorsPerPage (the_cache w) ->
  0 <= t < 2 ^ 64 -> 1 <= k -> k * sectorsPerPage (the_cache w) < 2 ^ 64 ->
  ptr mod 32 = 0 -> t mod sectorsPerPage (the_cache w) = 0 ->
  Forall (slot_apart t (k * sectorsPerPage (the_cache w))) (cacheEntries (the_cache w)) ->
  let n := k * sectorsPerPage (the_cache w) in
  let bytes := n * bytesPerSector (the_cache w) in
  let ra := read_answer w t n in
  let wa := writeSectors (disc (the_cache w)) (medium w) t n (slice mem 0 bytes) in
  _NTFS_cache_readSectors (S fuel) t n ptr mem w
  = Ok ((fst (fst ra), blit mem 0 (take (Z.to_nat bytes) (snd (fst ra)))),
        mkWorld (the_cache w) (accessCounter w) (snd ra)
                (io_log w ++ [DevRead t n (fst (fst ra))])) /\
  _NTFS_cache_writeSectors (S fuel) t n ptr mem w
  = Ok (fst wa,
        mkWorld (the_cache w) (accessCounter w) (snd wa)
                (io_log w ++ [DevWrite t n (slice mem 0 bytes) (fst wa)])).
Proof.
  intros HS Ht Hk Hlim Hptr Hal Hall n bytes ra wa.
  pose proof (bypass_probe_whole_pages w t k ptr HS Ht Hk Hlim Hptr Hal Hall) as Hprobe.
  fold n in Hprobe.
  assert (Hn : 1 <= n) by (unfold n; nia).
  assert (Hnz : (n =? 0) = false) by (apply Z.eqb_neq; lia).
  assert (Hpos : (n >? 0) = true) by (apply Z.gtb_lt; lia).
  assert (Hend : wrap64 (n - n) = 0) by (rewrite Z.sub_diag; reflexivity).
  split.
  - unfold _NTFS_cache_readSectors. cbn [readSectors_loop]. rewrite Hnz.
    unfold bind at 1, get_cache. unfold bind at 1. rewrite Z.add_0_r, Hprobe, Hpos.
    unfold bind, dev_read. fold (read_answer w t n). fold ra.
    destruct ra as [[ok data] d']. cbn [fst snd].
    destruct ok; [|reflexivity].
    rewrite Hend. destruct fuel; reflexivity.
  - unfold _NTFS_cache_writeSectors. cbn [writeSectors_loop]. rewrite Hnz.
    unfold bind at 1, get_cache. unfold bind at 1. rewrite Z.add_0_r, Hprobe, Hpos.
    unfold bind, dev_write. fold bytes. fold wa.
    destruct wa as [ok d']. cbn [fst snd].
    destruct ok; [|reflexivity].
    rewrite Hend. destruct fuel; reflexivity.
Qed.

End Bypass.

(** C4, witness: scenario 2 of the spec on the cold cache, a transfer of
    the 32 sectors of page 64 with a buffer at address 0. *)
Lemma aligned_bulk_bypass_witness :
  (exists out,
     _NTFS_cache_readSectors 1 64 32 0 (repeat x00 32) cold
     = Ok ((true, out), mkWorld (the_cache cold) 0 [] [DevRead 64 32 true])) /\
  _NTFS_cache_writeSectors 1 64 32 0 (repeat x01 32) cold
  = Ok (true, mkWorld (the_cache cold) 0 [] [DevWrite 64 32 (repeat x01 32) true]).
Proof.
  assert (H : Forall (slot_apart 64 (1 * 32)) (cacheEntries (the_cache cold))).
  { repeat constructor; cbn; try lia; discriminate. }
  split.
  - eexists.
    exact (proj1 (aligned_bulk_bypass cold 64 1 0 (repeat x00 32) 0%nat
                    ltac:(reflexivity) ltac:(lia) ltac:(lia) ltac:(reflexivity)
                    ltac:(reflexivity) ltac:(reflexivity) H)).
  - exact (proj2 (aligned_bulk_bypass cold 64 1 0 (repeat x01 32) 0%nat
                    ltac:(reflexivity) ltac:(lia) ltac:(lia) ltac:(reflexivity)
                    ltac:(reflexivity) ltac:(reflexivity) H)).
Defined.

(** ** Slot ranges: alignment and disjointness *)

(** The property of the page table the spec calls I1 / P2: every
    non-FREE slot starts at a multiple of the page size, and two distinct
    non-FREE slots cover disjoint sector ranges. *)
Definition slots_aligned_disjoint {D : Type} (w : world D) : Prop :=
  let es := cacheEntries (the_cache w) in
  (forall i e, es !! i = Some e -> is_free e = false ->
     sector e mod sectorsPerPage (the_cache w) = 0) /\
  (forall i j ei ej, i <> j -> es !! i = Some ei -> es !! j = Some ej ->
     is_free ei = false -> is_free ej = false ->
     sector ei + count ei <= sector ej \/ sector ej + count ej <= sector ei).

(** A weakest precondition for the monad of the operations: what must
    hold of the outcome when there is one. *)
Definition wp {D A : Type} (m : M D A) (Q : A -> world D -> Prop) (w : world D) : Prop :=
  match m w with
  | Ok (a, w') => Q a w'
  | Stuck _ => True
  end.

Section Hoare.

Context {D : Type}.

Lemma wp_bind {A B} (m : M D A) (k : A -> M D B) Q w :
  wp m (fun a w' => wp (k a) Q w') w -> wp (bind m k) Q w.
Proof. unfold wp, bind. destruct (m w) as [[a w']|]; auto. Qed.

Lemma wp_ret {A} (a : A) (Q : A -> world D -> Prop) w : Q a w -> wp (ret a) Q w.
Proof. auto. Qed.

Lemma wp_mono {A} (m : M D A) (Q Q' : A -> world D -> Prop) w :
  (forall a w', Q a w' -> Q' a w') -> wp m Q w -> wp m Q' w.
Proof. unfold wp. destruct (m w) as [[a w']|]; auto. Qed.

Lemma wp_ok {A} (m : M D A) Q w a w' : wp m Q w -> m w = Ok (a, w') -> Q a w'.
Proof. unfold wp. intros H E. now rewrite E in H. Qed.

End Hoare.

Section PageTable.

(** The page size and the partition end of the cache; the count of a
    page is computed in an [unsigned int], which holds the distance to
    the end of a partition of fewer than 2^32 sectors. *)
Variables (spp eop : Z).
Hypothesis spp_range : 0 < spp < 2 ^ 32.
Hypothesis eop_range : 0 <= eop < 2 ^ 32.

(** A non-FREE slot holds a page of the partition: an aligned base below
    the end, with all the sectors of the page up to the end. *)
Definition page_ok (e : NTFS_CACHE_ENTRY) : Prop :=
  is_free e = false ->
  0 <= sector e < eop /\ sector e mod spp = 0 /\ count e = Z.min spp (eop - sector e).

(** Every slot is [page_ok] and no page is held twice. *)
Definition table_ok (es : list NTFS_CACHE_ENTRY) : Prop :=
  Forall page_ok es /\
  (forall i j ei ej, es !! i = Some ei -> es !! j = Some ej ->
     is_free ei = false -> is_free ej = false -> sector ei = sector ej -> i = j).

(** Changing a slot without changing its page keeps the table. *)
Lemma table_ok_touch es i e e' :
  es !! i = Some e -> sector e' = sector e -> count e' = count e ->
  table_ok es -> table_ok (<[i := e']> es).
Proof.
  intros He Hs Hc [Hall Huniq].
  assert (Hi : (i < length es)%nat) by (eapply lookup_lt_Some, He).
  assert (Hfree : is_free e' = is_free e) by (unfold is_free; now rewrite Hs).
  split.
  - apply Forall_insert; [exact Hall|].
    pose proof (proj1 (Forall_lookup _ _) Hall i e He) as Hp.
    unfold page_ok in *. rewrite Hfree, Hs, Hc. exact Hp.
  - intros a b ea eb Ha Hb Hfa Hfb Hsec.
    assert (Hlk : forall k ek, <[i := e']> es !! k = Some ek ->
              exists ek0, es !! k = Some ek0 /\ sector ek0 = sector ek
                          /\ is_free ek0 = is_free ek).
    { intros k ek Hk. destruct (Nat.eq_dec k i) as [->|Hne].
      - rewrite list_lookup_insert_eq in Hk by exact Hi. injection Hk as <-.
        exists e. auto.
      - rewrite list_lookup_insert_ne in Hk by congruence. exists ek. auto. }
    destruct (Hlk a ea Ha) as (ea0 & Ha0 & Hsa & Hfa0).
    destruct (Hlk b eb Hb) as (eb0 & Hb0 & Hsb & Hfb0).
    apply (Huniq a b ea0 eb0); congruence.
Qed.

(** Freeing a slot keeps the table. *)
Lemma table_ok_free es i e' :
  is_free e' = true -> table_ok es -> table_ok (<[i := e']> es).
Proof.
  intros Hfree [Hall Huniq]. split.
  - apply Forall_insert; [exact Hall|]. unfold page_ok. congruence.
  - intros a b ea eb Ha Hb Hfa Hfb Hsec.
    destruct (Nat.eq_dec a i) as [->|Hna].
    { apply list_lookup_insert_Some in Ha.
      destruct Ha as [(_ & <- & _)|[? _]]; congruence. }
    destruct (Nat.eq_dec b i) as [->|Hnb].
    { apply list_lookup_insert_Some in Hb.
      destruct Hb as [(_ & <- & _)|[? _]]; congruence. }
    rewrite list_lookup_insert_ne in Ha, Hb by congruence.
    eapply Huniq; eauto.
Qed.

(** Rebasing a slot to a page that no other slot holds keeps the table. *)
Lemma table_ok_rebase es i e' :
  page_ok e' ->
  (forall j ej, j <> i -> es !! j = Some ej -> is_free ej = false ->
     sector ej <> sector e') ->
  table_ok es -> table_ok (<[i := e']> es).
Proof.
  intros Hp Hnew [Hall Huniq]. split.
  - apply Forall_insert; assumption.
  - intros a b ea eb Ha Hb Hfa Hfb Hsec.
    destruct (Nat.eq_dec a i) as [->|Hna]; destruct (Nat.eq_dec b i) as [->|Hnb];
      [reflexivity| | |].
    + apply list_lookup_insert_Some in Ha.
      destruct Ha as [(_ & <- & _)|[? _]]; [|congruence].
      rewrite list_lookup_insert_ne in Hb by congruence.
      exfalso. apply (Hnew b eb); auto.
    + apply list_lookup_insert_Some in Hb.
      destruct Hb as [(_ & <- & _)|[? _]]; [|congruence].
      rewrite list_lookup_insert_ne in Ha by congruence.
      exfalso. apply (Hnew a ea); auto.
    + rewrite list_lookup_insert_ne in Ha, Hb by congruence.
      eapply Huniq; eauto.
Qed.

(** A slot that holds the page of a sector of the partition covers it. *)
Lemma page_ok_covers e t :
  page_ok e -> is_free e = false ->
  0 <= t < eop -> sector e = page_base spp t -> covers e t = true.
Proof.
  intros Hp Hfree Ht Hbase. destruct (Hp Hfree) as (Hs & _ & Hc).
  destruct (page_base_spec spp t ltac:(lia) ltac:(lia)) as (_ & Hb & Hlt & _).
  unfold covers. rewrite wrap64_small by lia.
  apply andb_true_iff. split; [apply Z.geb_le|apply Z.ltb_lt]; lia.
Qed.

(** The page the populate step gives a victim for a sector of the
    partition. *)
Lemma rebased_page_ok t la d buf :
  0 <= t < eop ->
  page_ok (mkEntry (page_base spp t) (page_count eop spp (page_base spp t)) la d buf).
Proof.
  intros Ht _. cbn [sector count].
  destruct (page_base_spec spp t ltac:(lia) ltac:(lia)) as (_ & Hb & Hlt & Hm).
  split; [lia|]. split; [exact Hm|].
  unfold page_count. rewrite wrap64_small by lia. rewrite wrap32_small by lia.
  destruct (Z.gtb_spec (eop - page_base spp t) spp); lia.
Qed.

(** A table that is [table_ok] has aligned and disjoint slots. *)
Lemma table_ok_disjoint es :
  table_ok es ->
  (forall i e, es !! i = Some e -> is_free e = false -> sector e mod spp = 0) /\
  (forall i j ei ej, i <> j -> es !! i = Some ei -> es !! j = Some ej ->
     is_free ei = false -> is_free ej = false ->
     sector ei + count ei <= sector ej \/ sector ej + count ej <= sector ei).
Proof.
  intros [Hall Huniq]. split.
  - intros i e He Hf. now destruct (proj1 (Forall_lookup _ _) Hall i e He Hf) as (_ & ? & _).
  - intros i j ei ej Hij Hi Hj Hfi Hfj.
    destruct (proj1 (Forall_lookup _ _) Hall i ei Hi Hfi) as (Hri & Hmi & Hci).
    destruct (proj1 (Forall_lookup _ _) Hall j ej Hj Hfj) as (Hrj & Hmj & Hcj).
    assert (Hne : sector ei <> sector ej) by (intros Heq; apply Hij; eauto).
    apply Z.mod_divide in Hmi, Hmj; try lia.
    destruct Hmi as [a Ha], Hmj as [b Hb]. rewrite Hci, Hcj, Ha, Hb in *.
    assert (a <> b) by congruence.
    assert (a < b \/ b < a) as [Hlt|Hlt] by lia; [left|right]; nia.
Qed.

End PageTable.

Section Invariant.

Context {D : Type}.
Implicit Types (w : world D) (e : NTFS_CACHE_ENTRY).

Variables (spp eop : Z).
Hypothesis spp_range : 0 < spp < 2 ^ 32.
Hypothesis eop_range : 0 <= eop < 2 ^ 32.

(** The invariant of the cache: its page size and partition end are
    [spp] and [eop], and its table is [table_ok]. *)
Definition cache_inv w : Prop :=
  sectorsPerPage (the_cache w) = spp /\
  endOfPartition (the_cache w) = eop /\
  table_ok spp eop (cacheEntries (the_cache w)).

(** The invariant only looks at the cache object. *)
Lemma cache_inv_same_cache w w' :
  the_cache w' = the_cache w -> cache_inv w -> cache_inv w'.
Proof. unfold cache_inv. now intros ->. Qed.

Lemma cache_inv_put w v e' t d log :
  cache_inv w ->
  table_ok spp eop (<[v := e']> (cacheEntries (the_cache w))) ->
  cache_inv (put_slot w v e' t d log).
Proof.
  intros (HS & HE & _) Ht. split; [exact HS|]. split; [exact HE|exact Ht].
Qed.

(** A scan that ends in a miss met no slot that covers the sector. *)
Lemma getPage_scan_no_hit es : forall i t ff ou oa ff' v,
  getPage_scan es i t ff ou oa = Miss ff' v ->
  Forall (fun e => covers e t = false) es.
Proof.
  induction es as [|e es IH]; intros i t ff ou oa ff' v; [constructor|].
  cbn [getPage_scan]. destruct (covers e t) eqn:Hc; [discriminate|].
  intros H. constructor; [exact Hc|].
  destruct (negb ff && (is_free e || (last_access e <? oa))); eauto.
Qed.

(** The eviction step keeps the invariant and every slot but the victim. *)
Lemma getPage_evict_inv w ff v b w1 :
  getPage_evict ff v w = Ok (b, w1) ->
  cache_inv w ->
  cache_inv w1 /\
  (forall j, j <> v ->
     cacheEntries (the_cache w1) !! j = cacheEntries (the_cache w) !! j) /\
  exists e1, cacheEntries (the_cache w1) !! v = Some e1.
Proof.
  unfold getPage_evict, bind, entry_at.
  destruct (cacheEntries (the_cache w) !! v) as [e|] eqn:He; [|discriminate].
  destruct (negb ff && negb (dirty e =? 0)).
  - rewrite writeback_eval. destruct (fst (writeback_answer w e)).
    + intros [= <- <-] Hinv. split; [|split].
      * apply (cache_inv_put w v (with_dirty e 0)); [exact Hinv|].
        apply (table_ok_touch spp eop _ v e); auto. apply Hinv.
      * intros j Hj. cbn. apply list_lookup_insert_ne. congruence.
      * exists (with_dirty e 0). cbn. apply list_lookup_insert_eq.
        eapply lookup_lt_Some, He.
    + intros [= <- <-] Hinv. split; [|split]; eauto.
  - unfold ret. intros [= <- <-] Hinv. eauto.
Qed.

(** [_NTFS_cache_getPage] for a sector of the partition keeps the
    invariant. *)
Lemma getPage_inv w sect numSectors write :
  cache_inv w -> 0 <= sect < eop ->
  wp (_NTFS_cache_getPage sect numSectors write) (fun _ w' => cache_inv w') w.
Proof.
  intros Hinv Ht. unfold wp.
  destruct (_NTFS_cache_getPage sect numSectors write w) as [[r w']|] eqn:Hget;
    [|exact I].
  destruct (getPage_scan (cacheEntries (the_cache w)) 0 sect false 0 UINT_MAX)
    as [i|ff v] eqn:Hscan.
  - unfold _NTFS_cache_getPage, bind, get_cache in Hget. rewrite Hscan in Hget.
    unfold entry_at, accessTime, set_entry, ret in Hget.
    destruct (cacheEntries (the_cache w) !! i) as [e|] eqn:He; [|discriminate].
    injection Hget as <- <-.
    apply (cache_inv_put w i (with_last_access e _)); [exact Hinv|].
    apply (table_ok_touch spp eop _ i e); auto. apply Hinv.
  - rewrite (getPage_miss_eval _ _ _ _ _ _ Hscan) in Hget.
    destruct (getPage_evict ff v w) as [[b w1]|] eqn:Hev; [|discriminate].
    destruct (getPage_evict_inv _ _ _ _ _ Hev Hinv) as (Hinv1 & Hother & e1 & He1).
    destruct b; [|injection Hget as <- <-; exact Hinv1].
    destruct Hinv1 as (HS1 & HE1 & Htab1).
    rewrite (getPage_populate_eval w1 v sect numSectors write e1) in Hget;
      [|lia|exact He1].
    rewrite HS1, HE1 in Hget.
    assert (Hnew : forall la d buf,
              table_ok spp eop
                (<[v := mkEntry (page_base spp sect)
                          (page_count eop spp (page_base spp sect)) la d buf]>
                   (cacheEntries (the_cache w1)))).
    { intros la d buf.
      apply table_ok_rebase; [apply rebased_page_ok; assumption| |exact Htab1].
      intros j ej Hj Hej Hfree Hsame. cbn [sector] in Hsame.
      rewrite (Hother j Hj) in Hej.
      pose proof (getPage_scan_no_hit _ _ _ _ _ _ _ _ Hscan) as Hno.
      pose proof (proj1 (Forall_lookup _ _) Hno j ej Hej) as Hc. cbn in Hc.
      destruct Hinv as (_ & _ & Hall & _).
      pose proof (proj1 (Forall_lookup _ _) Hall j ej Hej) as Hp.
      rewrite (page_ok_covers spp eop spp_range eop_range ej sect Hp Hfree Ht Hsame)
        in Hc. discriminate. }
    destruct (read_window write _ _ _) as [[sec secs]|].
    + cbv zeta in Hget.
      destruct (read_answer w1 _ secs) as [[[] data] d']; injection Hget as <- <-.
      * apply cache_inv_put; [exact (conj HS1 (conj HE1 Htab1))|apply Hnew].
      * apply cache_inv_put; [exact (conj HS1 (conj HE1 Htab1))|].
        apply table_ok_free; [reflexivity|exact Htab1].
    + injection Hget as <- <-.
      apply cache_inv_put; [exact (conj HS1 (conj HE1 Htab1))|apply Hnew].
Qed.

(** The slot [_NTFS_cache_findPage] returns is a non-FREE slot that
    passed the intersection test of lines 197-201. *)
Lemma findPage_scan_some es : forall i t n entry lowest r,
  findPage_scan es i t n entry lowest = Some r ->
  entry = Some r \/
  exists e, es !! (r - i)%nat = Some e /\ (i <= r)%nat /\ is_free e = false /\
            (if t >? sector e then wrap64 (t - sector e) <? count e
             else wrap64 (sector e - t) <? n) = true.
Proof.
  induction es as [|e es IH]; intros i t n entry lowest r; cbn [findPage_scan];
    [now left|].
  fold (is_free e). intros H.
  assert (Hnext : forall entry' lowest',
            findPage_scan es (S i) t n entry' lowest' = Some r ->
            entry' = Some r \/
            exists e0, (e :: es) !! (r - i)%nat = Some e0 /\ (i <= r)%nat /\
                       is_free e0 = false /\
                       (if t >? sector e0 then wrap64 (t - sector e0) <? count e0
                        else wrap64 (sector e0 - t) <? n) = true).
  { intros entry' lowest' H'. destruct (IH _ _ _ _ _ _ H') as [?|(e0 & He0 & Hle & ?)];
      [now left|right].
    exists e0. replace (r - i)%nat with (S (r - S i)) by lia. split; [exact He0|].
    split; [lia|assumption]. }
  destruct (is_free e) eqn:Hfree; cbn [negb] in H; [now apply Hnext in H|].
  destruct (if t >? sector e then wrap64 (t - sector e) <? count e
            else wrap64 (sector e - t) <? n) eqn:Hint; cbn [andb] in H;
    [|now apply Hnext in H].
  destruct (sector e <? lowest); [|now apply Hnext in H].
  apply Hnext in H. destruct H as [[= <-]|H]; [|now right].
  right. exists e. rewrite Nat.sub_diag. auto.
Qed.

(** For a range of the partition the bypass probe never lets through
    more sectors than were asked for. *)
Lemma bypass_probe_bound w sect numSectors ptr m w' :
  cache_inv w -> 0 <= sect -> 0 <= numSectors -> sect + numSectors <= eop ->
  bypass_probe sect numSectors ptr w = Ok (m, w') ->
  w' = w /\ 0 <= m <= numSectors.
Proof.
  intros (HS & HE & Hall & _) Ht Hn Hend Hprobe.
  split; [eapply bypass_probe_pure, Hprobe|].
  revert Hprobe. unfold bypass_probe, bind, get_cache, ret, undefined, entry_at.
  rewrite HS.
  destruct (ptr mod 32 =? 0); [|intros [= <- _]; lia].
  destruct (spp =? 0); [discriminate|].
  destruct (sect mod spp =? 0); [|intros [= <- _]; lia].
  unfold _NTFS_cache_findPage.
  destruct (findPage_scan _ _ _ _ _ _) as [i|] eqn:Hfind.
  - destruct (findPage_scan_some _ _ _ _ _ _ _ Hfind)
      as [?|(e & He & _ & Hfree & Hint)]; [discriminate|].
    rewrite Nat.sub_0_r in He. rewrite He.
    destruct (proj1 (Forall_lookup _ _) Hall i e He Hfree) as (Hs & _).
    destruct (Z.gtb_spec (sector e) sect) as [Hgt|Hle]; intros [= <- _]; [|lia].
    destruct (Z.gtb_spec sect (sector e)); [lia|].
    apply Z.ltb_lt in Hint. pose proof (wrap64_range (sector e - sect)). lia.
  - intros [= <- _].
    pose proof (Z.div_mod numSectors spp ltac:(lia)) as Hdm.
    pose proof (Z.mod_pos_bound numSectors spp ltac:(lia)) as Hm.
    assert (0 <= numSectors / spp) by (apply Z.div_pos; lia).
    rewrite wrap64_small by nia. nia.
Qed.

(** [entry->dirty |= mask] keeps the invariant. *)
Lemma mark_dirty_inv w i entry page mask :
  cache_inv w -> cacheEntries (the_cache w) !! i = Some entry ->
  wp (mark_dirty i entry page mask) (fun _ w' => cache_inv w') w.
Proof.
  intros Hinv He. unfold wp, mark_dirty, set_entry.
  apply (cache_inv_put w i); [exact Hinv|].
  apply (table_ok_touch spp eop _ i entry); auto. apply Hinv.
Qed.

(** The sectors the cached path of a loop handles in one turn: at most
    what is left. *)
Lemma cached_step_bound (cnt sec numSectors : Z) :
  0 <= numSectors ->
  let secs := wrap64 (cnt - sec) in
  0 <= (if secs >? numSectors then numSectors else secs) <= numSectors.
Proof.
  intros Hn secs. pose proof (wrap64_range (cnt - sec)).
  destruct (Z.gtb_spec secs numSectors); subst secs; lia.
Qed.

(** [_NTFS_cache_readSectors] over a range of the partition keeps the
    invariant. *)
Lemma readSectors_loop_inv fuel : forall sect numSectors dest off mem w,
  cache_inv w -> 0 <= sect -> 0 <= numSectors -> sect + numSectors <= eop ->
  wp (readSectors_loop fuel sect numSectors dest off mem) (fun _ w' => cache_inv w') w.
Proof.
  induction fuel as [|fuel IH]; intros sect numSectors dest off mem w Hinv Ht Hn Hend;
    cbn [readSectors_loop];
    (destruct (Z.eqb_spec numSectors 0) as [|Hnz]; [exact Hinv|]); [exact I|].
  apply wp_bind. unfold wp at 1, get_cache.
  apply wp_bind. unfold wp at 1.
  destruct (bypass_probe sect numSectors (dest + off) w) as [[m w0]|] eqn:Hprobe;
    [|exact I].
  destruct (bypass_probe_bound _ _ _ _ _ _ Hinv Ht Hn Hend Hprobe) as [-> Hm].
  destruct (m >? 0).
  - apply wp_bind. unfold wp at 1, dev_read.
    destruct (readSectors _ _ _ _) as [[ok data] d']. cbn [fst snd].
    destruct ok; [|exact Hinv].
    rewrite (wrap64_small (sect + m)), (wrap64_small (numSectors - m)) by lia.
    apply IH; [|lia|lia|lia].
    eapply cache_inv_same_cache; [|exact Hinv]. reflexivity.
  - apply wp_bind.
    eapply wp_mono; [|apply (getPage_inv w sect numSectors false Hinv); lia].
    intros [i|] w2 Hinv2; [|exact Hinv2].
    apply wp_bind. unfold wp at 1, entry_at.
    destruct (cacheEntries (the_cache w2) !! i) as [entry|]; [|exact I].
    pose proof (cached_step_bound (count entry) (wrap64 (sect - sector entry))
                  numSectors Hn) as Hb. cbv zeta in Hb.
    remember (if wrap64 (count entry - wrap64 (sect - sector entry)) >? numSectors
              then numSectors
              else wrap64 (count entry - wrap64 (sect - sector entry))) as secs.
    rewrite (wrap64_small (sect + secs)), (wrap64_small (numSectors - secs)) by lia.
    apply IH; [exact Hinv2|lia|lia|lia].
Qed.

(** [_NTFS_cache_writeSectors] over a range of the partition keeps the
    invariant. *)
Lemma writeSectors_loop_inv fuel : forall sect numSectors src off mem w,
  cache_inv w -> 0 <= sect -> 0 <= numSectors -> sect + numSectors <= eop ->
  wp (writeSectors_loop fuel sect numSectors src off mem) (fun _ w' => cache_inv w') w.
Proof.
  induction fuel as [|fuel IH]; intros sect numSectors src off mem w Hinv Ht Hn Hend;
    cbn [writeSectors_loop];
    (destruct (Z.eqb_spec numSectors 0) as [|Hnz]; [exact Hinv|]); [exact I|].
  apply wp_bind. unfold wp at 1, get_cache.
  apply wp_bind. unfold wp at 1.
  destruct (bypass_probe sect numSectors (src + off) w) as [[m w0]|] eqn:Hprobe;
    [|exact I].
  destruct (bypass_probe_bound _ _ _ _ _ _ Hinv Ht Hn Hend Hprobe) as [-> Hm].
  destruct (m >? 0).
  - apply wp_bind. unfold wp at 1, dev_write.
    destruct (writeSectors _ _ _ _ _) as [ok d'].
    destruct ok; [|exact Hinv].
    rewrite (wrap64_small (sect + m)), (wrap64_small (numSectors - m)) by lia.
    apply IH; [|lia|lia|lia].
    eapply cache_inv_same_cache; [|exact Hinv]. reflexivity.
  - apply wp_bind.
    eapply wp_mono; [|apply (getPage_inv w sect numSectors true Hinv); lia].
    intros [i|] w2 Hinv2; [|exact Hinv2].
    apply wp_bind. unfold wp at 1, entry_at.
    destruct (cacheEntries (the_cache w2) !! i) as [entry|] eqn:He; [|exact I].
    pose proof (cached_step_bound (count entry) (wrap64 (sect - sector entry))
                  numSectors Hn) as Hb. cbv zeta in Hb.
    destruct (dirty_mask _ _) as [mask|]; [|exact I].
    apply wp_bind. eapply wp_mono; [|apply (mark_dirty_inv w2 i entry); assumption].
    intros u w3 Hinv3.
    remember (if wrap64 (count entry - wrap64 (sect - sector entry)) >? numSectors
              then numSectors
              else wrap64 (count entry - wrap64 (sect - sector entry))) as secs.
    rewrite (wrap64_small (sect + secs)), (wrap64_small (numSectors - secs)) by lia.
    apply IH; [exact Hinv3|lia|lia|lia].
Qed.

(** The partial-sector operations on a sector of the partition keep the
    invariant. *)
Lemma readPartialSector_inv w buf sect offset size :
  cache_inv w -> 0 <= sect < eop ->
  wp (_NTFS_cache_readPartialSector buf sect offset size) (fun _ w' => cache_inv w') w.
Proof.
  intros Hinv Ht. unfold _NTFS_cache_readPartialSector.
  apply wp_bind. unfold wp at 1, get_cache.
  destruct (partial_out_of_sector (the_cache w) offset size); [exact Hinv|].
  apply wp_bind. eapply wp_mono; [|apply (getPage_inv w sect 1 false Hinv Ht)].
  intros [i|] w2 Hinv2; [|exact Hinv2].
  apply wp_bind. unfold wp at 1, entry_at.
  destruct (cacheEntries (the_cache w2) !! i); [exact Hinv2|exact I].
Qed.

Lemma writePartialSector_inv w buf sect offset size :
  cache_inv w -> 0 <= sect < eop ->
  wp (_NTFS_cache_writePartialSector buf sect offset size) (fun _ w' => cache_inv w') w.
Proof.
  intros Hinv Ht. unfold _NTFS_cache_writePartialSector.
  apply wp_bind. unfold wp at 1, get_cache.
  destruct (partial_out_of_sector (the_cache w) offset size); [exact Hinv|].
  apply wp_bind. eapply wp_mono; [|apply (getPage_inv w sect 1 false Hinv Ht)].
  intros [i|] w2 Hinv2; [|exact Hinv2].
  apply wp_bind. unfold wp at 1, entry_at.
  destruct (cacheEntries (the_cache w2) !! i) as [entry|] eqn:He; [|exact I].
  destruct (shl64 1 _) as [mask|]; [|exact I].
  apply wp_bind. eapply wp_mono; [|apply (mark_dirty_inv w2 i entry); assumption].
  intros u w3 Hinv3. exact Hinv3.
Qed.

Lemma eraseWritePartialSector_inv w buf sect offset size :
  cache_inv w -> 0 <= sect < eop ->
  wp (_NTFS_cache_eraseWritePartialSector buf sect offset size)
     (fun _ w' => cache_inv w') w.
Proof.
  intros Hinv Ht. unfold _NTFS_cache_eraseWritePartialSector.
  apply wp_bind. unfold wp at 1, get_cache.
  destruct (partial_out_of_sector (the_cache w) offset size); [exact Hinv|].
  apply wp_bind. eapply wp_mono; [|apply (getPage_inv w sect 1 true Hinv Ht)].
  intros [i|] w2 Hinv2; [|exact Hinv2].
  apply wp_bind. unfold wp at 1, entry_at.
  destruct (cacheEntries (the_cache w2) !! i) as [entry|] eqn:He; [|exact I].
  destruct (shl64 1 _) as [mask|]; [|exact I].
  apply wp_bind. eapply wp_mono; [|apply (mark_dirty_inv w2 i entry); assumption].
  intros u w3 Hinv3. exact Hinv3.
Qed.

Lemma readLittleEndianValue_inv w value sect offset num_bytes :
  cache_inv w -> 0 <= sect < eop ->
  wp (_NTFS_cache_readLittleEndianValue value sect offset num_bytes)
     (fun _ w' => cache_inv w') w.
Proof.
  intros Hinv Ht. unfold _NTFS_cache_readLittleEndianValue.
  apply wp_bind. eapply wp_mono; [|apply readPartialSector_inv; assumption].
  intros [ok buf] w2 Hinv2. cbn [fst snd].
  destruct ok; cbn [negb]; [|exact Hinv2].
  destruct (wrap32 num_bytes >? 4); [exact I|].
  destruct (num_bytes =? 1); [exact Hinv2|].
  destruct (num_bytes =? 2); [exact Hinv2|].
  destruct (num_bytes =? 4); exact Hinv2.
Qed.

Lemma writeLittleEndianValue_inv w value sect offset size :
  cache_inv w -> 0 <= sect < eop ->
  wp (_NTFS_cache_writeLittleEndianValue value sect offset size)
     (fun _ w' => cache_inv w') w.
Proof.
  intros Hinv Ht. unfold _NTFS_cache_writeLittleEndianValue.
  destruct (size =? 1); [apply writePartialSector_inv; assumption|].
  destruct (size =? 2); [apply writePartialSector_inv; assumption|].
  destruct (size =? 4); [apply writePartialSector_inv; assumption|exact Hinv].
Qed.

(** Flushing keeps the invariant, whether it succeeds or not. *)
Lemma flush_from_inv k : forall i w,
  cache_inv w -> wp (flush_from k i) (fun _ w' => cache_inv w') w.
Proof.
  induction k as [|k IH]; intros i w Hinv; cbn [flush_from]; [exact Hinv|].
  apply wp_bind. unfold wp at 1, entry_at.
  destruct (cacheEntries (the_cache w) !! i) as [e|] eqn:He; [|exact I].
  destruct (dirty e =? 0); [now apply IH|].
  apply wp_bind. unfold wp at 1. rewrite writeback_eval.
  destruct (fst (writeback_answer w e)); [|exact Hinv].
  apply IH. apply (cache_inv_put w i (with_dirty e 0)); [exact Hinv|].
  apply (table_ok_touch spp eop _ i e); auto. apply Hinv.
Qed.

Lemma flush_inv w :
  cache_inv w -> wp _NTFS_cache_flush (fun _ w' => cache_inv w') w.
Proof.
  intros Hinv. unfold _NTFS_cache_flush. apply wp_bind. unfold wp at 1, get_cache.
  now apply flush_from_inv.
Qed.

(** A table of FREE slots is [table_ok]. *)
Lemma table_ok_all_free es :
  Forall (fun e => is_free e = true) es -> table_ok spp eop es.
Proof.
  intros Hfree. split.
  - eapply Forall_impl; [exact Hfree|]. unfold page_ok. intros e He. congruence.
  - intros i j ei ej Hi _ Hfi. pose proof (proj1 (Forall_lookup _ _) Hfree i ei Hi).
    congruence.
Qed.

Lemma invalidate_inv w :
  cache_inv w -> wp _NTFS_cache_invalidate (fun _ w' => cache_inv w') w.
Proof.
  intros Hinv. unfold _NTFS_cache_invalidate. apply wp_bind.
  eapply wp_mono; [|apply flush_inv; exact Hinv].
  intros b w1 (HS & HE & _). unfold wp. split; [exact HS|]. split; [exact HE|].
  apply table_ok_all_free. apply Forall_fmap, Forall_forall. reflexivity.
Qed.

End Invariant.

(** ** Sequences of access-layer operations *)

(** A call of an operation of the access layer, with its arguments. *)
Inductive access_op : Type :=
  | ReadSectors (fuel : nat) (sect numSectors dest : Z) (mem : buffer)
  | WriteSectors (fuel : nat) (sect numSectors src : Z) (mem : buffer)
  | ReadPartialSector (buf : buffer) (sect offset size : Z)
  | ReadLittleEndianValue (value sect offset num_bytes : Z)
  | WritePartialSector (buf : buffer) (sect offset size : Z)
  | WriteLittleEndianValue (value sect offset size : Z)
  | EraseWritePartialSector (buf : buffer) (sect offset size : Z)
  | Flush
  | Invalidate.

(** The call, its result dropped. *)
Definition run {D : Type} (o : access_op) : M D unit :=
  match o with
  | ReadSectors fuel sect n dest mem =>
      _NTFS_cache_readSectors fuel sect n dest mem ;;; ret tt
  | WriteSectors fuel sect n src mem =>
      _NTFS_cache_writeSectors fuel sect n src mem ;;; ret tt
  | ReadPartialSector buf sect offset size =>
      _NTFS_cache_readPartialSector buf sect offset size ;;; ret tt
  | ReadLittleEndianValue value sect offset num_bytes =>
      _NTFS_cache_readLittleEndianValue value sect offset num_bytes ;;; ret tt
  | WritePartialSector buf sect offset size =>
      _NTFS_cache_writePartialSector buf sect offset size ;;; ret tt
  | WriteLittleEndianValue value sect offset size =>
      _NTFS_cache_writeLittleEndianValue value sect offset size ;;; ret tt
  | EraseWritePartialSector buf sect offset size =>
      _NTFS_cache_eraseWritePartialSector buf sect offset size ;;; ret tt
  | Flush => _NTFS_cache_flush ;;; ret tt
  | Invalidate => _NTFS_cache_invalidate
  end.

(** The call addresses only sectors of a partition of [eop] sectors. *)
Definition in_partition (eop : Z) (o : access_op) : Prop :=
  match o with
  | ReadSectors _ sect n _ _ | WriteSectors _ sect n _ _ =>
      0 <= sect /\ 0 <= n /\ sect + n <= eop
  | ReadPartialSector _ sect _ _ | ReadLittleEndianValue _ sect _ _
  | WritePartialSector _ sect _ _ | WriteLittleEndianValue _ sect _ _
  | EraseWritePartialSector _ sect _ _ => 0 <= sect < eop
  | Flush | Invalidate => True
  end.

(** The worlds a sequence of calls leads to from [w0], each call being
    [allowed] and returning. *)
Inductive reachable {D : Type} (allowed : access_op -> Prop) (w0 : world D)
    : world D -> Prop :=
  | reach_start : reachable allowed w0 w0
  | reach_step w o u w' :
      reachable allowed w0 w -> allowed o -> run o w = Ok (u, w') ->
      reachable allowed w0 w'.

Section Sequences.

Context {D : Type}.

Lemma run_inv (spp eop : Z) (w : world D) (o : access_op) :
  0 < spp < 2 ^ 32 -> 0 <= eop < 2 ^ 32 ->
  cache_inv spp eop w -> in_partition eop o ->
  wp (run o) (fun _ w' => cache_inv spp eop w') w.
Proof.
  intros HS HE Hinv Hin.
  destruct o; cbn [run in_partition] in *.
  - destruct Hin as (H0 & H1 & H2).
    apply wp_bind. eapply wp_mono; [|apply (readSectors_loop_inv spp eop HS HE); assumption]. auto.
  - destruct Hin as (H0 & H1 & H2).
    apply wp_bind. eapply wp_mono; [|apply (writeSectors_loop_inv spp eop HS HE); assumption]. auto.
  - apply wp_bind. eapply wp_mono; [|apply (readPartialSector_inv spp eop HS HE); assumption]. auto.
  - apply wp_bind. eapply wp_mono; [|apply (readLittleEndianValue_inv spp eop HS HE); assumption]. auto.
  - apply wp_bind. eapply wp_mono; [|apply (writePartialSector_inv spp eop HS HE); assumption]. auto.
  - apply wp_bind. eapply wp_mono; [|apply (writeLittleEndianValue_inv spp eop HS HE); assumption]. auto.
  - apply wp_bind. eapply wp_mono; [|apply (eraseWritePartialSector_inv spp eop HS HE); assumption]. auto.
  - apply wp_bind. eapply wp_mono; [|apply (flush_inv spp eop); assumption]. auto.
  - apply (invalidate_inv spp eop); assumption.
Qed.

(** C8, as the code has it. Starting from a freshly constructed cache
    over a partition of fewer than 2^32 sectors, after any sequence of
    access-layer operations that return and that address only sectors of
    the partition ([sect + numSectors <= endOfPartition] for the bulk
    operations, [sect < endOfPartition] for the partial ones), every
    non-FREE slot has a base sector that is a multiple of the page size,
    and the ranges [sector, sector + count) of two distinct non-FREE
    slots are disjoint. *)
Theorem slots_stay_aligned_disjoint (heap : allocator) (pages sectors : Z)
    (discInterface : DISC_INTERFACE D) (eop bps ticks : Z) (d : D)
    (log : list io_event) (w0 w : world D) :
  0 <= eop < 2 ^ 32 ->
  construct heap pages sectors discInterface eop bps ticks d log = Some w0 ->
  reachable (in_partition eop) w0 w ->
  slots_aligned_disjoint w.
Proof.
  intros HE Hnew Hreach.
  set (spp := Z.max 32 (Z.min sectors 64)).
  assert (HS : 0 < spp < 2 ^ 32) by (unfold spp; lia).
  assert (Hinv : cache_inv spp eop w).
  { induction Hreach as [|w o u w' _ IH Hin Hrun].
    - unfold construct in Hnew.
      destruct (_NTFS_cache_constructor _ _ _ _ _ _) as [c|] eqn:Hc; [|discriminate].
      injection Hnew as <-.
      destruct (constructor_some _ _ _ _ _ _ c Hc) as (_ & He & _ & _ & Hs & _ & Hp & _).
      split; [exact Hs|]. split; [exact He|].
      apply table_ok_all_free. eapply Forall_impl; [exact Hp|].
      intros e (Hsec & _). unfold is_free. now apply Z.eqb_eq.
    - exact (wp_ok _ _ _ _ _ (run_inv spp eop w o HS HE IH Hin) Hrun). }
  destruct Hinv as (Hs & _ & Htab). unfold slots_aligned_disjoint. rewrite Hs.
  exact (table_ok_disjoint spp eop HS HE _ Htab).
Qed.

End Sequences.

(** C8, witness: on the cold cache, a write of sectors 0-7 followed by a
    partial read of sector 40 and a flush. *)
Lemma slots_stay_aligned_disjoint_witness :
  exists w,
    reachable (in_partition 4096) cold w /\ slots_aligned_disjoint w.
Proof.
  assert (Hreach : exists w, reachable (in_partition 4096) cold w).
  { eexists.
    eapply (reach_step _ _ _ Flush).
    - eapply (reach_step _ _ _ (ReadPartialSector [x00] 40 0 1)).
      + eapply (reach_step _ _ _ (WriteSectors 4 0 8 1 (repeat x01 8))).
        * apply reach_start.
        * cbn. lia.
        * vm_compute. reflexivity.
      + cbn. lia.
      + vm_compute. reflexivity.
    - exact I.
    - vm_compute. reflexivity. }
  destruct Hreach as [w Hreach]. exists w. split; [exact Hreach|].
  apply (slots_stay_aligned_disjoint Scripted.heap_ok 4 32 (Scripted.interface 1)
           4096 1 0 [] [] cold w); [lia|reflexivity|exact Hreach].
Defined.

(** C8, counterexample to the claim for arbitrary arguments. The cache
    does not compare a sector with [endOfPartition]: on a partition of 100
    sectors, after a partial read of sector 97 (which loads the tail page
    [96, 100) into slot 0), a partial read of sector 100 misses and loads
    the same page into slot 1, so two distinct non-FREE slots cover the
    same sectors. *)
Lemma out_of_partition_overlap_counterexample :
  exists w0 w,
    Scripted.fresh 100 1 [] = Some w0 /\
    reachable (fun _ => True) w0 w /\
    ~ slots_aligned_disjoint w.
Proof.
  eexists _, _. split; [reflexivity|]. split.
  - eapply (reach_step _ _ _ (ReadPartialSector [x00] 100 0 1)).
    + eapply (reach_step _ _ _ (ReadPartialSector [x00] 97 0 1)).
      * apply reach_start.
      * exact I.
      * vm_compute. reflexivity.
    + exact I.
    + vm_compute. reflexivity.
  - intros [_ Hdis].
    destruct (Hdis 0%nat 1%nat _ _ ltac:(discriminate) eq_refl eq_refl eq_refl eq_refl)
      as [H|H]; cbn in H; lia.
Qed.

(** Why the partition is taken to have fewer than 2^32 sectors: line 154
    stores the [sec_t] distance to the end of the partition in the
    [unsigned int] field [count]. On a partition of 2^32 + 10 sectors the
    page of sector 5 gets a count of 10, so a later partial read of sector
    20, inside the partition and inside the page, misses and loads page 0
    into a second slot. *)
Example count_truncation_overlap :
  exists w0 w,
    Scripted.fresh (2 ^ 32 + 10) 1 [] = Some w0 /\
    reachable (in_partition (2 ^ 32 + 10)) w0 w /\
    ~ slots_aligned_disjoint w.
Proof.
  eexists _, _. split; [reflexivity|]. split.
  - eapply (reach_step _ _ _ (ReadPartialSector [x00] 20 0 1)).
    + eapply (reach_step _ _ _ (ReadPartialSector [x00] 5 0 1)).
      * apply reach_start.
      * cbn. lia.
      * vm_compute. reflexivity.
    + cbn. lia.
    + vm_compute. reflexivity.
  - intros [_ Hdis].
    destruct (Hdis 0%nat 1%nat _ _ ltac:(discriminate) eq_refl eq_refl eq_refl eq_refl)
      as [H|H]; cbn in H; lia.
Qed.

(** Why the operations are taken to return: a call whose behaviour is
    undefined leaves nothing to state. Such is a little-endian read of
    more than four bytes that fit the sector, which the call of line 279
    copies into the four bytes of [buf]. *)
Example readLittleEndianValue_wide_undefined :
  exists w0,
    Scripted.fresh 4096 8 [] = Some w0 /\
    _NTFS_cache_readLittleEndianValue 0 40 0 8 w0 = Stuck Undefined.
Proof. eexists. split; [reflexivity|]. vm_compute. reflexivity. Qed.

(** * Further properties of the code *)

(** ** The extent of a writeback *)

Section Extent.

Lemma ctz_nonneg p : 0 <= ctz p.
Proof. induction p; cbn [ctz]; lia. Qed.

(** Bit [ctz p] of [p] is set and no lower bit is. *)
Lemma ctz_spec p :
  Z.testbit (Zpos p) (ctz p) = true /\
  forall k, 0 <= k < ctz p -> Z.testbit (Zpos p) k = false.
Proof.
  induction p as [p IH|p IH|]; cbn [ctz].
  - split; [reflexivity|lia].
  - destruct IH as [Hset Hlow]. pose proof (ctz_nonneg p) as Hp.
    change (Zpos p~0) with (2 * Zpos p). split.
    + replace (1 + ctz p) with (Z.succ (ctz p)) by lia.
      rewrite Z.testbit_even_succ by lia. exact Hset.
    + intros k Hk. destruct (Z.eq_dec k 0) as [->|Hk0].
      * apply Z.testbit_even_0.
      * replace k with (Z.succ (k - 1)) by lia.
        rewrite Z.testbit_even_succ by lia. apply Hlow. lia.
  - split; [reflexivity|lia].
Qed.

(** X1. For a slot with a non-zero dirty bitmap (a [uint64_t]), the
    extent written back at lines 144-147 and 405-408 starts at the lowest
    dirty sector, ends at the highest, lies inside the 64 sectors of the
    bitmap, and so contains every dirty sector of the slot. *)
Theorem writeback_extent_covers_dirty (e : NTFS_CACHE_ENTRY) :
  0 < dirty e < 2 ^ 64 ->
  let sec := writeback_sec e in
  let secs_to_write := writeback_secs e in
  0 <= sec /\ 1 <= secs_to_write /\ sec + secs_to_write <= 64 /\
  Z.testbit (dirty e) sec = true /\
  Z.testbit (dirty e) (sec + secs_to_write - 1) = true /\
  forall k, 0 <= k -> Z.testbit (dirty e) k = true -> sec <= k < sec + secs_to_write.
Proof.
  intros Hd. unfold writeback_secs, writeback_sec, ffsll, flsll.
  destruct (dirty e) as [|p|p] eqn:Hp; try lia.
  destruct (ctz_spec p) as [Hset Hlow]. pose proof (ctz_nonneg p) as Hc.
  assert (Hlog : 0 <= Z.log2 (Zpos p) < 64).
  { split; [apply Z.log2_nonneg|]. apply Z.log2_lt_pow2; lia. }
  assert (Hcl : ctz p <= Z.log2 (Zpos p)).
  { destruct (Z.le_gt_cases (ctz p) (Z.log2 (Zpos p))) as [|Hgt]; [assumption|].
    rewrite Z.bits_above_log2 in Hset by lia. discriminate. }
  replace (ctz p + 1 - 1) with (ctz p) by lia.
  rewrite (wrap64_small (ctz p)) by lia.
  rewrite (wrap64_small (Z.log2 (Zpos p) + 1 - ctz p)) by lia.
  cbv zeta. split; [lia|]. split; [lia|]. split; [lia|]. split; [exact Hset|]. split.
  - replace (ctz p + (Z.log2 (Zpos p) + 1 - ctz p) - 1) with (Z.log2 (Zpos p)) by lia.
    apply Z.bit_log2. lia.
  - intros k Hk Hbit. split.
    + destruct (Z.le_gt_cases (ctz p) k) as [|Hlt]; [assumption|].
      rewrite Hlow in Hbit by lia. discriminate.
    + destruct (Z.le_gt_cases k (Z.log2 (Zpos p))) as [|Hgt]; [lia|].
      rewrite Z.bits_above_log2 in Hbit by lia. discriminate.
Qed.

(** X1, witness: the slot of scenario 5 of the spec, with sectors 2 and
    29 dirty: one write of the 28 sectors from sector 2. *)
Lemma writeback_extent_covers_dirty_witness :
  writeback_sec (mkEntry 64 32 1 (2 ^ 2 + 2 ^ 29) []) = 2 /\
  writeback_secs (mkEntry 64 32 1 (2 ^ 2 + 2 ^ 29) []) = 28 /\
  forall k, 0 <= k -> Z.testbit (2 ^ 2 + 2 ^ 29) k = true -> 2 <= k < 2 + 28.
Proof.
  destruct (writeback_extent_covers_dirty (mkEntry 64 32 1 (2 ^ 2 + 2 ^ 29) []))
    as (_ & _ & _ & _ & _ & H); [cbn; lia|].
  split; [reflexivity|]. split; [reflexivity|]. exact H.
Defined.

End Extent.

(** ** Hits and the device calls of [_NTFS_cache_getPage] *)

Section GetPageCalls.

Context {D : Type}.
Implicit Types (w : world D) (e : NTFS_CACHE_ENTRY).

(** The scan stops at the first slot that covers the sector. *)
Lemma getPage_scan_first_hit es : forall k t ff ou oa i e,
  es !! i = Some e -> covers e t = true ->
  (forall j ej, (j < i)%nat -> es !! j = Some ej -> covers ej t = false) ->
  getPage_scan es k t ff ou oa = Hit (k + i).
Proof.
  induction es as [|e0 es IH]; intros k t ff ou oa i e Hi Hc Hbefore;
    [rewrite lookup_nil in Hi; discriminate|].
  cbn [getPage_scan]. destruct i as [|i].
  - injection Hi as ->. rewrite Hc, Nat.add_0_r. reflexivity.
  - rewrite (Hbefore 0%nat e0 ltac:(lia) eq_refl).
    replace (k + S i)%nat with (S k + i)%nat by lia.
    destruct (negb ff && (is_free e0 || (last_access e0 <? oa)));
      apply (IH _ _ _ _ _ i e Hi Hc);
      intros j ej Hj Hej; apply (Hbefore (S j) ej); (lia || exact Hej).
Qed.

(** The hit path of [_NTFS_cache_getPage], shared with the read-back
    proofs below. *)
Lemma getPage_first_cover w sect numSectors write i e :
  cacheEntries (the_cache w) !! i = Some e ->
  covers e sect = true ->
  (forall j ej, (j < i)%nat -> cacheEntries (the_cache w) !! j = Some ej ->
     covers ej sect = false) ->
  let t := wrap32 (accessCounter w + 1) in
  _NTFS_cache_getPage sect numSectors write w
  = Ok (Some i, put_slot w i (with_last_access e t) t (medium w) (io_log w)).
Proof.
  intros He Hc Hfirst t.
  unfold _NTFS_cache_getPage, bind, get_cache.
  rewrite (getPage_scan_first_hit _ 0%nat sect false 0%nat UINT_MAX i e He Hc Hfirst).
  cbn [Nat.add]. unfold entry_at. rewrite He. reflexivity.
Qed.

(** X2. When slot [i] is the first slot that covers the sector,
    [_NTFS_cache_getPage] returns slot [i] without any device call: the
    only changes are the tick counter, advanced by one, and the
    [last_access] of slot [i], set to the new tick. A hit never fails. *)
Theorem getPage_hit w sect numSectors write i e :
  cacheEntries (the_cache w) !! i = Some e ->
  covers e sect = true ->
  (forall j ej, (j < i)%nat -> cacheEntries (the_cache w) !! j = Some ej ->
     covers ej sect = false) ->
  let t := wrap32 (accessCounter w + 1) in
  _NTFS_cache_getPage sect numSectors write w
  = Ok (Some i, put_slot w i (with_last_access e t) t (medium w) (io_log w)).
Proof. exact (getPage_first_cover w sect numSectors write i e). Qed.

(** The victim of a miss is a slot of the table, when there is one. *)
Lemma getPage_scan_victim_in_table es t ff v :
  es <> [] ->
  getPage_scan es 0 t false 0 UINT_MAX = Miss ff v ->
  (v < length es)%nat.
Proof.
  intros Hne Hscan.
  pose proof (getPage_scan_no_hit _ _ _ _ _ _ _ _ Hscan) as Hno.
  destruct (getPage_scan_miss es [] t false 0%nat UINT_MAX Hno)
    as (ff' & v' & oa & Hscan' & Hinv).
  { split; [|now right]. intros j e Hj. rewrite lookup_nil in Hj. discriminate. }
  cbn in Hscan', Hinv. rewrite Hscan in Hscan'. injection Hscan' as <- <-.
  unfold scan_inv in Hinv. destruct ff.
  - destruct Hinv as [(e & He & _) _]. eapply lookup_lt_Some, He.
  - destruct Hinv as [_ [(e & He & _)|[-> _]]]; [eapply lookup_lt_Some, He|].
    destruct es; [contradiction|cbn; lia].
Qed.

(** The device calls one call of [_NTFS_cache_getPage] can make, with
    the slot it returns: none (a hit or an elided load), one read, one
    failed write, or one successful write followed by at most one read.
    NULL is returned exactly when the last call failed. *)
Inductive getPage_calls : option nat -> list io_event -> Prop :=
  | calls_none i : getPage_calls (Some i) []
  | calls_read i s n : getPage_calls (Some i) [DevRead s n true]
  | calls_read_failed s n : getPage_calls None [DevRead s n false]
  | calls_write_failed s n d : getPage_calls None [DevWrite s n d false]
  | calls_write i s n d : getPage_calls (Some i) [DevWrite s n d true]
  | calls_write_read i s n d s' n' :
      getPage_calls (Some i) [DevWrite s n d true; DevRead s' n' true]
  | calls_write_read_failed s n d s' n' :
      getPage_calls None [DevWrite s n d true; DevRead s' n' false].

(** [_NTFS_cache_getPage] is total, with the device calls it makes; shared
    with the termination proofs below. *)
Lemma getPage_total w sect numSectors write :
  cacheEntries (the_cache w) <> [] ->
  sectorsPerPage (the_cache w) <> 0 ->
  exists r w' evs,
    _NTFS_cache_getPage sect numSectors write w = Ok (r, w') /\
    io_log w' = io_log w ++ evs /\
    getPage_calls r evs /\
    length (cacheEntries (the_cache w')) = length (cacheEntries (the_cache w)) /\
    match r with
    | Some i => (i < length (cacheEntries (the_cache w)))%nat /\
                accessCounter w' = wrap32 (accessCounter w + 1)
    | None => accessCounter w' = accessCounter w
    end.
Proof.
  intros Hne HS.
  destruct (getPage_scan (cacheEntries (the_cache w)) 0 sect false 0 UINT_MAX)
    as [i|ff v] eqn:Hscan.
  - destruct (getPage_scan_hit _ _ _ _ _ _ _ Hscan) as (e & He & _ & _).
    rewrite Nat.sub_0_r in He.
    unfold _NTFS_cache_getPage, bind, get_cache. rewrite Hscan.
    unfold entry_at, accessTime, set_entry, ret. rewrite He.
    cbn [the_cache accessCounter io_log cacheEntries set_entries].
    eexists _, _, []. split; [reflexivity|]. rewrite app_nil_r.
    split; [reflexivity|]. split; [constructor|].
    cbn [the_cache accessCounter io_log cacheEntries set_entries].
    rewrite length_insert.
    split; [reflexivity|]. split; [eapply lookup_lt_Some, He|reflexivity].
  - pose proof (getPage_scan_victim_in_table _ _ _ _ Hne Hscan) as Hv.
    destruct (lookup_lt_is_Some_2 _ _ Hv) as [e He].
    rewrite (getPage_miss_eval _ _ _ _ _ _ Hscan).
    unfold getPage_evict, bind, entry_at. rewrite He.
    assert (Hpop : forall w1 evs1 e1,
              cacheEntries (the_cache w1) !! v = Some e1 ->
              sectorsPerPage (the_cache w1) <> 0 ->
              length (cacheEntries (the_cache w1)) = length (cacheEntries (the_cache w)) ->
              accessCounter w1 = accessCounter w ->
              io_log w1 = io_log w ++ evs1 ->
              (evs1 = [] \/ exists s n d, evs1 = [DevWrite s n d true]) ->
              exists r w' evs,
                getPage_populate v sect numSectors write w1 = Ok (r, w') /\
                io_log w' = io_log w ++ evs /\ getPage_calls r evs /\
                length (cacheEntries (the_cache w')) = length (cacheEntries (the_cache w)) /\
                match r with
                | Some i => (i < length (cacheEntries (the_cache w)))%nat /\
                            accessCounter w' = wrap32 (accessCounter w + 1)
                | None => accessCounter w' = accessCounter w
                end).
    { intros w1 evs1 e1 He1 HS1 Hlen Hac Hlog Hevs.
      rewrite (getPage_populate_eval w1 v sect numSectors write e1 HS1 He1).
      destruct (read_window write _ _ _) as [[sec secs]|].
      - cbv zeta. destruct (read_answer w1 _ secs) as [[[] data] d'].
        + eexists _, _, (evs1 ++ [_]). split; [reflexivity|].
          unfold put_slot; cbn [the_cache accessCounter io_log cacheEntries set_entries].
          rewrite Hlog, <- app_assoc, length_insert, Hac.
          split; [reflexivity|]. split; [|auto].
          destruct Hevs as [->|(s & n & d & ->)]; constructor.
        + eexists _, _, (evs1 ++ [_]). split; [reflexivity|].
          unfold put_slot; cbn [the_cache accessCounter io_log cacheEntries set_entries].
          rewrite Hlog, <- app_assoc, length_insert.
          split; [reflexivity|]. split; [|auto].
          destruct Hevs as [->|(s & n & d & ->)]; constructor.
      - eexists _, _, evs1. split; [reflexivity|].
          unfold put_slot; cbn [the_cache accessCounter io_log cacheEntries set_entries].
        rewrite length_insert, Hac. split; [exact Hlog|]. split; [|auto].
        destruct Hevs as [->|(s & n & d & ->)]; constructor. }
    destruct (negb ff && negb (dirty e =? 0)).
    + rewrite writeback_eval. destruct (fst (writeback_answer w e)) eqn:Hok.
      * apply (Hpop _ [writeback_event w e] (with_dirty e 0)).
        -- cbn [the_cache cacheEntries set_entries]. apply list_lookup_insert_eq. exact Hv.
        -- exact HS.
        -- cbn [the_cache cacheEntries set_entries]. apply length_insert.
        -- reflexivity.
        -- reflexivity.
        -- right. unfold writeback_event. rewrite Hok. eauto.
      * eexists _, _, [writeback_event w e]. split; [reflexivity|].
        split; [reflexivity|]. split; [|auto].
        unfold writeback_event. rewrite Hok. constructor.
    + apply (Hpop w [] e He HS eq_refl eq_refl); [now rewrite app_nil_r|now left].
Qed.

(** X3. On a cache with at least one slot and a non-zero page size,
    [_NTFS_cache_getPage] always returns, after at most one device write
    and at most one device read, the write first. It returns NULL only
    when the last of these calls failed, and then the tick counter is
    unchanged; when it returns a slot, that slot is in the table and the
    tick counter has advanced by exactly one. The number of slots never
    changes. *)
Theorem getPage_returns w sect numSectors write :
  cacheEntries (the_cache w) <> [] ->
  sectorsPerPage (the_cache w) <> 0 ->
  exists r w' evs,
    _NTFS_cache_getPage sect numSectors write w = Ok (r, w') /\
    io_log w' = io_log w ++ evs /\
    getPage_calls r evs /\
    length (cacheEntries (the_cache w')) = length (cacheEntries (the_cache w)) /\
    match r with
    | Some i => (i < length (cacheEntries (the_cache w)))%nat /\
                accessCounter w' = wrap32 (accessCounter w + 1)
    | None => accessCounter w' = accessCounter w
    end.
Proof. exact (getPage_total w sect numSectors write). Qed.

End GetPageCalls.

(** X2, witness: sector 70 is covered by slot 3 of [table_with_free]. *)
Lemma getPage_hit_witness :
  exists w,
    _NTFS_cache_getPage 70 1 false
      (mkWorld (mkCache (Scripted.interface 1) 4096 4 32 1 table_with_free) 7 [] [])
    = Ok (Some 3%nat, w) /\
    io_log w = [] /\ accessCounter w = 8 /\
    map last_access (cacheEntries (the_cache w)) = [7; 0; 0; 8].
Proof.
  eexists. split.
  - apply (getPage_hit
             (mkWorld (mkCache (Scripted.interface 1) 4096 4 32 1 table_with_free) 7 [] [])
             70 1 false 3%nat (mkEntry 64 32 3 0 [])); [reflexivity|reflexivity|].
    intros [|[|[|j]]] ej Hj Hej; try lia; injection Hej as <-; reflexivity.
  - repeat split.
Defined.

(** X3, witness: a miss on the full table [full_dirty], which has to
    evict a dirty slot to load page 128. *)
Lemma getPage_returns_witness :
  (exists r w' evs,
     _NTFS_cache_getPage 128 1 false full_dirty = Ok (r, w') /\
     io_log w' = io_log full_dirty ++ evs /\ getPage_calls r evs /\
     length (cacheEntries (the_cache w')) = length (cacheEntries (the_cache full_dirty)) /\
     match r with
     | Some i => (i < length (cacheEntries (the_cache full_dirty)))%nat /\
                 accessCounter w' = wrap32 (accessCounter full_dirty + 1)
     | None => accessCounter w' = accessCounter full_dirty
     end).
Proof.
  apply (getPage_returns full_dirty 128 1 false); discriminate.
Defined.

(** ** [_NTFS_cache_findPage] and the bypass probe *)

Section FindPage.

Context {D : Type}.
Implicit Types (w : world D) (e : NTFS_CACHE_ENTRY).

(** The intersection test of lines 197-201 for the range of [n] sectors
    at [t]. *)
Definition intersects e (t n : Z) : bool :=
  if t >? sector e then wrap64 (t - sector e) <? count e
  else wrap64 (sector e - t) <? n.

(** For a page of at least one sector and a range of at least one, the
    test holds exactly when the two ranges share a sector. *)
Lemma intersects_overlap e t n :
  0 <= sector e < 2 ^ 64 -> 0 <= t < 2 ^ 64 -> 1 <= count e -> 1 <= n ->
  intersects e t n = true <-> (t < sector e + count e /\ sector e < t + n).
Proof.
  intros Hs Ht Hc Hn. unfold intersects.
  destruct (Z.gtb_spec t (sector e)); rewrite wrap64_small by lia;
    rewrite Z.ltb_lt; lia.
Qed.

(** What the loop of [_NTFS_cache_findPage] knows after the slots [pre]:
    nothing found and no slot passed the test, or slot [r] passed it with
    the smallest base so far, the first of that base. *)
Definition findPage_inv (t n : Z) (pre : list NTFS_CACHE_ENTRY)
    (entry : option nat) (lowest : Z) : Prop :=
  match entry with
  | None =>
      lowest = CACHE_FREE /\
      forall j e, pre !! j = Some e -> is_free e = false -> intersects e t n = false
  | Some r =>
      exists er, pre !! r = Some er /\ is_free er = false /\
                 intersects er t n = true /\ sector er = lowest /\
                 forall j e, pre !! j = Some e -> is_free e = false ->
                   intersects e t n = true ->
                   lowest <= sector e /\ (sector e = lowest -> (r <= j)%nat)
  end.

Lemma findPage_scan_inv t n es : forall pre entry lowest,
  Forall (fun e => 0 <= sector e < 2 ^ 64) es ->
  findPage_inv t n pre entry lowest ->
  exists lowest',
    findPage_inv t n (pre ++ es)
      (findPage_scan es (length pre) t n entry lowest) lowest'.
Proof.
  induction es as [|e es IH]; intros pre entry lowest Hty Hinv.
  - exists lowest. now rewrite app_nil_r.
  - inversion Hty as [|? ? He Hty']; subst.
    assert (Hlast : (pre ++ [e]) !! length pre = Some e)
      by (rewrite lookup_app_r, Nat.sub_diag; [reflexivity|lia]).
    assert (Hsplit : forall j e', (pre ++ [e]) !! j = Some e' ->
              pre !! j = Some e' \/ (j = length pre /\ e' = e)).
    { intros j e' Hj. apply lookup_app_Some in Hj. destruct Hj as [?|[Hlen Hj]]; [now left|].
      right. assert (j = length pre) as ->
        by (apply lookup_lt_Some in Hj; cbn in Hj; lia).
      rewrite Nat.sub_diag in Hj. now injection Hj as <-. }
    assert (Hkeep : findPage_inv t n pre entry lowest ->
              (is_free e = true \/ intersects e t n = false \/
               (exists r, entry = Some r /\ lowest <= sector e)) ->
              findPage_inv t n (pre ++ [e]) entry lowest).
    { intros Hi Hwhy. unfold findPage_inv in *. destruct entry as [r|].
      - destruct Hi as (er & Her & Hfr & Hir & Hsr & Hmin).
        exists er. split; [rewrite lookup_app_l; [exact Her|eapply lookup_lt_Some, Her]|].
        repeat split; try assumption;
          destruct (Hsplit j e0 H) as [Hj|[-> ->]];
          try (now apply (Hmin j e0 Hj));
          destruct Hwhy as [?|[?|(r' & _ & Hle)]]; try congruence; try lia.
        intros _. apply lookup_lt_Some in Her. lia.
      - destruct Hi as [Hl Hnone]. split; [exact Hl|].
        intros j e' Hj Hf. destruct (Hsplit j e' Hj) as [Hj'|[-> ->]]; [eauto|].
        destruct Hwhy as [?|[?|(r' & ? & _)]]; congruence. }
    cbn [findPage_scan]. fold (is_free e). fold (intersects e t n).
    specialize (IH (pre ++ [e])).
    rewrite length_app, Nat.add_1_r, <- app_assoc in IH. cbn [app] in IH.
    destruct (is_free e) eqn:Hfree; cbn [negb]; [apply IH; auto|].
    destruct (intersects e t n) eqn:Hint; cbn [andb]; [|apply IH; auto].
    destruct (Z.ltb_spec (sector e) lowest) as [Hlt|Hge].
    + apply IH; [assumption|]. unfold findPage_inv.
      exists e. split; [exact Hlast|]. repeat split; try assumption; try reflexivity;
        destruct (Hsplit j e0 H) as [Hj|[-> ->]]; try lia.
      * unfold findPage_inv in Hinv. destruct entry as [r|].
        -- destruct Hinv as (_ & _ & _ & _ & _ & Hmin).
           destruct (Hmin j e0 Hj H0 H1). lia.
        -- destruct Hinv as [_ Hnone]. rewrite (Hnone j e0 Hj H0) in H1. discriminate.
      * intros Heq. unfold findPage_inv in Hinv. destruct entry as [r|].
        -- destruct Hinv as (_ & _ & _ & _ & _ & Hmin).
           destruct (Hmin j e0 Hj H0 H1). lia.
        -- destruct Hinv as [_ Hnone]. rewrite (Hnone j e0 Hj H0) in H1. discriminate.
    + apply IH; [assumption|]. apply Hkeep; [assumption|]. right. right.
      unfold findPage_inv in Hinv. destruct entry as [r|]; [eauto|].
      destruct Hinv as [-> _]. exfalso.
      unfold is_free in Hfree. apply Z.eqb_neq in Hfree.
      unfold CACHE_FREE, wrap64 in *. change (-1 mod 2 ^ 64) with (2 ^ 64 - 1) in *. lia.
Qed.

(** The slot [_NTFS_cache_findPage] chooses; shared with the proof about
    the bypass probe. *)
Lemma findPage_choice (c : NTFS_CACHE D) (t n : Z) :
  Forall (fun e => 0 <= sector e < 2 ^ 64) (cacheEntries c) ->
  match _NTFS_cache_findPage c t n with
  | None =>
      forall j e, cacheEntries c !! j = Some e -> is_free e = false ->
        intersects e t n = false
  | Some r =>
      exists er, cacheEntries c !! r = Some er /\ is_free er = false /\
                 intersects er t n = true /\
                 forall j e, cacheEntries c !! j = Some e -> is_free e = false ->
                   intersects e t n = true ->
                   sector er <= sector e /\ (sector e = sector er -> (r <= j)%nat)
  end.
Proof.
  intros Hty. unfold _NTFS_cache_findPage.
  destruct (findPage_scan_inv t n (cacheEntries c) [] None CACHE_FREE Hty)
    as [lowest Hinv].
  { split; [reflexivity|]. intros j e Hj. rewrite lookup_nil in Hj. discriminate. }
  cbn [app length] in Hinv. unfold findPage_inv in Hinv.
  destruct (findPage_scan _ _ _ _ _ _) as [r|].
  - destruct Hinv as (er & Her & Hf & Hi & <- & Hmin). exists er. auto.
  - apply Hinv.
Qed.

(** X4. On a table whose base sectors are [sec_t] values,
    [_NTFS_cache_findPage] returns NULL exactly when no non-FREE slot
    passes the intersection test, and otherwise returns a non-FREE slot
    that passes it and has the smallest base sector among those that do,
    the lowest-indexed one of that base. *)
Theorem findPage_lowest_intersecting (c : NTFS_CACHE D) (t n : Z) :
  Forall (fun e => 0 <= sector e < 2 ^ 64) (cacheEntries c) ->
  match _NTFS_cache_findPage c t n with
  | None =>
      forall j e, cacheEntries c !! j = Some e -> is_free e = false ->
        intersects e t n = false
  | Some r =>
      exists er, cacheEntries c !! r = Some er /\ is_free er = false /\
                 intersects er t n = true /\
                 forall j e, cacheEntries c !! j = Some e -> is_free e = false ->
                   intersects e t n = true ->
                   sector er <= sector e /\ (sector e = sector er -> (r <= j)%nat)
  end.
Proof. exact (findPage_choice c t n). Qed.

(** The slots of the data model: a base sector that is a [sec_t], and at
    least one sector in a non-FREE slot. *)
Definition slot_model e : Prop :=
  0 <= sector e < 2 ^ 64 /\ (is_free e = false -> 1 <= count e).

(** X5. For a cache of the data model, whenever the probe of
    [_NTFS_cache_readSectors] / [_NTFS_cache_writeSectors] lets [m > 0]
    sectors go straight to the device, the caller's buffer is 32-byte
    aligned, the sector is page-aligned, [m] is at most the number of
    sectors asked for, and no non-FREE slot holds any sector of
    [[t, t + m)]: a bypass never transfers a cached sector. The probe
    itself changes nothing. *)
Theorem bypass_skips_cached w t n ptr m w' :
  Forall slot_model (cacheEntries (the_cache w)) ->
  0 <= t < 2 ^ 64 -> 1 <= n < 2 ^ 64 ->
  0 < sectorsPerPage (the_cache w) ->
  bypass_probe t n ptr w = Ok (m, w') ->
  w' = w /\ 0 <= m <= n /\
  (0 < m ->
   ptr mod 32 = 0 /\ t mod sectorsPerPage (the_cache w) = 0 /\
   forall j e, cacheEntries (the_cache w) !! j = Some e -> is_free e = false ->
     sector e + count e <= t \/ t + m <= sector e).
Proof.
  intros Hmodel Ht Hn HS Hprobe.
  split; [eapply bypass_probe_pure, Hprobe|].
  assert (Hty : Forall (fun e => 0 <= sector e < 2 ^ 64) (cacheEntries (the_cache w)))
    by (eapply Forall_impl; [exact Hmodel|]; intros e He; apply He).
  pose proof (findPage_choice (the_cache w) t n Hty) as Hfind.
  revert Hprobe. unfold bypass_probe, bind, get_cache, ret, undefined, entry_at.
  destruct (Z.eqb_spec (ptr mod 32) 0) as [Hptr|_]; [|intros [= <- _]; lia].
  destruct (Z.eqb_spec (sectorsPerPage (the_cache w)) 0) as [|_]; [lia|].
  destruct (Z.eqb_spec (t mod sectorsPerPage (the_cache w)) 0) as [Hal|_];
    [|intros [= <- _]; lia].
  assert (Hov : forall j e, cacheEntries (the_cache w) !! j = Some e ->
            is_free e = false ->
            (intersects e t n = true <-> t < sector e + count e /\ sector e < t + n)).
  { intros j e Hj Hf.
    destruct (proj1 (Forall_lookup _ _) Hmodel j e Hj) as [Hs Hc].
    apply intersects_overlap; auto; lia. }
  destruct (_NTFS_cache_findPage (the_cache w) t n) as [r|].
  - destruct Hfind as (er & Her & Hfr & Hir & Hmin). rewrite Her.
    destruct (proj1 (Forall_lookup _ _) Hmodel r er Her) as [Hsr Hcr].
    pose proof (proj1 (Hov r er Her Hfr) Hir) as [Hr1 Hr2].
    destruct (Z.gtb_spec (sector er) t) as [Hgt|Hle]; intros [= <- _]; [|lia].
    rewrite wrap64_small by lia. split; [lia|]. intros _.
    split; [exact Hptr|]. split; [exact Hal|].
    intros j e Hj Hf.
    destruct (Z.le_gt_cases (sector e + count e) t) as [|H1]; [now left|].
    destruct (Z.le_gt_cases (t + (sector er - t)) (sector e)) as [|H2]; [now right|].
    exfalso. assert (Hie : intersects e t n = true) by (apply (Hov j e Hj Hf); lia).
    destruct (Hmin j e Hj Hf Hie). lia.
  - intros [= <- _].
    pose proof (Z.div_mod n (sectorsPerPage (the_cache w)) ltac:(lia)) as Hdm.
    pose proof (Z.mod_pos_bound n (sectorsPerPage (the_cache w)) HS) as Hm.
    assert (0 <= n / sectorsPerPage (the_cache w)) by (apply Z.div_pos; lia).
    rewrite wrap64_small by nia. split; [nia|]. intros Hpos.
    split; [exact Hptr|]. split; [exact Hal|].
    intros j e Hj Hf.
    destruct (Z.le_gt_cases (sector e + count e) t) as [|H1]; [now left|].
    destruct (Z.le_gt_cases
                (t + n / sectorsPerPage (the_cache w) * sectorsPerPage (the_cache w))
                (sector e)) as [|H2]; [now right|].
    exfalso. assert (Hie : intersects e t n = true) by (apply (Hov j e Hj Hf); nia).
    rewrite (Hfind j e Hj Hf) in Hie. discriminate.
Qed.

End FindPage.

(** The cache of the scenarios with [table_with_free] as its table: page
    0 in slot 0, page 64 in slot 3. *)
Definition two_pages : world Scripted.medium_state :=
  mkWorld (mkCache (Scripted.interface 1) 4096 4 32 1 table_with_free) 7 [] [].

(** X4, witness: of the slots of [two_pages], both pages intersect the
    100 sectors from sector 16, and slot 0, with base 0, is returned. *)
Lemma findPage_lowest_intersecting_witness :
  exists er,
    cacheEntries (the_cache two_pages) !! 0%nat = Some er /\ is_free er = false /\
    intersects er 16 100 = true /\
    forall j e, cacheEntries (the_cache two_pages) !! j = Some e -> is_free e = false ->
      intersects e 16 100 = true ->
      sector er <= sector e /\ (sector e = sector er -> (0 <= j)%nat).
Proof.
  assert (Hty : Forall (fun e => 0 <= sector e < 2 ^ 64) (cacheEntries (the_cache two_pages))).
  { unfold two_pages, table_with_free. cbn [the_cache cacheEntries].
    repeat (apply Forall_cons_2; [split; [apply Z.leb_le|apply Z.ltb_lt]; reflexivity|]).
    apply Forall_nil_2. }
  exact (findPage_lowest_intersecting (the_cache two_pages) 16 100 Hty).
Defined.

(** X5, witness: an aligned transfer of 64 sectors from sector 32 on
    [two_pages] bypasses the cache for the 32 sectors before page 64. *)
Lemma bypass_skips_cached_witness :
  bypass_probe 32 64 0 two_pages = Ok (32, two_pages) /\
  forall j e, cacheEntries (the_cache two_pages) !! j = Some e -> is_free e = false ->
    sector e + count e <= 32 \/ 32 + 32 <= sector e.
Proof.
  assert (Hm : Forall slot_model (cacheEntries (the_cache two_pages))).
  { unfold two_pages, table_with_free. cbn [the_cache cacheEntries].
    repeat (apply Forall_cons_2;
            [split; [split; [apply Z.leb_le|apply Z.ltb_lt]; reflexivity
                    |cbn; intros; (lia || discriminate)]|]).
    apply Forall_nil_2. }
  destruct (bypass_skips_cached two_pages 32 64 0 32 two_pages Hm)
    as (_ & _ & H); [lia|lia|reflexivity|reflexivity|].
  split; [reflexivity|]. apply H. lia.
Defined.

(** ** [_NTFS_cache_flush] and [_NTFS_cache_invalidate], whatever the device does *)

Section FlushInvalidate.

Context {D : Type}.
Implicit Types (w : world D) (e : NTFS_CACHE_ENTRY).

(** A device write, with its status. *)
Definition is_write (ok : bool) (ev : io_event) : Prop :=
  match ev with
  | DevWrite _ _ _ ok' => ok' = ok
  | DevRead _ _ _ => False
  end.

(** What a flush may do to a slot: clear its dirty bitmap, nothing else. *)
Definition flushed e e' : Prop :=
  e' = e \/ e' = with_dirty e 0.

(** The outcome of the loop of [_NTFS_cache_flush] over [k] slots of the
    table from slot [i] on. *)
Lemma flush_from_returns k : forall i w,
  (i + k <= length (cacheEntries (the_cache w)))%nat ->
  exists b w' evs,
    flush_from k i w = Ok (b, w') /\
    io_log w' = io_log w ++ evs /\
    accessCounter w' = accessCounter w /\
    the_cache w' = set_entries (the_cache w) (cacheEntries (the_cache w')) /\
    length (cacheEntries (the_cache w')) = length (cacheEntries (the_cache w)) /\
    (forall j ej, cacheEntries (the_cache w) !! j = Some ej ->
       exists ej', cacheEntries (the_cache w') !! j = Some ej' /\ flushed ej ej' /\
                   (b = true -> (i <= j < i + k)%nat -> dirty ej' = 0)) /\
    (if b then Forall (is_write true) evs
     else exists evs0 ev, evs = evs0 ++ [ev] /\ Forall (is_write true) evs0 /\
                          is_write false ev).
Proof.
  induction k as [|k IH]; intros i w Hlen.
  - exists true, w, []. cbn [flush_from]. unfold ret. rewrite app_nil_r.
    repeat split; try reflexivity; [now destruct (the_cache w)| |constructor].
    intros j ej Hj. exists ej. split; [exact Hj|]. split; [now left|]. lia.
  - cbn [flush_from]. unfold bind, entry_at.
    destruct (lookup_lt_is_Some_2 (cacheEntries (the_cache w)) i ltac:(lia)) as [e He].
    rewrite He. destruct (Z.eqb_spec (dirty e) 0) as [Hz|Hnz].
    + destruct (IH (S i) w ltac:(lia)) as (b & w' & evs & Hrun & Hlog & Hac & Hc & Hl & Hs & Hev).
      exists b, w', evs. repeat split; try assumption.
      intros j ej Hj. destruct (Hs j ej Hj) as (ej' & Hj' & Hfl & Hclean).
      exists ej'. split; [exact Hj'|]. split; [exact Hfl|].
      intros Hb Hrange. destruct (Nat.eq_dec j i) as [->|Hne]; [|apply Hclean; [exact Hb|lia]].
      assert (ej = e) as -> by congruence.
      destruct Hfl as [->| ->]; [exact Hz|reflexivity].
    + rewrite writeback_eval. destruct (fst (writeback_answer w e)) eqn:Hok.
      * set (w1 := mkWorld _ _ _ _).
        destruct (IH (S i) w1) as (b & w' & evs & Hrun & Hlog & Hac & Hc & Hl & Hs & Hev).
        { subst w1. cbn [the_cache cacheEntries set_entries]. rewrite length_insert. lia. }
        subst w1. cbn [the_cache accessCounter io_log cacheEntries set_entries] in *.
        rewrite length_insert in Hl.
        exists b, w', (writeback_event w e :: evs). split; [exact Hrun|].
        split; [rewrite Hlog, <- app_assoc; reflexivity|].
        split; [exact Hac|]. split; [exact Hc|]. split; [exact Hl|]. split.
        -- intros j ej Hj. destruct (Nat.eq_dec j i) as [->|Hne].
           ++ assert (ej = e) as -> by congruence.
              destruct (Hs i (with_dirty e 0)) as (ej' & Hj' & Hfl & _).
              { apply list_lookup_insert_eq. eapply lookup_lt_Some, He. }
              exists ej'. split; [exact Hj'|].
              assert (ej' = with_dirty e 0) as ->
                by (destruct Hfl as [->| ->]; reflexivity).
              split; [now right|reflexivity].
           ++ destruct (Hs j ej) as (ej' & Hj' & Hfl & Hclean).
              { rewrite list_lookup_insert_ne by congruence. exact Hj. }
              exists ej'. split; [exact Hj'|]. split; [exact Hfl|].
              intros Hb Hrange. apply Hclean; [exact Hb|lia].
        -- assert (Hw : is_write true (writeback_event w e))
             by (unfold writeback_event; rewrite Hok; reflexivity).
           destruct b.
           ++ now apply Forall_cons_2.
           ++ destruct Hev as (evs0 & ev & -> & Hall & Hlast).
              exists (writeback_event w e :: evs0), ev.
              split; [reflexivity|]. split; [now apply Forall_cons_2|exact Hlast].
      * eexists false, _, [writeback_event w e]. split; [reflexivity|].
        cbn [the_cache accessCounter io_log].
        repeat split; try reflexivity; [now destruct (the_cache w)| |].
        -- intros j ej Hj. exists ej. split; [exact Hj|]. split; [now left|discriminate].
        -- exists [], (writeback_event w e). split; [reflexivity|].
           split; [constructor|]. unfold writeback_event. rewrite Hok. reflexivity.
Qed.

(** [_NTFS_cache_flush] is total, with what it writes and leaves; shared
    with the proofs about repeated flushes and invalidation. *)
Lemma flush_total w :
  exists b w' evs,
    _NTFS_cache_flush w = Ok (b, w') /\
    io_log w' = io_log w ++ evs /\
    accessCounter w' = accessCounter w /\
    the_cache w' = set_entries (the_cache w) (cacheEntries (the_cache w')) /\
    length (cacheEntries (the_cache w')) = length (cacheEntries (the_cache w)) /\
    (forall j ej, cacheEntries (the_cache w) !! j = Some ej ->
       exists ej', cacheEntries (the_cache w') !! j = Some ej' /\ flushed ej ej') /\
    (if b then Forall (is_write true) evs /\
               Forall (fun e => dirty e = 0) (cacheEntries (the_cache w'))
     else exists evs0 ev, evs = evs0 ++ [ev] /\ Forall (is_write true) evs0 /\
                          is_write false ev).
Proof.
  unfold _NTFS_cache_flush, bind, get_cache.
  destruct (flush_from_returns (length (cacheEntries (the_cache w))) 0 w ltac:(lia))
    as (b & w' & evs & Hrun & Hlog & Hac & Hc & Hl & Hs & Hev).
  exists b, w', evs. split; [exact Hrun|]. split; [exact Hlog|]. split; [exact Hac|].
  split; [exact Hc|]. split; [exact Hl|]. split.
  - intros j ej Hj. destruct (Hs j ej Hj) as (ej' & ? & ? & _). eauto.
  - destruct b; [|exact Hev]. split; [exact Hev|].
    apply Forall_lookup. intros j ej' Hj'.
    assert (Hj : (j < length (cacheEntries (the_cache w)))%nat)
      by (rewrite <- Hl; eapply lookup_lt_Some, Hj').
    destruct (lookup_lt_is_Some_2 _ _ Hj) as [ej Hej].
    destruct (Hs j ej Hej) as (ej'' & Hj'' & _ & Hclean).
    assert (ej'' = ej') as -> by congruence. apply Hclean; [reflexivity|lia].
Qed.

(** X6. [_NTFS_cache_flush] always returns. It only writes to the device,
    every write but a failed last one succeeds, and it returns [false]
    exactly when its last write failed. It never advances the tick
    counter and never changes a slot except to clear its dirty bitmap;
    when it returns [true] every slot is clean. *)
Theorem flush_returns w :
  exists b w' evs,
    _NTFS_cache_flush w = Ok (b, w') /\
    io_log w' = io_log w ++ evs /\
    accessCounter w' = accessCounter w /\
    the_cache w' = set_entries (the_cache w) (cacheEntries (the_cache w')) /\
    length (cacheEntries (the_cache w')) = length (cacheEntries (the_cache w)) /\
    (forall j ej, cacheEntries (the_cache w) !! j = Some ej ->
       exists ej', cacheEntries (the_cache w') !! j = Some ej' /\ flushed ej ej') /\
    (if b then Forall (is_write true) evs /\
               Forall (fun e => dirty e = 0) (cacheEntries (the_cache w'))
     else exists evs0 ev, evs = evs0 ++ [ev] /\ Forall (is_write true) evs0 /\
                          is_write false ev).
Proof. exact (flush_total w). Qed.

(** A flush loop over clean slots does nothing. *)
Lemma flush_from_clean k : forall i w,
  Forall (fun e => dirty e = 0) (cacheEntries (the_cache w)) ->
  (i + k <= length (cacheEntries (the_cache w)))%nat ->
  flush_from k i w = Ok (true, w).
Proof.
  induction k as [|k IH]; intros i w Hclean Hlen; [reflexivity|].
  cbn [flush_from]. unfold bind, entry_at.
  destruct (lookup_lt_is_Some_2 (cacheEntries (the_cache w)) i ltac:(lia)) as [e He].
  rewrite He, (proj1 (Forall_lookup _ _) Hclean i e He). cbn [Z.eqb].
  apply IH; [exact Hclean|lia].
Qed.

(** X7. Flushing a cache whose slots are all clean returns [true] and
    changes nothing: no device call, no slot, no tick. In particular a
    flush that returned [true] is not repeated by the next flush: nothing
    is written twice while it stays clean. *)
Theorem flush_clean_is_noop :
  (forall w, Forall (fun e => dirty e = 0) (cacheEntries (the_cache w)) ->
             _NTFS_cache_flush w = Ok (true, w)) /\
  (forall w w1, _NTFS_cache_flush w = Ok (true, w1) ->
                _NTFS_cache_flush w1 = Ok (true, w1)).
Proof.
  assert (Hclean : forall w, Forall (fun e => dirty e = 0) (cacheEntries (the_cache w)) ->
                             _NTFS_cache_flush w = Ok (true, w)).
  { intros w H. unfold _NTFS_cache_flush, bind, get_cache.
    apply flush_from_clean; [exact H|lia]. }
  split; [exact Hclean|]. intros w w1 Hrun. apply Hclean.
  destruct (flush_total w) as (b & w' & evs & Hrun' & _ & _ & _ & _ & _ & Hb).
  rewrite Hrun in Hrun'. injection Hrun' as <- <-. apply Hb.
Qed.

(** X8. [_NTFS_cache_invalidate] always returns, whatever the device
    answers to the flush it starts with: afterwards every slot is FREE
    with count, last access and dirty bitmap zero and the buffer it had,
    the number of slots and the tick counter are unchanged, and the only
    device calls made are writes. A dirty sector whose write failed is
    not kept. *)
Theorem invalidate_returns w :
  exists w' evs,
    _NTFS_cache_invalidate w = Ok (tt, w') /\
    the_cache w' = set_entries (the_cache w) (map reset_entry (cacheEntries (the_cache w))) /\
    accessCounter w' = accessCounter w /\
    io_log w' = io_log w ++ evs /\
    Forall (fun ev => exists ok, is_write ok ev) evs.
Proof.
  destruct (flush_total w) as (b & w1 & evs & Hrun & Hlog & Hac & Hc & Hl & Hs & Hev).
  unfold _NTFS_cache_invalidate, bind. rewrite Hrun.
  eexists _, evs. split; [reflexivity|].
  cbn [the_cache accessCounter io_log].
  split; [|split; [exact Hac|split; [exact Hlog|]]].
  - rewrite Hc. unfold set_entries. cbn [disc endOfPartition numberOfPages sectorsPerPage
      bytesPerSector cacheEntries]. f_equal.
    apply list_eq. intros j. rewrite !list_lookup_fmap.
    destruct (cacheEntries (the_cache w) !! j) as [ej|] eqn:Hj.
    + destruct (Hs j ej Hj) as (ej' & -> & [->| ->]); reflexivity.
    + apply lookup_ge_None in Hj. rewrite <- Hl in Hj.
      apply lookup_ge_None in Hj. now rewrite Hj.
  - destruct b.
    + eapply Forall_impl; [apply Hev|]. intros ev H. now exists true.
    + destruct Hev as (evs0 & ev & -> & Hall & Hlast).
      apply Forall_app. split.
      * eapply Forall_impl; [exact Hall|]. intros ev' H. now exists true.
      * apply Forall_cons_2; [now exists false|constructor].
Qed.

End FlushInvalidate.

(** X7, witness: the cold cache is clean; and the flush of [two_dirty]
    over a working medium, once done, is not repeated. *)
Lemma flush_clean_is_noop_witness :
  _NTFS_cache_flush cold = Ok (true, cold) /\
  exists w1,
    _NTFS_cache_flush (mkWorld (the_cache two_dirty) 3 [] []) = Ok (true, w1) /\
    io_log w1 = [DevWrite 2 4 (repeat x01 4) true; DevWrite 32 2 (repeat x02 2) true;
                 DevWrite 67 1 [x03] true] /\
    _NTFS_cache_flush w1 = Ok (true, w1).
Proof.
  split.
  - apply (proj1 flush_clean_is_noop cold). unfold cold. cbn [the_cache cacheEntries repeat].
    repeat (apply Forall_cons_2; [reflexivity|]). apply Forall_nil_2.
  - eexists. split; [vm_compute; reflexivity|]. split; [reflexivity|].
    apply (proj2 flush_clean_is_noop (mkWorld (the_cache two_dirty) 3 [] [])).
    vm_compute. reflexivity.
Defined.

(** ** Dirty bits, buffers and coverage along in-partition sequences *)

Section Buffers.

(** [memcpy] into a buffer keeps its size. *)
Lemma blit_length (dst : buffer) (off : nat) (src : buffer) :
  length (blit dst off src) = length dst.
Proof.
  unfold blit. rewrite length_take, !length_app, length_take, length_drop. lia.
Qed.

(** The loop of [_NTFS_cache_readSectors] hands the caller's buffer back
    with the size it had. *)
Lemma readSectors_loop_length {D : Type} (fuel : nat) :
  forall sect numSectors dest off mem (w : world D) r w',
    readSectors_loop fuel sect numSectors dest off mem w = Ok (r, w') ->
    length (snd r) = length mem.
Proof.
  induction fuel as [|fuel IH]; intros sect numSectors dest off mem w r w' Hrun;
    cbn [readSectors_loop] in Hrun;
    (destruct (numSectors =? 0);
     [unfold ret in Hrun; injection Hrun as <- _; reflexivity|]); [discriminate|].
  unfold bind at 1, get_cache in Hrun. unfold bind at 1 in Hrun.
  destruct (bypass_probe sect numSectors (dest + off) w) as [[m w1]|] eqn:Hprobe;
    [|discriminate].
  destruct (m >? 0).
  - unfold bind at 1, dev_read in Hrun.
    destruct (readSectors _ _ _ _) as [[ok data] d']. cbn [fst snd] in Hrun.
    destruct ok.
    + apply IH in Hrun. rewrite Hrun. apply blit_length.
    + unfold ret in Hrun. injection Hrun as <- _. apply blit_length.
  - unfold bind at 1 in Hrun.
    destruct (_NTFS_cache_getPage sect numSectors false w1) as [[r0 w2]|]; [|discriminate].
    destruct r0 as [i|]; [|unfold ret in Hrun; injection Hrun as <- _; reflexivity].
    unfold bind at 1, entry_at in Hrun.
    destruct (cacheEntries (the_cache w2) !! i) as [entry|]; [|discriminate].
    apply IH in Hrun. rewrite Hrun. apply blit_length.
Qed.

(** A copy that fits replaces the bytes from [off] on. *)
Lemma blit_fits (dst : buffer) (off : nat) (src : buffer) :
  (off + length src <= length dst)%nat ->
  blit dst off src = take off dst ++ src ++ drop (off + length src) dst.
Proof.
  intros Hfit. unfold blit. apply take_ge.
  rewrite !length_app, length_take, length_drop. lia.
Qed.

(** Reading back what was just copied, when it fits in the buffer. *)
Lemma slice_blit (dst : buffer) (off : nat) (src : buffer) :
  (off + length src <= length dst)%nat ->
  slice (blit dst off src) (Z.of_nat off) (Z.of_nat (length src)) = src.
Proof.
  intros Hfit. rewrite (blit_fits dst off src Hfit). unfold slice.
  rewrite !Nat2Z.id.
  rewrite drop_app_length'; [|rewrite length_take; lia].
  apply take_app_length.
Qed.

(** Reading back a sector that was zeroed and then written in part. *)
Lemma slice_erase_blit (p : buffer) (a o r : nat) (src : buffer) :
  (a + (o + length src + r) <= length p)%nat ->
  slice (blit (blit p a (repeat x00 (o + length src + r))) (a + o) src)
        (Z.of_nat a) (Z.of_nat (o + length src + r))
  = repeat x00 o ++ src ++ repeat x00 r.
Proof.
  intros Hfit.
  set (zeroed := blit p a (repeat x00 (o + length src + r))).
  set (rest := repeat x00 r ++ drop (a + (o + length src + r)) p).
  assert (Hzero : zeroed
                  = ((take a p ++ repeat x00 o) ++ repeat x00 (length src)) ++ rest).
  { subst zeroed rest. rewrite blit_fits by (rewrite repeat_length; lia).
    rewrite repeat_length, !repeat_app, <- !app_assoc. reflexivity. }
  assert (Hlen : length (take a p ++ repeat x00 o) = (a + o)%nat).
  { rewrite length_app, length_take, repeat_length. lia. }
  assert (Htake : take (a + o) zeroed = take a p ++ repeat x00 o).
  { rewrite Hzero, <- app_assoc. apply take_app_length'. lia. }
  assert (Hdrop : drop (a + o + length src) zeroed = rest).
  { rewrite Hzero. apply drop_app_length'.
    rewrite length_app, Hlen, repeat_length. reflexivity. }
  rewrite blit_fits by (subst zeroed; rewrite blit_length; lia).
  rewrite Htake, Hdrop. subst rest. unfold slice. rewrite !Nat2Z.id, <- !app_assoc.
  rewrite drop_app_length' by (rewrite length_take; lia).
  rewrite !app_assoc. apply take_app_length'.
  rewrite !length_app, !repeat_length. lia.
Qed.

End Buffers.

Section Strong.

Context {D : Type}.
Implicit Types (w : world D) (e : NTFS_CACHE_ENTRY).

Variables (spp eop : Z).
Hypothesis spp_range : 0 < spp <= 64.
Hypothesis eop_range : 0 <= eop < 2 ^ 32.
Variable bps : Z.
Variable lens : list nat.

Let spp_range32 : 0 < spp < 2 ^ 32.
Proof. lia. Qed.

(** The dirty bitmap of a slot: zero in a FREE slot, and with no bit set
    at or beyond the slot's sector count. *)
Definition slot_dirty_ok e : Prop :=
  0 <= dirty e /\ (is_free e = true -> dirty e = 0) /\
  forall k, count e <= k -> Z.testbit (dirty e) k = false.

(** The sector size is [bps], the table has a slot, its buffers have the
    sizes [lens], and its dirty bitmaps are [slot_dirty_ok]. *)
Definition aux_inv w : Prop :=
  bytesPerSector (the_cache w) = bps /\
  cacheEntries (the_cache w) <> [] /\
  map (fun e => length (cache e)) (cacheEntries (the_cache w)) = lens /\
  Forall slot_dirty_ok (cacheEntries (the_cache w)).

Definition strong_inv w : Prop := cache_inv spp eop w /\ aux_inv w.

(** The slot [_NTFS_cache_getPage] returns holds the sector asked for. *)
Definition holds_sector w (r : option nat) (sect : Z) : Prop :=
  match r with
  | Some i => exists e, cacheEntries (the_cache w) !! i = Some e /\
                        is_free e = false /\ sector e <= sect < sector e + count e
  | None => True
  end.

Lemma aux_inv_same_cache w w' :
  the_cache w' = the_cache w -> aux_inv w -> aux_inv w'.
Proof. unfold aux_inv. now intros ->. Qed.

Lemma aux_inv_put w v e e' t d log :
  aux_inv w -> cacheEntries (the_cache w) !! v = Some e ->
  length (cache e') = length (cache e) -> slot_dirty_ok e' ->
  aux_inv (put_slot w v e' t d log).
Proof.
  intros (HB & Hne & Hlen & Hd) He Hl Hok. unfold aux_inv, put_slot.
  cbn [the_cache cacheEntries set_entries bytesPerSector]. split; [exact HB|].
  split; [|split].
  - intros Hnil. apply Hne. apply length_zero_iff_nil.
    rewrite <- (length_insert (cacheEntries (the_cache w)) v e'), Hnil. reflexivity.
  - rewrite <- Hlen. rewrite list_fmap_insert. apply list_insert_id.
    rewrite list_lookup_fmap, He. cbn. now rewrite Hl.
  - apply Forall_insert; assumption.
Qed.

Lemma slot_dirty_ok_clean e : dirty e = 0 -> slot_dirty_ok e.
Proof.
  intros Hz. unfold slot_dirty_ok. rewrite Hz. split; [lia|]. split; [auto|].
  intros k _. apply Z.bits_0.
Qed.

(** The eviction step, case by case. *)
Lemma getPage_evict_cases w ff v b w1 :
  getPage_evict ff v w = Ok (b, w1) ->
  exists e,
    cacheEntries (the_cache w) !! v = Some e /\
    ((b = true /\ w1 = w /\ (ff = true \/ dirty e = 0)) \/
     (b = true /\
      w1 = put_slot w v (with_dirty e 0) (accessCounter w)
             (snd (writeback_answer w e)) (io_log w ++ [writeback_event w e])) \/
     (b = false /\ the_cache w1 = the_cache w /\ accessCounter w1 = accessCounter w)).
Proof.
  unfold getPage_evict, bind, entry_at.
  destruct (cacheEntries (the_cache w) !! v) as [e|] eqn:He; [|discriminate].
  destruct ff; cbn [negb andb].
  - unfold ret. intros [= <- <-]. exists e. split; [reflexivity|]. left. auto.
  - destruct (Z.eqb_spec (dirty e) 0) as [Hz|Hnz]; cbn [negb].
    + unfold ret. intros [= <- <-]. exists e. split; [reflexivity|]. left. auto.
    + rewrite writeback_eval. destruct (fst (writeback_answer w e));
        intros [= <- <-]; exists e; (split; [reflexivity|]); right; [left|right]; auto.
Qed.

(** A miss that found a FREE slot has it as its victim. *)
Lemma getPage_scan_free_victim es t v :
  getPage_scan es 0 t false 0 UINT_MAX = Miss true v ->
  exists e, es !! v = Some e /\ is_free e = true.
Proof.
  intros Hscan.
  pose proof (getPage_scan_no_hit _ _ _ _ _ _ _ _ Hscan) as Hno.
  destruct (getPage_scan_miss es [] t false 0%nat UINT_MAX Hno)
    as (ff' & v' & oa & Hscan' & Hinv).
  { split; [|now right]. intros j e Hj. rewrite lookup_nil in Hj. discriminate. }
  cbn in Hscan', Hinv. rewrite Hscan in Hscan'. injection Hscan' as <- <-.
  apply Hinv.
Qed.

(** A slot that passes the hit test for a sector of the partition is a
    non-FREE slot whose range holds the sector. *)
Lemma covers_holds e t :
  page_ok spp eop e -> 0 <= t < eop -> covers e t = true ->
  is_free e = false /\ sector e <= t < sector e + count e.
Proof.
  intros Hp Ht Hc. unfold covers in Hc. apply andb_true_iff in Hc.
  destruct Hc as [Hge Hlt]. apply Z.geb_le in Hge. apply Z.ltb_lt in Hlt.
  destruct (is_free e) eqn:Hfree.
  - unfold is_free in Hfree. apply Z.eqb_eq in Hfree.
    unfold CACHE_FREE, wrap64 in Hfree. change (-1 mod 2 ^ 64) with (2 ^ 64 - 1) in Hfree.
    lia.
  - destruct (Hp Hfree) as (Hs & _ & Hcnt).
    rewrite wrap64_small in Hlt by lia. split; [reflexivity|lia].
Qed.

(** [_NTFS_cache_getPage] for a sector of the partition keeps the buffer
    sizes and the dirty bitmaps in order, and the slot it returns holds
    the sector. *)
Lemma getPage_aux w sect numSectors write :
  strong_inv w -> 0 <= sect < eop ->
  wp (_NTFS_cache_getPage sect numSectors write)
     (fun r w' => aux_inv w' /\ holds_sector w' r sect) w.
Proof.
  intros [Hinv Haux] Ht. unfold wp.
  destruct (_NTFS_cache_getPage sect numSectors write w) as [[r w']|] eqn:Hget;
    [|exact I].
  destruct (getPage_scan (cacheEntries (the_cache w)) 0 sect false 0 UINT_MAX)
    as [i|ff v] eqn:Hscan.
  - destruct (getPage_scan_hit _ _ _ _ _ _ _ Hscan) as (e & He & Hc & _).
    rewrite Nat.sub_0_r in He.
    unfold _NTFS_cache_getPage, bind, get_cache in Hget. rewrite Hscan in Hget.
    unfold entry_at, accessTime, set_entry, ret in Hget. rewrite He in Hget.
    injection Hget as <- <-.
    destruct Hinv as (_ & _ & Hall & _).
    pose proof (proj1 (Forall_lookup _ _) Hall i e He) as Hp.
    destruct (covers_holds e sect Hp Ht Hc) as [Hfree Hrange].
    split.
    + apply (aux_inv_put w i e (with_last_access e _)); auto.
      apply (proj1 (Forall_lookup _ _) (proj2 (proj2 (proj2 Haux))) i e He).
    + exists (with_last_access e (wrap32 (accessCounter w + 1))).
      cbn [the_cache cacheEntries set_entries].
      split; [apply list_lookup_insert_eq; eapply lookup_lt_Some, He|]. auto.
  - rewrite (getPage_miss_eval _ _ _ _ _ _ Hscan) in Hget.
    destruct (getPage_evict ff v w) as [[b w1]|] eqn:Hev; [|discriminate].
    destruct (getPage_evict_cases _ _ _ _ _ Hev) as (e & He & Hcases).
    pose proof (proj1 (Forall_lookup _ _) (proj2 (proj2 (proj2 Haux))) v e He) as Hde.
    assert (Hstep : b = true ->
              exists e1, cacheEntries (the_cache w1) !! v = Some e1 /\ dirty e1 = 0 /\
                         aux_inv w1 /\ sectorsPerPage (the_cache w1) = spp /\
                         endOfPartition (the_cache w1) = eop).
    { intros ->. destruct Hinv as (HS & HE & _).
      destruct Hcases as [(_ & -> & Hwhy)|[(_ & ->)|(? & _)]]; [| |discriminate].
      - exists e. split; [exact He|]. split; [|auto].
        destruct Hwhy as [->|Hz]; [|exact Hz].
        destruct (getPage_scan_free_victim _ _ _ Hscan) as (e' & He' & Hfree).
        assert (e' = e) as -> by congruence. now apply Hde.
      - exists (with_dirty e 0). cbn [the_cache cacheEntries set_entries put_slot].
        split; [apply list_lookup_insert_eq; eapply lookup_lt_Some, He|].
        split; [reflexivity|]. split; [|auto].
        apply (aux_inv_put w v e); auto. now apply slot_dirty_ok_clean. }
    destruct b.
    + destruct (Hstep eq_refl) as (e1 & He1 & Hd1 & Haux1 & HS1 & HE1).
      rewrite (getPage_populate_eval w1 v sect numSectors write e1) in Hget;
        [|lia|exact He1].
      rewrite HS1, HE1, Hd1 in Hget.
      pose proof (rebased_page_ok spp eop spp_range32 eop_range sect 0 0 [] Ht) as Hnew.
      assert (Hbase : is_free (mkEntry (page_base spp sect)
                                 (page_count eop spp (page_base spp sect)) 0 0 []) = false).
      { destruct (page_base_spec spp sect ltac:(lia) ltac:(lia)) as (_ & Hb & _).
        unfold is_free. cbn [sector]. apply Z.eqb_neq.
        unfold CACHE_FREE, wrap64. change (-1 mod 2 ^ 64) with (2 ^ 64 - 1). lia. }
      destruct (Hnew Hbase) as (Hs & _ & Hcnt). cbn [sector count] in Hs, Hcnt.
      destruct (page_base_spec spp sect ltac:(lia) ltac:(lia)) as (_ & Hb & Hlt & _).
      assert (Hgood : forall t' buf d' log,
                length buf = length (cache e1) ->
                aux_inv (put_slot w1 v (mkEntry (page_base spp sect)
                                          (page_count eop spp (page_base spp sect))
                                          t' 0 buf) t' d' log) /\
                holds_sector (put_slot w1 v (mkEntry (page_base spp sect)
                                               (page_count eop spp (page_base spp sect))
                                               t' 0 buf) t' d' log) (Some v) sect).
      { intros t' buf d' log Hl. split.
        - apply (aux_inv_put w1 v e1); auto. now apply slot_dirty_ok_clean.
        - eexists. cbn [the_cache cacheEntries set_entries put_slot].
          split; [apply list_lookup_insert_eq; eapply lookup_lt_Some, He1|].
          split; [exact Hbase|]. cbn [sector count]. lia. }
      destruct (read_window write _ _ _) as [[sec secs]|].
      * cbv zeta in Hget.
        destruct (read_answer w1 _ secs) as [[[] data] d']; injection Hget as <- <-.
        -- apply Hgood. apply blit_length.
        -- split; [|exact I]. apply (aux_inv_put w1 v e1); auto.
           ++ apply blit_length.
           ++ now apply slot_dirty_ok_clean.
      * injection Hget as <- <-. now apply Hgood.
    + injection Hget as <- <-. split; [|exact I].
      destruct Hcases as [(? & _)|[(? & _)|(_ & Hc & _)]]; try discriminate.
      eapply aux_inv_same_cache; eassumption.
Qed.

(** Both parts of the invariant, and the slot returned. *)
Lemma getPage_strong w sect numSectors write :
  strong_inv w -> 0 <= sect < eop ->
  wp (_NTFS_cache_getPage sect numSectors write)
     (fun r w' => strong_inv w' /\ holds_sector w' r sect) w.
Proof.
  intros Hs Ht.
  pose proof (getPage_inv spp eop spp_range32 eop_range w sect numSectors write
                (proj1 Hs) Ht) as H1.
  pose proof (getPage_aux w sect numSectors write Hs Ht) as H2.
  unfold wp in *. destruct (_NTFS_cache_getPage sect numSectors write w) as [[r w']|];
    [|exact I].
  destruct H2 as [Ha Hh]. split; [split; assumption|assumption].
Qed.

(** The mask of a partial write is the bit of the sector. *)
Lemma shl64_one (sec mask : Z) :
  shl64 1 sec = Some mask -> 0 <= sec < 64 /\ mask = 2 ^ sec.
Proof.
  unfold shl64. destruct (Z.leb_spec 0 sec); cbn [andb]; [|discriminate].
  destruct (Z.ltb_spec sec 64); [|discriminate]. intros [= <-].
  split; [lia|]. rewrite Z.shiftl_1_l. apply wrap64_small.
  split; [apply Z.pow_nonneg; lia|apply Z.pow_lt_mono_r; lia].
Qed.

(** The mask of a bulk write, when the shifts are defined, has no bit at
    or beyond the end of the sectors written. *)
Lemma dirty_mask_some (secs sec mask : Z) :
  dirty_mask secs sec = Some mask ->
  1 <= secs -> 0 <= sec -> sec + secs <= 64 ->
  0 <= mask /\ forall k, sec + secs <= k -> Z.testbit mask k = false.
Proof.
  intros Hm Hs Hl Hls.
  destruct (Z.lt_ge_cases secs 64) as [Hlt|Hge].
  - destruct (dirty_mask_run secs sec ltac:(lia) Hl Hls) as (m & Hm' & Hr & Hbits).
    rewrite Hm in Hm'. injection Hm' as <-. split; [lia|].
    intros k Hk. rewrite Hbits by lia.
    apply andb_false_iff. right. apply Z.ltb_ge. lia.
  - unfold dirty_mask, shl64 in Hm.
    destruct (Z.ltb_spec secs 64); [lia|].
    rewrite andb_false_r in Hm. discriminate.
Qed.

(** [entry->dirty |= mask] with a mask inside the page keeps the
    invariant. *)
Lemma mark_dirty_strong w i entry page mask :
  strong_inv w -> cacheEntries (the_cache w) !! i = Some entry ->
  is_free entry = false ->
  length page = length (cache entry) ->
  0 <= mask -> (forall k, count entry <= k -> Z.testbit mask k = false) ->
  wp (mark_dirty i entry page mask) (fun _ w' => strong_inv w') w.
Proof.
  intros [Hinv Haux] He Hfree Hl Hm Hbits. split.
  - apply (mark_dirty_inv spp eop w i entry page mask Hinv He).
  - unfold mark_dirty, set_entry.
    apply (aux_inv_put w i entry); auto.
    destruct (proj1 (Forall_lookup _ _) (proj2 (proj2 (proj2 Haux))) i entry He) as (Hd0 & _ & Hd).
    unfold slot_dirty_ok. cbn [dirty count]. change (is_free (mkEntry _ _ _ _ _))
      with (is_free entry). split; [now apply Z.lor_nonneg|]. split; [congruence|].
    intros k Hk. rewrite Z.lor_spec, Hd, Hbits by assumption. reflexivity.
Qed.

(** The page-local sector of a sector held by a slot. *)
Lemma local_sector entry sect :
  page_ok spp eop entry -> is_free entry = false ->
  sector entry <= sect < sector entry + count entry ->
  wrap64 (sect - sector entry) = sect - sector entry /\
  0 <= sect - sector entry < count entry /\ count entry <= 64 /\
  wrap64 (count entry - (sect - sector entry)) = count entry - (sect - sector entry).
Proof.
  intros Hp Hfree Hr. destruct (Hp Hfree) as (Hs & _ & Hc).
  rewrite !wrap64_small by lia. lia.
Qed.

Lemma readSectors_loop_strong fuel : forall sect numSectors dest off mem w,
  strong_inv w -> 0 <= sect -> 0 <= numSectors -> sect + numSectors <= eop ->
  wp (readSectors_loop fuel sect numSectors dest off mem) (fun _ w' => strong_inv w') w.
Proof.
  induction fuel as [|fuel IH]; intros sect numSectors dest off mem w Hinv Ht Hn Hend;
    cbn [readSectors_loop];
    (destruct (Z.eqb_spec numSectors 0) as [|Hnz]; [exact Hinv|]); [exact I|].
  apply wp_bind. unfold wp at 1, get_cache.
  apply wp_bind. unfold wp at 1.
  destruct (bypass_probe sect numSectors (dest + off) w) as [[m w0]|] eqn:Hprobe;
    [|exact I].
  destruct (bypass_probe_bound spp eop spp_range32 eop_range _ _ _ _ _ _
              (proj1 Hinv) Ht Hn Hend Hprobe) as [-> Hm].
  destruct (m >? 0).
  - apply wp_bind. unfold wp at 1, dev_read.
    destruct (readSectors _ _ _ _) as [[ok data] d']. cbn [fst snd].
    destruct ok; [|exact Hinv].
    rewrite (wrap64_small (sect + m)), (wrap64_small (numSectors - m)) by lia.
    apply IH; [exact Hinv|lia|lia|lia].
  - apply wp_bind.
    eapply wp_mono; [|apply (getPage_strong w sect numSectors false Hinv); lia].
    intros [i|] w2 [Hinv2 _]; [|exact Hinv2].
    apply wp_bind. unfold wp at 1, entry_at.
    destruct (cacheEntries (the_cache w2) !! i) as [entry|]; [|exact I].
    pose proof (cached_step_bound (count entry) (wrap64 (sect - sector entry))
                  numSectors Hn) as Hb. cbv zeta in Hb.
    remember (if wrap64 (count entry - wrap64 (sect - sector entry)) >? numSectors
              then numSectors
              else wrap64 (count entry - wrap64 (sect - sector entry))) as secs.
    rewrite (wrap64_small (sect + secs)), (wrap64_small (numSectors - secs)) by lia.
    apply IH; [exact Hinv2|lia|lia|lia].
Qed.

Lemma writeSectors_loop_strong fuel : forall sect numSectors src off mem w,
  strong_inv w -> 0 <= sect -> 0 <= numSectors -> sect + numSectors <= eop ->
  wp (writeSectors_loop fuel sect numSectors src off mem) (fun _ w' => strong_inv w') w.
Proof.
  induction fuel as [|fuel IH]; intros sect numSectors src off mem w Hinv Ht Hn Hend;
    cbn [writeSectors_loop];
    (destruct (Z.eqb_spec numSectors 0) as [|Hnz]; [exact Hinv|]); [exact I|].
  apply wp_bind. unfold wp at 1, get_cache.
  apply wp_bind. unfold wp at 1.
  destruct (bypass_probe sect numSectors (src + off) w) as [[m w0]|] eqn:Hprobe;
    [|exact I].
  destruct (bypass_probe_bound spp eop spp_range32 eop_range _ _ _ _ _ _
              (proj1 Hinv) Ht Hn Hend Hprobe) as [-> Hm].
  destruct (m >? 0).
  - apply wp_bind. unfold wp at 1, dev_write.
    destruct (writeSectors _ _ _ _ _) as [ok d'].
    destruct ok; [|exact Hinv].
    rewrite (wrap64_small (sect + m)), (wrap64_small (numSectors - m)) by lia.
    apply IH; [exact Hinv|lia|lia|lia].
  - apply wp_bind.
    eapply wp_mono; [|apply (getPage_strong w sect numSectors true Hinv); lia].
    intros [i|] w2 [Hinv2 Hhold]; [|exact Hinv2].
    destruct Hhold as (entry & He & Hfree & Hrange).
    apply wp_bind. unfold wp at 1, entry_at. rewrite He.
    destruct Hinv2 as [Hc2 Ha2]. pose proof Hc2 as (_ & _ & Hall & _).
    pose proof (proj1 (Forall_lookup _ _) Hall i entry He) as Hp.
    destruct (local_sector entry sect Hp Hfree Hrange) as (-> & Hsec & Hc64 & ->).
    remember (if count entry - (sect - sector entry) >? numSectors
              then numSectors else count entry - (sect - sector entry)) as secs.
    assert (Hsecs : 1 <= secs <= numSectors /\ sect - sector entry + secs <= count entry).
    { subst secs. destruct (Z.gtb_spec (count entry - (sect - sector entry)) numSectors); lia. }
    destruct (dirty_mask secs (sect - sector entry)) as [mask|] eqn:Hmask; [|exact I].
    destruct (dirty_mask_some _ _ _ Hmask) as [Hm0 Hmbits]; [lia|lia|lia|].
    apply wp_bind.
    eapply wp_mono;
      [|apply (mark_dirty_strong w2 i entry _ mask (conj Hc2 Ha2) He Hfree)].
    + intros u w3 Hinv3.
      rewrite (wrap64_small (sect + secs)), (wrap64_small (numSectors - secs)) by lia.
      apply IH; [exact Hinv3|lia|lia|lia].
    + apply blit_length.
    + exact Hm0.
    + intros k Hk. apply Hmbits. lia.
Qed.

Lemma readPartialSector_strong w buf sect offset size :
  strong_inv w -> 0 <= sect < eop ->
  wp (_NTFS_cache_readPartialSector buf sect offset size) (fun _ w' => strong_inv w') w.
Proof.
  intros Hinv Ht. unfold _NTFS_cache_readPartialSector.
  apply wp_bind. unfold wp at 1, get_cache.
  destruct (partial_out_of_sector (the_cache w) offset size); [exact Hinv|].
  apply wp_bind. eapply wp_mono; [|apply (getPage_strong w sect 1 false Hinv Ht)].
  intros [i|] w2 [Hinv2 _]; [|exact Hinv2].
  apply wp_bind. unfold wp at 1, entry_at.
  destruct (cacheEntries (the_cache w2) !! i); [exact Hinv2|exact I].
Qed.

(** The tail shared by the two partial writes: mark the sector dirty. *)
Lemma partial_mark_strong w i entry sect page :
  strong_inv w -> cacheEntries (the_cache w) !! i = Some entry ->
  is_free entry = false -> sector entry <= sect < sector entry + count entry ->
  length page = length (cache entry) ->
  wp (match shl64 1 (wrap64 (sect - sector entry)) with
      | None => undefined
      | Some mask => mark_dirty i entry page mask ;;; ret true
      end) (fun _ w' => strong_inv w') w.
Proof.
  intros Hinv He Hfree Hrange Hl.
  pose proof (proj1 Hinv) as (_ & _ & Hall & _).
  pose proof (proj1 (Forall_lookup _ _) Hall i entry He) as Hp.
  destruct (local_sector entry sect Hp Hfree Hrange) as (-> & Hsec & _ & _).
  destruct (shl64 1 (sect - sector entry)) as [mask|] eqn:Hmask; [|exact I].
  destruct (shl64_one _ _ Hmask) as [_ ->].
  apply wp_bind.
  eapply wp_mono; [|apply (mark_dirty_strong w i entry page _ Hinv He Hfree Hl)].
  - intros u w3 Hinv3. exact Hinv3.
  - apply Z.pow_nonneg. lia.
  - intros k Hk. apply Z.pow2_bits_false. lia.
Qed.

Lemma writePartialSector_strong w buf sect offset size :
  strong_inv w -> 0 <= sect < eop ->
  wp (_NTFS_cache_writePartialSector buf sect offset size) (fun _ w' => strong_inv w') w.
Proof.
  intros Hinv Ht. unfold _NTFS_cache_writePartialSector.
  apply wp_bind. unfold wp at 1, get_cache.
  destruct (partial_out_of_sector (the_cache w) offset size); [exact Hinv|].
  apply wp_bind. eapply wp_mono; [|apply (getPage_strong w sect 1 false Hinv Ht)].
  intros [i|] w2 [Hinv2 Hhold]; [|exact Hinv2].
  destruct Hhold as (entry & He & Hfree & Hrange).
  apply wp_bind. unfold wp at 1, entry_at. rewrite He.
  apply (partial_mark_strong w2 i entry sect); auto. apply blit_length.
Qed.

Lemma eraseWritePartialSector_strong w buf sect offset size :
  strong_inv w -> 0 <= sect < eop ->
  wp (_NTFS_cache_eraseWritePartialSector buf sect offset size)
     (fun _ w' => strong_inv w') w.
Proof.
  intros Hinv Ht. unfold _NTFS_cache_eraseWritePartialSector.
  apply wp_bind. unfold wp at 1, get_cache.
  destruct (partial_out_of_sector (the_cache w) offset size); [exact Hinv|].
  apply wp_bind. eapply wp_mono; [|apply (getPage_strong w sect 1 true Hinv Ht)].
  intros [i|] w2 [Hinv2 Hhold]; [|exact Hinv2].
  destruct Hhold as (entry & He & Hfree & Hrange).
  apply wp_bind. unfold wp at 1, entry_at. rewrite He.
  apply (partial_mark_strong w2 i entry sect); auto. now rewrite !blit_length.
Qed.

Lemma readLittleEndianValue_strong w value sect offset num_bytes :
  strong_inv w -> 0 <= sect < eop ->
  wp (_NTFS_cache_readLittleEndianValue value sect offset num_bytes)
     (fun _ w' => strong_inv w') w.
Proof.
  intros Hinv Ht. unfold _NTFS_cache_readLittleEndianValue.
  apply wp_bind. eapply wp_mono; [|apply readPartialSector_strong; assumption].
  intros [ok buf] w2 Hinv2. cbn [fst snd].
  destruct ok; cbn [negb]; [|exact Hinv2].
  destruct (wrap32 num_bytes >? 4); [exact I|].
  destruct (num_bytes =? 1); [exact Hinv2|].
  destruct (num_bytes =? 2); [exact Hinv2|].
  destruct (num_bytes =? 4); exact Hinv2.
Qed.

Lemma writeLittleEndianValue_strong w value sect offset size :
  strong_inv w -> 0 <= sect < eop ->
  wp (_NTFS_cache_writeLittleEndianValue value sect offset size)
     (fun _ w' => strong_inv w') w.
Proof.
  intros Hinv Ht. unfold _NTFS_cache_writeLittleEndianValue.
  destruct (size =? 1); [apply writePartialSector_strong; assumption|].
  destruct (size =? 2); [apply writePartialSector_strong; assumption|].
  destruct (size =? 4); [apply writePartialSector_strong; assumption|exact Hinv].
Qed.

Lemma flush_from_strong k : forall i w,
  strong_inv w -> wp (flush_from k i) (fun _ w' => strong_inv w') w.
Proof.
  induction k as [|k IH]; intros i w Hinv; cbn [flush_from]; [exact Hinv|].
  apply wp_bind. unfold wp at 1, entry_at.
  destruct (cacheEntries (the_cache w) !! i) as [e|] eqn:He; [|exact I].
  destruct (dirty e =? 0); [now apply IH|].
  apply wp_bind. unfold wp at 1. rewrite writeback_eval.
  destruct (fst (writeback_answer w e)).
  - apply IH. destruct Hinv as [Hc Ha]. split.
    + apply (cache_inv_put spp eop w i (with_dirty e 0)); [exact Hc|].
      apply (table_ok_touch spp eop _ i e); auto. apply Hc.
    + apply (aux_inv_put w i e); auto. now apply slot_dirty_ok_clean.
  - destruct Hinv as [Hc Ha]. split.
    + eapply cache_inv_same_cache; [|exact Hc]. reflexivity.
    + eapply aux_inv_same_cache; [|exact Ha]. reflexivity.
Qed.

Lemma flush_strong w :
  strong_inv w -> wp _NTFS_cache_flush (fun _ w' => strong_inv w') w.
Proof.
  intros Hinv. unfold _NTFS_cache_flush. apply wp_bind. unfold wp at 1, get_cache.
  now apply flush_from_strong.
Qed.

Lemma invalidate_strong w :
  strong_inv w -> wp _NTFS_cache_invalidate (fun _ w' => strong_inv w') w.
Proof.
  intros Hinv. unfold _NTFS_cache_invalidate. apply wp_bind.
  eapply wp_mono; [|apply flush_strong; exact Hinv].
  intros b w1 [(HS & HE & _) (HB & Hne & Hlen & _)]. unfold wp.
  unfold strong_inv, cache_inv, aux_inv.
  cbn [the_cache cacheEntries set_entries sectorsPerPage endOfPartition bytesPerSector].
  split; [|split; [exact HB|split; [|split]]].
  - split; [exact HS|]. split; [exact HE|].
    apply table_ok_all_free. apply Forall_fmap, Forall_forall. reflexivity.
  - intros Hnil. apply Hne. now apply map_eq_nil in Hnil.
  - rewrite <- Hlen, map_map. reflexivity.
  - apply Forall_fmap, Forall_forall. intros e _. now apply slot_dirty_ok_clean.
Qed.

Lemma run_strong w (o : access_op) :
  strong_inv w -> in_partition eop o ->
  wp (run o) (fun _ w' => strong_inv w') w.
Proof.
  intros Hinv Hin.
  destruct o; cbn [run in_partition] in *.
  - destruct Hin as (H0 & H1 & H2). apply wp_bind.
    eapply wp_mono; [|apply readSectors_loop_strong; assumption]. auto.
  - destruct Hin as (H0 & H1 & H2). apply wp_bind.
    eapply wp_mono; [|apply writeSectors_loop_strong; assumption]. auto.
  - apply wp_bind. eapply wp_mono; [|apply readPartialSector_strong; assumption]. auto.
  - apply wp_bind. eapply wp_mono; [|apply readLittleEndianValue_strong; assumption]. auto.
  - apply wp_bind. eapply wp_mono; [|apply writePartialSector_strong; assumption]. auto.
  - apply wp_bind. eapply wp_mono; [|apply writeLittleEndianValue_strong; assumption]. auto.
  - apply wp_bind. eapply wp_mono; [|apply eraseWritePartialSector_strong; assumption]. auto.
  - apply wp_bind. eapply wp_mono; [|apply flush_strong; assumption]. auto.
  - apply invalidate_strong; assumption.
Qed.

Lemma strong_inv_same_cache w w' :
  the_cache w' = the_cache w -> strong_inv w -> strong_inv w'.
Proof.
  intros Hc [H1 H2]. split.
  - eapply cache_inv_same_cache; eassumption.
  - eapply aux_inv_same_cache; eassumption.
Qed.

(** The probe always returns when the page size is not zero. *)
Lemma bypass_probe_returns w sect numSectors ptr :
  sectorsPerPage (the_cache w) <> 0 ->
  exists m, bypass_probe sect numSectors ptr w = Ok (m, w).
Proof.
  intros HS. unfold bypass_probe, bind, get_cache, ret, undefined, entry_at.
  destruct (ptr mod 32 =? 0); [|eauto].
  destruct (Z.eqb_spec (sectorsPerPage (the_cache w)) 0) as [|_]; [contradiction|].
  destruct (sect mod sectorsPerPage (the_cache w) =? 0); [|eauto].
  unfold _NTFS_cache_findPage.
  destruct (findPage_scan _ _ _ _ _ _) as [i|] eqn:Hfind; [|eauto].
  destruct (findPage_scan_some _ _ _ _ _ _ _ Hfind) as [?|(e & He & _)]; [discriminate|].
  rewrite Nat.sub_0_r in He. rewrite He. destruct (sector e >? sect); eauto.
Qed.

(** [_NTFS_cache_getPage] returns, with the invariant and a slot that
    holds the sector. *)
Lemma getPage_strong_returns w sect numSectors write :
  strong_inv w -> 0 <= sect < eop ->
  exists r w',
    _NTFS_cache_getPage sect numSectors write w = Ok (r, w') /\
    strong_inv w' /\ holds_sector w' r sect.
Proof.
  intros Hinv Ht.
  destruct (getPage_total w sect numSectors write) as (r & w' & _ & Hget & _).
  { apply Hinv. }
  { destruct Hinv as [(HS & _) _]. lia. }
  exists r, w'. split; [exact Hget|].
  exact (wp_ok _ _ _ _ _ (getPage_strong w sect numSectors write Hinv Ht) Hget).
Qed.

(** With one unit of fuel per sector, the loop of
    [_NTFS_cache_readSectors] over a range of the partition runs to its
    end. *)
Lemma readSectors_loop_returns fuel : forall sect numSectors dest off mem w,
  strong_inv w -> 0 <= sect -> 0 <= numSectors -> sect + numSectors <= eop ->
  (Z.to_nat numSectors <= fuel)%nat ->
  exists r w',
    readSectors_loop fuel sect numSectors dest off mem w = Ok (r, w') /\ strong_inv w'.
Proof.
  induction fuel as [|fuel IH]; intros sect numSectors dest off mem w Hinv Ht Hn Hend Hfuel;
    cbn [readSectors_loop];
    (destruct (Z.eqb_spec numSectors 0) as [|Hnz]; [unfold ret; eauto|]); [lia|].
  assert (HS : sectorsPerPage (the_cache w) <> 0)
    by (destruct Hinv as [(HS & _) _]; lia).
  destruct (bypass_probe_returns w sect numSectors (dest + off) HS) as [m Hprobe].
  destruct (bypass_probe_bound spp eop spp_range32 eop_range _ _ _ _ _ _
              (proj1 Hinv) Ht Hn Hend Hprobe) as [_ Hm].
  unfold bind at 1, get_cache. unfold bind at 1. rewrite Hprobe.
  destruct (Z.gtb_spec m 0) as [Hpos|Hzero].
  - unfold bind at 1, dev_read.
    destruct (readSectors _ _ _ _) as [[ok data] d']. cbn [fst snd].
    destruct ok; [|unfold ret; eauto].
    rewrite (wrap64_small (sect + m)), (wrap64_small (numSectors - m)) by lia.
    apply IH; [|lia|lia|lia|lia].
    eapply strong_inv_same_cache; [|exact Hinv]. reflexivity.
  - destruct (getPage_strong_returns w sect numSectors false Hinv ltac:(lia))
      as (r & w2 & Hget & Hinv2 & Hhold).
    unfold bind at 1. rewrite Hget. destruct r as [i|]; [|unfold ret; eauto].
    destruct Hhold as (entry & He & Hfree & Hrange).
    unfold bind at 1, entry_at. rewrite He.
    pose proof (proj1 Hinv2) as (_ & _ & Hall & _).
    pose proof (proj1 (Forall_lookup _ _) Hall i entry He) as Hp.
    destruct (local_sector entry sect Hp Hfree Hrange) as (-> & Hsec & Hc64 & ->).
    remember (if count entry - (sect - sector entry) >? numSectors
              then numSectors else count entry - (sect - sector entry)) as secs.
    assert (Hsecs : 1 <= secs <= numSectors).
    { subst secs. destruct (Z.gtb_spec (count entry - (sect - sector entry)) numSectors); lia. }
    rewrite (wrap64_small (sect + secs)), (wrap64_small (numSectors - secs)) by lia.
    apply IH; [exact Hinv2|lia|lia|lia|lia].
Qed.

(** The same for [_NTFS_cache_writeSectors] when a page has fewer than 64
    sectors, so that no dirty mask needs a shift by 64. *)
Lemma writeSectors_loop_returns fuel : forall sect numSectors src off mem w,
  spp < 64 ->
  strong_inv w -> 0 <= sect -> 0 <= numSectors -> sect + numSectors <= eop ->
  (Z.to_nat numSectors <= fuel)%nat ->
  exists r w',
    writeSectors_loop fuel sect numSectors src off mem w = Ok (r, w') /\ strong_inv w'.
Proof.
  induction fuel as [|fuel IH];
    intros sect numSectors src off mem w H64 Hinv Ht Hn Hend Hfuel;
    cbn [writeSectors_loop];
    (destruct (Z.eqb_spec numSectors 0) as [|Hnz]; [unfold ret; eauto|]); [lia|].
  assert (HS : sectorsPerPage (the_cache w) <> 0)
    by (destruct Hinv as [(HS & _) _]; lia).
  destruct (bypass_probe_returns w sect numSectors (src + off) HS) as [m Hprobe].
  destruct (bypass_probe_bound spp eop spp_range32 eop_range _ _ _ _ _ _
              (proj1 Hinv) Ht Hn Hend Hprobe) as [_ Hm].
  unfold bind at 1, get_cache. unfold bind at 1. rewrite Hprobe.
  destruct (Z.gtb_spec m 0) as [Hpos|Hzero].
  - unfold bind at 1, dev_write.
    destruct (writeSectors _ _ _ _ _) as [ok d'].
    destruct ok; [|unfold ret; eauto].
    rewrite (wrap64_small (sect + m)), (wrap64_small (numSectors - m)) by lia.
    apply IH; [exact H64| |lia|lia|lia|lia].
    eapply strong_inv_same_cache; [|exact Hinv]. reflexivity.
  - destruct (getPage_strong_returns w sect numSectors true Hinv ltac:(lia))
      as (r & w2 & Hget & Hinv2 & Hhold).
    unfold bind at 1. rewrite Hget. destruct r as [i|]; [|unfold ret; eauto].
    destruct Hhold as (entry & He & Hfree & Hrange).
    unfold bind at 1, entry_at. rewrite He.
    pose proof (proj1 Hinv2) as (_ & _ & Hall & _).
    pose proof (proj1 (Forall_lookup _ _) Hall i entry He) as Hp.
    destruct (local_sector entry sect Hp Hfree Hrange) as (-> & Hsec & Hc64 & ->).
    assert (Hcs : count entry <= spp) by (destruct (Hp Hfree) as (_ & _ & ->); lia).
    remember (if count entry - (sect - sector entry) >? numSectors
              then numSectors else count entry - (sect - sector entry)) as secs.
    assert (Hsecs : 1 <= secs <= numSectors /\ sect - sector entry + secs <= count entry).
    { subst secs. destruct (Z.gtb_spec (count entry - (sect - sector entry)) numSectors); lia. }
    destruct (dirty_mask_run secs (sect - sector entry)) as (mask & Hmask & Hm0 & Hbits);
      [lia|lia|lia|].
    rewrite Hmask.
    set (page := blit (cache entry) _ _).
    pose proof (mark_dirty_strong w2 i entry page mask Hinv2 He Hfree) as Hmark.
    unfold wp, mark_dirty, set_entry in Hmark.
    unfold bind at 1, mark_dirty, set_entry.
    rewrite (wrap64_small (sect + secs)), (wrap64_small (numSectors - secs)) by lia.
    apply IH; [exact H64| |lia|lia|lia|lia].
    apply Hmark; [apply blit_length|lia|].
    intros k Hk. rewrite Hbits by lia.
    apply andb_false_iff. right. apply Z.ltb_ge. lia.
Qed.

(** Two non-FREE slots of the table that hold the same sector are the
    same slot. *)
Lemma holds_unique es i j ei ej t :
  table_ok spp eop es ->
  es !! i = Some ei -> es !! j = Some ej ->
  is_free ei = false -> is_free ej = false ->
  sector ei <= t < sector ei + count ei ->
  sector ej <= t < sector ej + count ej ->
  i = j.
Proof.
  intros [Hall Huniq] Hi Hj Hfi Hfj Hri Hrj.
  apply (Huniq i j ei ej Hi Hj Hfi Hfj).
  destruct (proj1 (Forall_lookup _ _) Hall i ei Hi Hfi) as (Hsi & Hmi & Hci).
  destruct (proj1 (Forall_lookup _ _) Hall j ej Hj Hfj) as (Hsj & Hmj & Hcj).
  apply Z.mod_divide in Hmi, Hmj; try lia.
  destruct Hmi as [a Ha], Hmj as [b Hb]. rewrite Ha, Hb in *.
  assert (a = b) by nia. now subst.
Qed.

(** Once a sector of a resident page has been stored into and marked
    dirty, a partial read of that sector is a hit on the same slot: it
    returns the bytes of the stored page, with no device call. *)
Lemma stored_then_read w' i entry page mask u w1 buf0 sect offset size :
  strong_inv w' ->
  0 <= bps < 2 ^ 32 -> 0 <= sect < eop ->
  0 <= offset -> 0 <= size -> offset + size <= bps ->
  cacheEntries (the_cache w') !! i = Some entry ->
  is_free entry = false ->
  sector entry <= sect < sector entry + count entry ->
  length page = length (cache entry) ->
  shl64 1 (sect - sector entry) = Some mask ->
  mark_dirty i entry page mask w' = Ok (u, w1) ->
  exists w2,
    _NTFS_cache_readPartialSector buf0 sect offset size w1
    = Ok ((true, blit buf0 0 (slice page ((sect - sector entry) * bps + offset) size)), w2) /\
    io_log w2 = io_log w1 /\ medium w2 = medium w1 /\
    accessCounter w2 = wrap32 (accessCounter w1 + 1).
Proof.
  intros Hinv' HB Ht Hoff Hsize Hfit He Hfree Hrange Hpage Hmask Hstore.
  pose proof (proj1 Hinv') as (_ & _ & Hall & _).
  pose proof (proj1 (Forall_lookup _ _) Hall i entry He) as Hp.
  destruct (local_sector entry sect Hp Hfree Hrange) as (Hloc & Hsec & _ & _).
  destruct (shl64_one _ _ Hmask) as [_ Hmaskv].
  pose proof (mark_dirty_strong w' i entry page mask Hinv' He Hfree) as Hmark.
  unfold wp, mark_dirty, set_entry in Hmark.
  unfold mark_dirty, set_entry in Hstore. injection Hstore as _ <-.
  match type of Hmark with _ -> _ -> _ -> strong_inv ?x => set (w1 := x) in * end.
  assert (Hinv1 : strong_inv w1).
  { apply Hmark; [exact Hpage|subst mask; apply Z.pow_nonneg; lia|].
    intros k Hk. subst mask. apply Z.pow2_bits_false. lia. }
  set (entry1 := mkEntry (sector entry) (count entry) (last_access entry)
                         (Z.lor (dirty entry) mask) page).
  assert (He1 : cacheEntries (the_cache w1) !! i = Some entry1).
  { subst w1. cbn [the_cache cacheEntries set_entries].
    apply list_lookup_insert_eq. eapply lookup_lt_Some, He. }
  assert (Hc1 : covers entry1 sect = true).
  { destruct (Hp Hfree) as (Hs & _ & Hc). unfold covers. cbn [sector count entry1].
    rewrite wrap64_small by lia.
    apply andb_true_iff. split; [apply Z.geb_le|apply Z.ltb_lt]; lia. }
  assert (Hfirst : forall j ej, (j < i)%nat -> cacheEntries (the_cache w1) !! j = Some ej ->
                      covers ej sect = false).
  { intros j ej Hj Hej. destruct (covers ej sect) eqn:Hc; [|reflexivity]. exfalso.
    pose proof (proj1 Hinv1) as (_ & _ & Htab1).
    pose proof (proj1 (Forall_lookup _ _) (proj1 Htab1) j ej Hej) as Hpj.
    destruct (covers_holds ej sect Hpj Ht Hc) as [Hfj Hrj].
    assert (j = i); [|lia].
    apply (holds_unique _ j i ej entry1 sect Htab1 Hej He1 Hfj Hfree Hrj Hrange). }
  pose proof (getPage_first_cover w1 sect 1 false i entry1 He1 Hc1 Hfirst) as Hhit.
  cbv zeta in Hhit.
  assert (HB1 : bytesPerSector (the_cache w1) = bps) by apply Hinv1.
  unfold _NTFS_cache_readPartialSector, bind at 1, get_cache.
  assert (Hcheck : partial_out_of_sector (the_cache w1) offset size = false).
  { unfold partial_out_of_sector. rewrite HB1, wrap32_small by lia.
    destruct (Z.gtb_spec (offset + size) bps); [lia|reflexivity]. }
  rewrite Hcheck.
  unfold bind at 1. rewrite Hhit.
  unfold bind, entry_at, put_slot. cbn [the_cache cacheEntries set_entries].
  rewrite list_lookup_insert_eq by (eapply lookup_lt_Some, He1).
  cbn [sector cache with_last_access entry1].
  rewrite Hloc, HB1. unfold ret.
  eexists. split; [reflexivity|]. repeat split.
Qed.

(** A partial write that succeeded is read back by a partial read of the
    same bytes, from the cache alone. *)
Lemma write_then_read w buf buf0 sect offset size w1 :
  strong_inv w ->
  Forall (fun l => (Z.to_nat (spp * bps) <= l)%nat) lens ->
  0 <= bps < 2 ^ 32 -> 0 <= sect < eop ->
  0 <= offset -> 0 <= size -> offset + size <= bps ->
  (Z.to_nat size <= length buf)%nat ->
  _NTFS_cache_writePartialSector buf sect offset size w = Ok (true, w1) ->
  exists w2,
    _NTFS_cache_readPartialSector buf0 sect offset size w1
    = Ok ((true, blit buf0 0 (take (Z.to_nat size) buf)), w2) /\
    io_log w2 = io_log w1 /\ medium w2 = medium w1 /\
    accessCounter w2 = wrap32 (accessCounter w1 + 1).
Proof.
  intros Hinv Hlens HB Ht Hoff Hsize Hfit Hbuf Hwrite.
  assert (HBw : bytesPerSector (the_cache w) = bps) by apply Hinv.
  unfold _NTFS_cache_writePartialSector, bind at 1, get_cache in Hwrite.
  assert (Hcheck : partial_out_of_sector (the_cache w) offset size = false).
  { unfold partial_out_of_sector. rewrite HBw, wrap32_small by lia.
    destruct (Z.gtb_spec (offset + size) bps); [lia|reflexivity]. }
  rewrite Hcheck in Hwrite.
  destruct (getPage_strong_returns w sect 1 false Hinv Ht)
    as (r & w' & Hget & Hinv' & Hhold).
  unfold bind at 1 in Hwrite. rewrite Hget in Hwrite.
  destruct r as [i|]; [|discriminate].
  destruct Hhold as (entry & He & Hfree & Hrange).
  unfold bind at 1, entry_at in Hwrite. rewrite He in Hwrite.
  pose proof (proj1 Hinv') as (_ & _ & Hall & _).
  pose proof (proj1 (Forall_lookup _ _) Hall i entry He) as Hp.
  destruct (local_sector entry sect Hp Hfree Hrange) as (Hloc & Hsec & _ & _).
  rewrite Hloc, HBw in Hwrite.
  destruct (shl64 1 (sect - sector entry)) as [mask|] eqn:Hmask; [|discriminate].
  set (page := blit (cache entry) _ _) in Hwrite.
  unfold bind at 1 in Hwrite.
  destruct (mark_dirty i entry page mask w') as [[u wm]|] eqn:Hstore; [|discriminate].
  unfold ret in Hwrite. injection Hwrite as <-.
  destruct (stored_then_read w' i entry page mask u wm buf0 sect offset size)
    as (w2 & Hread & Hrest); auto; [apply blit_length|].
  exists w2. split; [|exact Hrest]. rewrite Hread. do 4 f_equal.
  subst page.
  set (off := (sect - sector entry) * bps + offset).
  assert (Hoff0 : 0 <= off) by (subst off; nia).
  assert (Hsrc : Z.of_nat (length (take (Z.to_nat size) buf)) = size)
    by (rewrite length_take; lia).
  assert (Hbufi : (Z.to_nat (spp * bps) <= length (cache entry))%nat).
  { destruct Hinv' as [_ (_ & _ & Hl & _)].
    apply (proj1 (Forall_lookup _ _) Hlens i). rewrite <- Hl.
    rewrite list_lookup_fmap, He. reflexivity. }
  assert (Hcs : count entry <= spp) by (destruct (Hp Hfree) as (_ & _ & ->); lia).
  pose proof (slice_blit (cache entry) (Z.to_nat off) (take (Z.to_nat size) buf)) as Hsb.
  rewrite Z2Nat.id, Hsrc in Hsb by exact Hoff0. apply Hsb.
  rewrite length_take. subst off. nia.
Qed.

(** A sector written with [_NTFS_cache_eraseWritePartialSector] reads
    back as zeros around the bytes written. *)
Lemma erase_then_read w buf buf0 sect offset size w1 :
  strong_inv w ->
  Forall (fun l => (Z.to_nat (spp * bps) <= l)%nat) lens ->
  0 <= bps < 2 ^ 32 -> 0 <= sect < eop ->
  0 <= offset -> 0 <= size -> offset + size <= bps ->
  (Z.to_nat size <= length buf)%nat ->
  _NTFS_cache_eraseWritePartialSector buf sect offset size w = Ok (true, w1) ->
  exists w2,
    _NTFS_cache_readPartialSector buf0 sect 0 bps w1
    = Ok ((true, blit buf0 0 (repeat x00 (Z.to_nat offset) ++ take (Z.to_nat size) buf
                              ++ repeat x00 (Z.to_nat (bps - offset - size)))), w2) /\
    io_log w2 = io_log w1 /\ medium w2 = medium w1 /\
    accessCounter w2 = wrap32 (accessCounter w1 + 1).
Proof.
  intros Hinv Hlens HB Ht Hoff Hsize Hfit Hbuf Hwrite.
  assert (HBw : bytesPerSector (the_cache w) = bps) by apply Hinv.
  unfold _NTFS_cache_eraseWritePartialSector, bind at 1, get_cache in Hwrite.
  assert (Hcheck : partial_out_of_sector (the_cache w) offset size = false).
  { unfold partial_out_of_sector. rewrite HBw, wrap32_small by lia.
    destruct (Z.gtb_spec (offset + size) bps); [lia|reflexivity]. }
  rewrite Hcheck in Hwrite.
  destruct (getPage_strong_returns w sect 1 true Hinv Ht)
    as (r & w' & Hget & Hinv' & Hhold).
  unfold bind at 1 in Hwrite. rewrite Hget in Hwrite.
  destruct r as [i|]; [|discriminate].
  destruct Hhold as (entry & He & Hfree & Hrange).
  unfold bind at 1, entry_at in Hwrite. rewrite He in Hwrite.
  pose proof (proj1 Hinv') as (_ & _ & Hall & _).
  pose proof (proj1 (Forall_lookup _ _) Hall i entry He) as Hp.
  destruct (local_sector entry sect Hp Hfree Hrange) as (Hloc & Hsec & _ & _).
  rewrite Hloc, HBw in Hwrite.
  destruct (shl64 1 (sect - sector entry)) as [mask|] eqn:Hmask; [|discriminate].
  set (page := blit (blit (cache entry) _ _) _ _) in Hwrite.
  unfold bind at 1 in Hwrite.
  destruct (mark_dirty i entry page mask w') as [[u wm]|] eqn:Hstore; [|discriminate].
  unfold ret in Hwrite. injection Hwrite as <-.
  destruct (stored_then_read w' i entry page mask u wm buf0 sect 0 bps)
    as (w2 & Hread & Hrest); auto; try lia; [subst page; rewrite !blit_length; reflexivity|].
  exists w2. split; [|exact Hrest]. rewrite Hread. do 4 f_equal.
  subst page. rewrite Z.add_0_r.
  set (loc := (sect - sector entry) * bps).
  assert (Hloc0 : 0 <= loc) by (subst loc; nia).
  assert (Hbufi : (Z.to_nat (spp * bps) <= length (cache entry))%nat).
  { destruct Hinv' as [_ (_ & _ & Hl & _)].
    apply (proj1 (Forall_lookup _ _) Hlens i). rewrite <- Hl.
    rewrite list_lookup_fmap, He. reflexivity. }
  assert (Hcs : count entry <= spp) by (destruct (Hp Hfree) as (_ & _ & ->); lia).
  assert (Hsrc : length (take (Z.to_nat size) buf) = Z.to_nat size)
    by (rewrite length_take; lia).
  pose proof (slice_erase_blit (cache entry) (Z.to_nat loc) (Z.to_nat offset)
                (Z.to_nat (bps - offset - size)) (take (Z.to_nat size) buf)) as Hsb.
  rewrite Hsrc in Hsb.
  replace (Z.to_nat offset + Z.to_nat size + Z.to_nat (bps - offset - size))%nat
    with (Z.to_nat bps) in Hsb by lia.
  replace (Z.to_nat loc + Z.to_nat offset)%nat with (Z.to_nat (loc + offset)) in Hsb by lia.
  rewrite !Z2Nat.id in Hsb by lia.
  apply Hsb. subst loc. nia.
Qed.

End Strong.

(** ** What in-partition sequences leave of a constructed cache *)

Section Constructed.

Context {D : Type}.
Variables (heap : allocator) (pages sectors : Z) (discInterface : DISC_INTERFACE D).
Variables (eop bps ticks : Z) (d : D) (log : list io_event).
Variable w0 : world D.
Hypothesis eop_range : 0 <= eop < 2 ^ 32.
Hypothesis constructed :
  construct heap pages sectors discInterface eop bps ticks d log = Some w0.

(** The page size the constructor settles on. *)
Definition clamped (sectors : Z) : Z := Z.max 32 (Z.min sectors 64).

Lemma clamped_range : 0 < clamped sectors <= 64.
Proof. unfold clamped. lia. Qed.

Definition buffer_sizes (w : world D) : list nat :=
  map (fun e => length (cache e)) (cacheEntries (the_cache w)).

Lemma constructed_strong :
  strong_inv (clamped sectors) eop bps (buffer_sizes w0) w0.
Proof.
  pose proof constructed as Hnew. unfold construct in Hnew.
  destruct (_NTFS_cache_constructor _ _ _ _ _ _) as [c|] eqn:Hc; [|discriminate].
  injection Hnew as <-.
  destruct (constructor_some _ _ _ _ _ _ c Hc) as (_ & He & Hb & _ & Hs & Hl & Hp & _).
  assert (Hfree : Forall (fun e => is_free e = true) (cacheEntries c)).
  { eapply Forall_impl; [exact Hp|]. intros e (Hsec & _). unfold is_free.
    now apply Z.eqb_eq. }
  split; [|split; [|split; [|split]]].
  - split; [exact Hs|]. split; [exact He|]. now apply table_ok_all_free.
  - exact Hb.
  - cbn [the_cache]. intros Hnil. rewrite Hnil in Hl. cbn in Hl. lia.
  - reflexivity.
  - eapply Forall_impl; [exact Hp|]. intros e (_ & _ & _ & Hd).
    now apply slot_dirty_ok_clean.
Qed.

Lemma reachable_strong (w : world D) :
  reachable (in_partition eop) w0 w ->
  strong_inv (clamped sectors) eop bps (buffer_sizes w0) w.
Proof.
  intros Hreach. induction Hreach as [|w o u w' _ IH Hin Hrun].
  - exact constructed_strong.
  - exact (wp_ok _ _ _ _ _
             (run_strong (clamped sectors) eop clamped_range eop_range bps
                (buffer_sizes w0) w o IH Hin) Hrun).
Qed.

(** X9. Starting from a freshly constructed cache over a partition of
    fewer than 2^32 sectors, after any sequence of access-layer operations
    that return, their behaviour being defined, and address only sectors
    of the partition: the page size, the sector size, the partition end
    and the size of every slot buffer are what the constructor set; no
    dirty bitmap is negative; a FREE slot has a zero dirty bitmap; a
    non-FREE slot has between 1 and [sectorsPerPage] sectors, ends at or
    before the end of the partition, and has dirty bits only for its own
    sectors. *)
Theorem in_partition_data_model (w : world D) :
  reachable (in_partition eop) w0 w ->
  sectorsPerPage (the_cache w) = clamped sectors /\
  bytesPerSector (the_cache w) = bps /\
  endOfPartition (the_cache w) = eop /\
  buffer_sizes w = buffer_sizes w0 /\
  forall i e, cacheEntries (the_cache w) !! i = Some e ->
    0 <= dirty e /\
    (is_free e = true -> dirty e = 0) /\
    (is_free e = false ->
     1 <= count e <= sectorsPerPage (the_cache w) /\
     sector e + count e <= eop /\
     forall k, Z.testbit (dirty e) k = true -> 0 <= k < count e).
Proof.
  intros Hreach.
  destruct (reachable_strong w Hreach)
    as [(HS & HE & Hall & _) (HB & _ & Hlens & Hdirty)].
  split; [exact HS|]. split; [exact HB|]. split; [exact HE|]. split; [exact Hlens|].
  intros i e He.
  destruct (proj1 (Forall_lookup _ _) Hdirty i e He) as (Hd0 & Hdf & Hdb).
  split; [exact Hd0|]. split; [exact Hdf|]. intros Hfree.
  destruct (proj1 (Forall_lookup _ _) Hall i e He Hfree) as (Hs & _ & Hc).
  pose proof clamped_range. rewrite HS.
  split; [lia|]. split; [lia|]. intros k Hk. split.
  - destruct (Z.lt_ge_cases k 0) as [Hneg|]; [|assumption].
    rewrite Z.testbit_neg_r in Hk by exact Hneg. discriminate.
  - destruct (Z.lt_ge_cases k (count e)) as [|Hge]; [assumption|].
    rewrite Hdb in Hk by exact Hge. discriminate.
Qed.

(** The buffers the constructor allocates hold a page. *)
Lemma constructed_buffers :
  (forall i, align_ok heap i = true) -> 0 <= bps -> 64 * bps < 2 ^ 32 ->
  Forall (fun l => (Z.to_nat (clamped sectors * bps) <= l)%nat) (buffer_sizes w0).
Proof.
  intros Halign HB Hsmall.
  pose proof constructed as Hnew. unfold construct in Hnew.
  destruct (_NTFS_cache_constructor _ _ _ _ _ _) as [c|] eqn:Hc; [|discriminate].
  injection Hnew as <-.
  destruct (constructor_some _ _ _ _ _ _ c Hc) as (_ & _ & _ & _ & Hs & _ & _ & Hbuf).
  unfold buffer_sizes. cbn [the_cache]. apply Forall_lookup. intros i l Hl.
  rewrite list_lookup_fmap in Hl.
  destruct (cacheEntries c !! i) as [e|] eqn:He; [|discriminate].
  injection Hl as <-. rewrite (Hbuf i e He). unfold ntfs_align.
  rewrite Halign, repeat_length, Hs. fold (clamped sectors).
  pose proof clamped_range. rewrite wrap32_small by nia. lia.
Qed.

(** X10. Let the cache be constructed over a partition of fewer than
    2^32 sectors with every slot buffer allocated and 64 sectors of fewer
    than 2^32 bytes together, and let it be reached by in-partition
    operations that returned. [_NTFS_cache_readSectors] over a range of
    the partition, into a buffer of [numSectors] sectors, then returns as
    soon as it has one unit of fuel per sector: the loop makes progress at
    every turn, no slot index leaves the table, [sectorsPerPage] is not
    zero where it divides, and the caller's buffer keeps its size. So
    does [_NTFS_cache_writeSectors] when the cache was constructed with
    fewer than 64 sectors per page, where no shift count reaches 64. When
    they return every slot buffer still holds a page. That each copy
    stays inside the two buffers is not part of the statement: the
    embedding does not check the sizes of buffers. *)
Theorem bulk_transfers_return (w : world D) (fuel : nat)
    (sect numSectors ptr : Z) (mem : buffer) :
  (forall i, align_ok heap i = true) -> 0 <= bps -> 64 * bps < 2 ^ 32 ->
  reachable (in_partition eop) w0 w ->
  0 <= sect -> 0 <= numSectors -> sect + numSectors <= eop ->
  (Z.to_nat (numSectors * bps) <= length mem)%nat ->
  (Z.to_nat numSectors <= fuel)%nat ->
  (exists r w',
     _NTFS_cache_readSectors fuel sect numSectors ptr mem w = Ok (r, w') /\
     length (snd r) = length mem /\
     Forall (fun l => (Z.to_nat (sectorsPerPage (the_cache w') * bps) <= l)%nat)
       (buffer_sizes w')) /\
  (sectors < 64 ->
   exists r w',
     _NTFS_cache_writeSectors fuel sect numSectors ptr mem w = Ok (r, w') /\
     Forall (fun l => (Z.to_nat (sectorsPerPage (the_cache w') * bps) <= l)%nat)
       (buffer_sizes w')).
Proof.
  intros Halign HB Hsmall Hreach Ht Hn Hend Hmem Hfuel.
  pose proof (reachable_strong w Hreach) as Hinv.
  pose proof (constructed_buffers Halign HB Hsmall) as Hbuf.
  assert (Hpage : forall w', strong_inv (clamped sectors) eop bps (buffer_sizes w0) w' ->
            Forall (fun l => (Z.to_nat (sectorsPerPage (the_cache w') * bps) <= l)%nat)
              (buffer_sizes w')).
  { intros w' [(HS & _) (_ & _ & Hlens & _)]. unfold buffer_sizes.
    rewrite Hlens, HS. exact Hbuf. }
  split.
  - destruct (readSectors_loop_returns (clamped sectors) eop clamped_range eop_range
                bps (buffer_sizes w0) fuel sect numSectors ptr 0 mem w Hinv Ht Hn Hend Hfuel)
      as (r & w' & Hrun & Hinv').
    exists r, w'. split; [exact Hrun|]. split; [|exact (Hpage w' Hinv')].
    exact (readSectors_loop_length fuel sect numSectors ptr 0 mem w r w' Hrun).
  - intros H64.
    destruct (writeSectors_loop_returns (clamped sectors) eop clamped_range eop_range
                bps (buffer_sizes w0) fuel sect numSectors ptr 0 mem w
                ltac:(unfold clamped; lia) Hinv Ht Hn Hend Hfuel)
      as (r & w' & Hrun & Hinv'). exists r, w'. split; [exact Hrun|exact (Hpage w' Hinv')].
Qed.

(** X11. Let the cache be constructed over a partition of fewer than
    2^32 sectors, with every slot buffer allocated and 64 sectors of
    fewer than 2^32 bytes together, and let it be reached by in-partition
    operations that returned. Let [sect] be a sector of the partition,
    [offset + size] be at most the sector size, and the caller's buffer
    hold [size] bytes. A [_NTFS_cache_writePartialSector] that returned
    [true] is then read back by [_NTFS_cache_readPartialSector] of the
    same sector, offset and size: the read returns [true], having copied
    the [size] bytes written to the start of its buffer; it is served
    from the cache with no device call, and it advances the access
    counter by one, modulo 2^32. *)
Theorem partial_write_then_read (w w1 : world D) (buf buf0 : buffer)
    (sect offset size : Z) :
  (forall i, align_ok heap i = true) -> 0 <= bps -> 64 * bps < 2 ^ 32 ->
  reachable (in_partition eop) w0 w ->
  0 <= sect < eop -> 0 <= offset -> 0 <= size -> offset + size <= bps ->
  (Z.to_nat size <= length buf)%nat ->
  _NTFS_cache_writePartialSector buf sect offset size w = Ok (true, w1) ->
  exists w2,
    _NTFS_cache_readPartialSector buf0 sect offset size w1
    = Ok ((true, blit buf0 0 (take (Z.to_nat size) buf)), w2) /\
    io_log w2 = io_log w1 /\ medium w2 = medium w1 /\
    accessCounter w2 = wrap32 (accessCounter w1 + 1).
Proof.
  intros Halign HB Hsmall Hreach Ht Hoff Hsize Hfit Hbuf Hwrite.
  apply (write_then_read (clamped sectors) eop clamped_range eop_range bps
           (buffer_sizes w0) w buf buf0 sect offset size w1); auto.
  - exact (reachable_strong w Hreach).
  - exact (constructed_buffers Halign HB Hsmall).
  - lia.
Qed.

(** X12. The same for the whole-sector wrappers of cache2.h. Let the
    cache be constructed over a partition of fewer than 2^32 sectors,
    with every slot buffer allocated and 64 sectors of fewer than 2^32
    bytes together, and let it be reached by in-partition operations that
    returned. Let [sect] be a sector of the partition and the caller's
    buffer hold a sector. A [_NTFS_cache_writeSector] that returned
    [true] is then read back by [_NTFS_cache_readSector]: it returns
    [true], having copied the [bytesPerSector] bytes written to the start
    of its buffer, with no device call. *)
Theorem sector_write_then_read (w w1 : world D) (buf buf0 : buffer) (sect : Z) :
  (forall i, align_ok heap i = true) -> 0 <= bps -> 64 * bps < 2 ^ 32 ->
  reachable (in_partition eop) w0 w ->
  0 <= sect < eop ->
  (Z.to_nat bps <= length buf)%nat ->
  _NTFS_cache_writeSector buf sect w = Ok (true, w1) ->
  exists w2,
    _NTFS_cache_readSector buf0 sect w1
    = Ok ((true, blit buf0 0 (take (Z.to_nat bps) buf)), w2) /\
    io_log w2 = io_log w1 /\ medium w2 = medium w1.
Proof.
  intros Halign HB Hsmall Hreach Ht Hbuf Hwrite.
  pose proof (reachable_strong w Hreach) as Hinv.
  assert (HBw : bytesPerSector (the_cache w) = bps) by apply Hinv.
  unfold _NTFS_cache_writeSector, bind at 1, get_cache in Hwrite. rewrite HBw in Hwrite.
  assert (Hinv1 : strong_inv (clamped sectors) eop bps (buffer_sizes w0) w1).
  { exact (wp_ok _ _ _ _ _
             (writePartialSector_strong (clamped sectors) eop clamped_range eop_range
                bps (buffer_sizes w0) w buf sect 0 bps Hinv Ht) Hwrite). }
  assert (HB1 : bytesPerSector (the_cache w1) = bps) by apply Hinv1.
  destruct (write_then_read (clamped sectors) eop clamped_range eop_range bps
              (buffer_sizes w0) w buf buf0 sect 0 bps w1)
    as (w2 & Hread & Hlog & Hmed & _); auto; try lia.
  { exact (constructed_buffers Halign HB Hsmall). }
  exists w2. unfold _NTFS_cache_readSector, bind at 1, get_cache. rewrite HB1. auto.
Qed.

(** X13. Let the cache be constructed over a partition of fewer than
    2^32 sectors, with every slot buffer allocated and 64 sectors of
    fewer than 2^32 bytes together, and let it be reached by in-partition
    operations that returned. Let [sect] be a sector of the partition,
    [offset + size] be at most the sector size, and the caller's buffer
    hold [size] bytes. After [_NTFS_cache_eraseWritePartialSector]
    returned [true], [_NTFS_cache_readSector] returns [true], with no
    device call, having copied the whole sector to the start of its
    buffer: [offset] zero bytes, the [size] bytes written, and zeros up
    to the end of the sector. Nothing of the sector's earlier content is
    left. *)
Theorem erase_write_then_read (w w1 : world D) (buf buf0 : buffer)
    (sect offset size : Z) :
  (forall i, align_ok heap i = true) -> 0 <= bps -> 64 * bps < 2 ^ 32 ->
  reachable (in_partition eop) w0 w ->
  0 <= sect < eop -> 0 <= offset -> 0 <= size -> offset + size <= bps ->
  (Z.to_nat size <= length buf)%nat ->
  _NTFS_cache_eraseWritePartialSector buf sect offset size w = Ok (true, w1) ->
  exists w2,
    _NTFS_cache_readSector buf0 sect w1
    = Ok ((true, blit buf0 0 (repeat x00 (Z.to_nat offset) ++ take (Z.to_nat size) buf
                              ++ repeat x00 (Z.to_nat (bps - offset - size)))), w2) /\
    io_log w2 = io_log w1 /\ medium w2 = medium w1.
Proof.
  intros Halign HB Hsmall Hreach Ht Hoff Hsize Hfit Hbuf Hwrite.
  pose proof (reachable_strong w Hreach) as Hinv.
  assert (Hinv1 : strong_inv (clamped sectors) eop bps (buffer_sizes w0) w1).
  { exact (wp_ok _ _ _ _ _
             (eraseWritePartialSector_strong (clamped sectors) eop clamped_range eop_range
                bps (buffer_sizes w0) w buf sect offset size Hinv Ht) Hwrite). }
  assert (HB1 : bytesPerSector (the_cache w1) = bps) by apply Hinv1.
  destruct (erase_then_read (clamped sectors) eop clamped_range eop_range bps
              (buffer_sizes w0) w buf buf0 sect offset size w1)
    as (w2 & Hread & Hlog & Hmed & _); auto; try lia.
  { exact (constructed_buffers Halign HB Hsmall). }
  exists w2. unfold _NTFS_cache_readSector, bind at 1, get_cache. rewrite HB1. auto.
Qed.

End Constructed.

(** X9, witness: on the cold cache, whose sectors have one byte, a
    one-byte write into sector 70, a read of sectors 40-72 and a write of
    sectors 0-7. They leave the page of sector 64 in slot 0 with sector
    70 dirty, the page of sector 32 in slot 1, clean, the page of sector
    0 in slot 2 with its first eight sectors dirty, and slot 3 FREE. *)
Lemma in_partition_data_model_witness :
  exists w,
    reachable (in_partition 4096) cold w /\
    map (fun e => (sector e, count e, dirty e)) (cacheEntries (the_cache w))
    = [(64, 32, 64); (32, 32, 0); (0, 32, 255); (CACHE_FREE, 0, 0)] /\
    sectorsPerPage (the_cache w) = 32 /\
    bytesPerSector (the_cache w) = 1 /\
    endOfPartition (the_cache w) = 4096 /\
    buffer_sizes w = [32; 32; 32; 32]%nat /\
    forall i e, cacheEntries (the_cache w) !! i = Some e ->
      0 <= dirty e /\
      (is_free e = true -> dirty e = 0) /\
      (is_free e = false ->
       1 <= count e <= sectorsPerPage (the_cache w) /\
       sector e + count e <= 4096 /\
       forall k, Z.testbit (dirty e) k = true -> 0 <= k < count e).
Proof.
  assert (Hreach : exists w,
            reachable (in_partition 4096) cold w /\
            map (fun e => (sector e, count e, dirty e)) (cacheEntries (the_cache w))
            = [(64, 32, 64); (32, 32, 0); (0, 32, 255); (CACHE_FREE, 0, 0)]).
  { eexists. split.
    - eapply (reach_step _ _ _ (WriteSectors 8 0 8 1 (repeat x01 8))).
      + eapply (reach_step _ _ _ (ReadSectors 33 40 33 1 (repeat x00 33))).
        * eapply (reach_step _ _ _ (WritePartialSector [x2a] 70 0 1)).
          -- apply reach_start.
          -- cbn. lia.
          -- vm_compute. reflexivity.
        * cbn. lia.
        * vm_compute. reflexivity.
      + cbn. lia.
      + vm_compute. reflexivity.
    - vm_compute. reflexivity. }
  destruct Hreach as (w & Hreach & Hslots). exists w.
  split; [exact Hreach|]. split; [exact Hslots|].
  exact (in_partition_data_model Scripted.heap_ok 4 32 (Scripted.interface 1)
           4096 1 0 [] [] cold ltac:(lia) eq_refl w Hreach).
Defined.

(** X10, witness: a read and a write of the 100 sectors from sector 10 on
    the cold cache, whose pages have 32 sectors of one byte. *)
Lemma bulk_transfers_return_witness :
  (exists r w',
     _NTFS_cache_readSectors 100 10 100 1 (repeat x00 100) cold = Ok (r, w') /\
     length (snd r) = length (repeat x00 100) /\
     Forall (fun l => (Z.to_nat (sectorsPerPage (the_cache w') * 1) <= l)%nat)
       (buffer_sizes w')) /\
  (32 < 64 ->
   exists r w',
     _NTFS_cache_writeSectors 100 10 100 1 (repeat x00 100) cold = Ok (r, w') /\
     Forall (fun l => (Z.to_nat (sectorsPerPage (the_cache w') * 1) <= l)%nat)
       (buffer_sizes w')).
Proof.
  apply (bulk_transfers_return Scripted.heap_ok 4 32 (Scripted.interface 1)
           4096 1 0 [] [] cold ltac:(lia) eq_refl cold 100%nat 10 100 1 (repeat x00 100)).
  - reflexivity.
  - lia.
  - lia.
  - apply reach_start.
  - lia.
  - lia.
  - lia.
  - vm_compute. lia.
  - vm_compute. lia.
Defined.

(** X11, witness: two bytes written at offset 3 of sector 40 of a fresh
    cache over 8-byte sectors, and read back. *)
Lemma partial_write_then_read_witness :
  exists w0 w1 w2,
    Scripted.fresh 4096 8 [] = Some w0 /\
    _NTFS_cache_writePartialSector [x2a; x2b] 40 3 2 w0 = Ok (true, w1) /\
    _NTFS_cache_readPartialSector [x00; x00] 40 3 2 w1 = Ok ((true, [x2a; x2b]), w2) /\
    io_log w2 = io_log w1.
Proof.
  destruct (Scripted.fresh 4096 8 []) as [w0|] eqn:Hnew; [|discriminate].
  assert (Hwrite : exists w1,
             _NTFS_cache_writePartialSector [x2a; x2b] 40 3 2 w0 = Ok (true, w1)).
  { injection Hnew as <-. eexists. vm_compute. reflexivity. }
  destruct Hwrite as [w1 Hwrite].
  destruct (partial_write_then_read Scripted.heap_ok 4 32 (Scripted.interface 8)
              4096 8 0 [] [] w0 ltac:(lia) Hnew w0 w1 [x2a; x2b] [x00; x00] 40 3 2)
    as (w2 & Hread & Hlog & _).
  - reflexivity.
  - lia.
  - lia.
  - apply reach_start.
  - lia.
  - lia.
  - lia.
  - lia.
  - cbn. lia.
  - exact Hwrite.
  - exists w0, w1, w2. split; [reflexivity|]. split; [exact Hwrite|].
    split; [exact Hread|exact Hlog].
Defined.

(** X12, witness: sector 40 of a fresh cache over 8-byte sectors, written
    and read back whole. *)
Lemma sector_write_then_read_witness :
  exists w0 w1 w2,
    Scripted.fresh 4096 8 [] = Some w0 /\
    _NTFS_cache_writeSector [x01; x02; x03; x04; x05; x06; x07; x08] 40 w0
    = Ok (true, w1) /\
    _NTFS_cache_readSector (repeat x00 8) 40 w1
    = Ok ((true, [x01; x02; x03; x04; x05; x06; x07; x08]), w2) /\
    io_log w2 = io_log w1.
Proof.
  destruct (Scripted.fresh 4096 8 []) as [w0|] eqn:Hnew; [|discriminate].
  assert (Hwrite : exists w1,
             _NTFS_cache_writeSector [x01; x02; x03; x04; x05; x06; x07; x08] 40 w0
             = Ok (true, w1)).
  { injection Hnew as <-. eexists. vm_compute. reflexivity. }
  destruct Hwrite as [w1 Hwrite].
  destruct (sector_write_then_read Scripted.heap_ok 4 32 (Scripted.interface 8)
              4096 8 0 [] [] w0 ltac:(lia) Hnew w0 w1
              [x01; x02; x03; x04; x05; x06; x07; x08] (repeat x00 8) 40)
    as (w2 & Hread & Hlog & _).
  - reflexivity.
  - lia.
  - lia.
  - apply reach_start.
  - lia.
  - cbn. lia.
  - exact Hwrite.
  - exists w0, w1, w2. split; [reflexivity|]. split; [exact Hwrite|].
    split; [exact Hread|exact Hlog].
Defined.

(** X13, witness: sector 40 of a fresh cache over 8-byte sectors, which
    a read had loaded with the medium's bytes, erased but for two bytes
    written at offset 3. *)
Lemma erase_write_then_read_witness :
  exists w0 w w1 w2,
    Scripted.fresh 4096 8 [] = Some w0 /\
    run (ReadPartialSector [x00] 40 0 1) w0 = Ok (tt, w) /\
    _NTFS_cache_eraseWritePartialSector [x2a; x2b] 40 3 2 w = Ok (true, w1) /\
    _NTFS_cache_readSector (repeat xff 8) 40 w1
    = Ok ((true, [x00; x00; x00; x2a; x2b; x00; x00; x00]), w2) /\
    io_log w2 = io_log w1.
Proof.
  destruct (Scripted.fresh 4096 8 []) as [w0|] eqn:Hnew; [|discriminate].
  assert (Hload : exists w, run (ReadPartialSector [x00] 40 0 1) w0 = Ok (tt, w) /\
                    exists w1, _NTFS_cache_eraseWritePartialSector [x2a; x2b] 40 3 2 w
                               = Ok (true, w1)).
  { injection Hnew as <-. eexists. split; [vm_compute; reflexivity|].
    eexists. vm_compute. reflexivity. }
  destruct Hload as (w & Hload & w1 & Hwrite).
  destruct (erase_write_then_read Scripted.heap_ok 4 32 (Scripted.interface 8)
              4096 8 0 [] [] w0 ltac:(lia) Hnew w w1 [x2a; x2b] (repeat xff 8) 40 3 2)
    as (w2 & Hread & Hlog & _).
  - reflexivity.
  - lia.
  - lia.
  - eapply (reach_step _ _ _ (ReadPartialSector [x00] 40 0 1)).
    + apply reach_start.
    + cbn. lia.
    + exact Hload.
  - lia.
  - lia.
  - lia.
  - lia.
  - cbn. lia.
  - exact Hwrite.
  - exists w0, w, w1, w2. split; [reflexivity|]. split; [exact Hload|].
    split; [exact Hwrite|]. split; [exact Hread|exact Hlog].
Defined.

(** * The devoptab directory routines (ntfsdir.c) *)

(** The second part of the development embeds the directory routines
    that newlib's devoptab table calls. They are glue over the NTFS
    library: almost every statement is a call of a library function that
    is not among the sources, or a read or write of an object the library
    owns. The embedding keeps these as they are.
    - A routine is a tree of library calls ([prog]): a call node carries
      the call with its arguments and continues with whatever the library
      answers. Nothing is assumed about the answers.
    - Reads and writes of the library's objects (the volume descriptor's
      [cwd_ni], [dmask], [fmask], [id], [firstOpenDir], [openDirCount],
      the fields of its volume, the inode's [mrec->flags], the
      [prevOpenDir] / [nextOpenDir] links of the open directories, the
      global [errno]) are calls as well, so the aliasing between
      directory states is left to the memory.
    - The directory state under the routine's hands is a record; its
      singly linked list of entries is a list, and [current], a pointer
      to a node of that list, is the position of the node.
    - [struct _reent] is its [_errno] field; a routine returns its C
      result with the [_reent] it leaves.
    - Constants that only headers outside the sources define are the
      fields of the class [headers]; symbolic constants that are only
      passed on or compared with themselves ([errno] codes, file types,
      [NTFS_DT_*]) are constructors.
    - A routine has no execution where C leaves its behaviour undefined
      ([Undef]): this only happens in the arithmetic of
      [ntfs_statvfs_r]. *)

Declare Scope dir_scope.
Delimit Scope dir_scope with dir.

(** ** Data *)

(** A C string: the bytes before the terminator. *)
Definition cstring : Type := list byte.

(** Non-NULL pointers to a volume descriptor, an inode, a directory
    state. *)
Definition ntfs_vd : Type := nat.
Definition ntfs_inode : Type := nat.
Definition dir_ptr : Type := nat.

(** The [errno] codes the routines store, and any value the library left
    in [errno]. *)
Inductive errno_t : Type :=
  | ENODEV | ENOENT | ENOTDIR | EXDEV | EEXIST | EBADF | EINVAL | EIO
  | errno_value (e : Z).

Record _reent : Type := mkReent { _errno : errno_t }.

(** The file-type bits of a [mode_t], and a mode: its type bits (none for
    a zero type field) and its permission bits, which are disjoint. *)
Inductive ftype : Type :=
  | S_IFDIR | S_IFLNK | S_IFIFO | S_IFSOCK | S_IFBLK | S_IFCHR | S_IFREG.

Record mode_t : Type := mkMode { fmt : option ftype; perm : Z }.

(** The fields of [struct stat] that [ntfs_dirnext_r] sets; the others
    are zeroed. *)
Record stat : Type := mkStat { st_ino : Z; st_mode : mode_t }.

(** The [dt_type] of a directory entry. *)
Inductive dt_type_t : Type :=
  | NTFS_DT_DIR | NTFS_DT_LNK | NTFS_DT_FIFO | NTFS_DT_SOCK | NTFS_DT_BLK
  | NTFS_DT_CHR | NTFS_DT_REPARSE
  | NTFS_DT_other (code : Z).

(** A node of the entry list; [next] is the rest of the list. *)
Record ntfs_dir_entry : Type := mkDirEntry {
  name : cstring;
  mref : Z;
  type : dt_type_t
}.

Record ntfs_dir_state : Type := mkDirState {
  vd : option ntfs_vd;
  ni : option ntfs_inode;
  first : list ntfs_dir_entry;
  current : option nat
}.

(** Constants and macros of headers that are not among the sources. *)
Class headers : Type := {
  MFT_RECORD_IS_DIRECTORY : Z;
  FILE_NAME_DOS : Z;
  NAME_MAX : nat;
  MREF : Z -> Z;
  ST_RDONLY : Z;
  NTFS_MAX_NAME_LEN : Z
}.

(** The fields of [struct statvfs], with the values [ntfs_statvfs_r]
    assigns to them, before their conversion to the types of the
    fields. *)
Record statvfs : Type := mkStatvfs {
  f_bsize : Z;
  f_frsize : Z;
  f_blocks : Z;
  f_bfree : Z;
  f_bavail : Z;
  f_files : Z;
  f_ffree : Z;
  f_favail : Z;
  f_fsid : Z;
  f_flag : Z;
  f_namemax : Z
}.

(** The fields of the library's volume ([vd->vol]) that
    [ntfs_statvfs_r] reads; [mftbmp_na_allocated_size] is
    [vd->vol->mftbmp_na->allocated_size]. *)
Inductive vol_field_t : Type :=
  | cluster_size | nr_clusters | free_clusters | cluster_size_bits
  | mft_record_size_bits | mftbmp_na_allocated_size | free_mft_records.

(** ** Library calls *)

(** What [ntfs_free] is given: the name of an entry, or the entry. *)
Inductive freed : Type :=
  | the_name (s : cstring)
  | the_entry (e : ntfs_dir_entry).

(** The calls, each with the type of its answer. [ntfsGetVolume] is
    always called with [true]; [ntfsUpdateTimes] with [NTFS_UPDATE_ATIME].
    [ntfsStat] fills the caller's [struct stat], which the routines never
    read. [ntfs_readdir] is given [ntfs_readdir_filler] as its callback:
    the callback runs inside the call, and all it changes is the entry
    list, so the call answers with its return code and the list it left.
    [ntfsUnicodeToLocal] answers with its return code and the string it
    stored. [ntfs_volume_get_free_space] and [NVolReadOnly] are given
    [vd->vol]; [vol_field] is the read of a field of it. *)
Inductive lib_call : Type -> Type :=
  | ntfsGetVolume (path : cstring) : lib_call (option ntfs_vd)
  | ntfsLock (v : ntfs_vd) : lib_call unit
  | ntfsUnlock (v : ntfs_vd) : lib_call unit
  | ntfsParseEntry (v : ntfs_vd) (path : cstring) (reparse : Z)
      : lib_call (option ntfs_inode)
  | ntfsOpenEntry (v : ntfs_vd) (path : cstring) : lib_call (option ntfs_inode)
  | ntfsCloseEntry (v : ntfs_vd) (n : ntfs_inode) : lib_call unit
  | ntfsStat (v : ntfs_vd) (n : ntfs_inode) : lib_call Z
  | ntfsCreate (v : ntfs_vd) (path : cstring) (t : ftype) (target : option cstring)
      : lib_call (option ntfs_inode)
  | ntfsLink (v : ntfs_vd) (old_path new_path : cstring) : lib_call Z
  | ntfsUnlink (v : ntfs_vd) (path : cstring) (t : option ftype) : lib_call Z
  | ntfsUpdateTimes (v : ntfs_vd) (n : ntfs_inode) : lib_call unit
  | ntfs_readdir (n : ntfs_inode) : lib_call (Z * list ntfs_dir_entry)
  | ntfsUnicodeToLocal (uname : list Z) (name_len : Z) : lib_call (Z * cstring)
  | ntfs_malloc : lib_call bool
  | ntfs_free (p : freed) : lib_call unit
  | read_errno : lib_call errno_t
  | write_errno (e : errno_t) : lib_call unit
  | mrec_flags (n : ntfs_inode) : lib_call Z
  | get_cwd_ni (v : ntfs_vd) : lib_call (option ntfs_inode)
  | set_cwd_ni (v : ntfs_vd) (n : ntfs_inode) : lib_call unit
  | get_dmask (v : ntfs_vd) : lib_call Z
  | get_fmask (v : ntfs_vd) : lib_call Z
  | get_firstOpenDir (v : ntfs_vd) : lib_call (option dir_ptr)
  | set_firstOpenDir (v : ntfs_vd) (d : option dir_ptr) : lib_call unit
  | incr_openDirCount (v : ntfs_vd) : lib_call unit
  | decr_openDirCount (v : ntfs_vd) : lib_call unit
  | get_prevOpenDir (d : dir_ptr) : lib_call (option dir_ptr)
  | get_nextOpenDir (d : dir_ptr) : lib_call (option dir_ptr)
  | set_prevOpenDir (d : dir_ptr) (p : option dir_ptr) : lib_call unit
  | set_nextOpenDir (d : dir_ptr) (p : option dir_ptr) : lib_call unit
  | ntfs_volume_get_free_space (v : ntfs_vd) : lib_call Z
  | vol_field (v : ntfs_vd) (f : vol_field_t) : lib_call Z
  | vd_id (v : ntfs_vd) : lib_call Z
  | NVolReadOnly (v : ntfs_vd) : lib_call bool.

(** A routine: it returns, or makes a call and goes on with the answer,
    or does something whose behaviour C leaves undefined. *)
Inductive prog (A : Type) : Type :=
  | Ret (a : A)
  | Call (X : Type) (c : lib_call X) (k : X -> prog A)
  | Undef.

Arguments Ret {A} _.
Arguments Call {A X} _ _.
Arguments Undef {A}.

Fixpoint pbind {A B : Type} (p : prog A) (f : A -> prog B) : prog B :=
  match p with
  | Ret a => f a
  | Call c k => Call c (fun x => pbind (k x) f)
  | Undef => Undef
  end.

Definition perform {X : Type} (c : lib_call X) : prog X := Call c Ret.

Coercion perform : lib_call >-> prog.

Notation "x <- m ;; k" := (pbind m (fun x => k))
  (at level 100, m at next level, right associativity) : dir_scope.
Notation "m ;;; k" := (pbind m (fun _ => k))
  (at level 100, right associativity) : dir_scope.

(** A call with the answer it got. *)
Inductive event : Type :=
  | Event (X : Type) (c : lib_call X) (x : X).

Arguments Event {X} _ _.

(** [exec p tr a]: the routine [p] returns [a] after the calls and
    answers of [tr], without undefined behaviour. *)
Fixpoint exec {A : Type} (p : prog A) (tr : list event) (a : A) : Prop :=
  match p with
  | Ret a' => tr = [] /\ a = a'
  | Call c k => exists x tr', tr = Event c x :: tr' /\ exec (k x) tr' a
  | Undef => False
  end.

(** A library that answers every call by a function of the call, and the
    run of a routine against it: its result, if it returns, and the
    calls it made. *)
Definition library : Type := forall X : Type, lib_call X -> X.

Fixpoint run_against {A : Type} (lib : library) (p : prog A)
    : option A * list event :=
  match p with
  | Ret a => (Some a, [])
  | Call c k =>
      let x := lib _ c in
      let '(a, tr) := run_against lib (k x) in
      (a, Event c x :: tr)
  | Undef => (None, [])
  end.

Local Open Scope dir_scope.

Section Devoptab.

Context `{hdr : headers}.

(** ** [ntfsCloseDir] *)

(** The [while] loop over the entry list. *)
Fixpoint free_entries (es : list ntfs_dir_entry) : prog unit :=
  match es with
  | [] => Ret tt
  | e :: es' =>
      ntfs_free (the_name (name e)) ;;;
      ntfs_free (the_entry e) ;;;
      free_entries es'
  end.

(** [ntfsCloseDir] past the test of [dir] itself. *)
Definition ntfsCloseDir_at (d : ntfs_dir_state) : prog ntfs_dir_state :=
  match vd d with
  | None => Ret d
  | Some v =>
      free_entries (first d) ;;;
      match ni d with
      | Some n => ntfsCloseEntry v n
      | None => Ret tt
      end ;;;
      Ret (mkDirState (vd d) None [] None)
  end.

Arguments ntfsCloseDir_at : simpl never.

Definition ntfsCloseDir (dir : option ntfs_dir_state) : prog (option ntfs_dir_state) :=
  match dir with
  | None => Ret None
  | Some d => d' <- ntfsCloseDir_at d ;; Ret (Some d')
  end.

(** ** The path routines *)

(** [ntfs_stat_r]; [st] tells whether the caller's [struct stat *] is
    non-NULL. *)
Definition ntfs_stat_r (r : _reent) (path : cstring) (st : bool) : prog (Z * _reent) :=
  v <- ntfsGetVolume path ;;
  match v with
  | None => Ret (-1, mkReent ENODEV)
  | Some v =>
      if negb st then Ret (0, r) else
      ntfsLock v ;;;
      n <- ntfsParseEntry v path 1 ;;
      match n with
      | None =>
          e <- read_errno ;;
          ntfsUnlock v ;;;
          Ret (-1, mkReent e)
      | Some n =>
          ret <- ntfsStat v n ;;
          r <- (if ret =? 0 then Ret r else e <- read_errno ;; Ret (mkReent e)) ;;
          ntfsCloseEntry v n ;;;
          ntfsUnlock v ;;;
          Ret (0, r)
      end
  end.

Definition ntfs_lstat_r (r : _reent) (path : cstring) (st : bool) : prog (Z * _reent) :=
  v <- ntfsGetVolume path ;;
  match v with
  | None => Ret (-1, mkReent ENODEV)
  | Some v =>
      if negb st then Ret (0, r) else
      ntfsLock v ;;;
      n <- ntfsParseEntry v path 0 ;;
      match n with
      | None =>
          e <- read_errno ;;
          ntfsUnlock v ;;;
          Ret (-1, mkReent e)
      | Some n =>
          ret <- ntfsStat v n ;;
          r <- (if ret =? 0 then Ret r else e <- read_errno ;; Ret (mkReent e)) ;;
          ntfsCloseEntry v n ;;;
          ntfsUnlock v ;;;
          Ret (0, r)
      end
  end.

Definition ntfs_symlink_r (r : _reent) (target linkpath : cstring) : prog (Z * _reent) :=
  v <- ntfsGetVolume linkpath ;;
  match v with
  | None => Ret (-1, mkReent ENODEV)
  | Some v =>
      ntfsLock v ;;;
      n <- ntfsCreate v linkpath S_IFLNK (Some target) ;;
      match n with
      | None =>
          ntfsUnlock v ;;;
          e <- read_errno ;;
          Ret (-1, mkReent e)
      | Some n =>
          ntfsCloseEntry v n ;;;
          ntfsUnlock v ;;;
          Ret (0, r)
      end
  end.

Definition ntfs_unlink_r (r : _reent) (path : cstring) : prog (Z * _reent) :=
  v <- ntfsGetVolume path ;;
  match v with
  | None => Ret (-1, mkReent ENODEV)
  | Some v =>
      ret <- ntfsUnlink v path (Some S_IFLNK) ;;
      if ret =? 0 then Ret (ret, r) else
      e <- read_errno ;;
      Ret (ret, mkReent e)
  end.

(** [a && b] on integers. *)
Definition logical_and (a b : Z) : bool := negb (a =? 0) && negb (b =? 0).

Definition ntfs_chdir_r (r : _reent) (path : cstring) : prog (Z * _reent) :=
  v <- ntfsGetVolume path ;;
  match v with
  | None => Ret (-1, mkReent ENODEV)
  | Some v =>
      ntfsLock v ;;;
      n <- ntfsOpenEntry v path ;;
      match n with
      | None =>
          ntfsUnlock v ;;;
          Ret (-1, mkReent ENOENT)
      | Some n =>
          flags <- mrec_flags n ;;
          if negb (logical_and flags MFT_RECORD_IS_DIRECTORY) then
            ntfsCloseEntry v n ;;;
            ntfsUnlock v ;;;
            Ret (-1, mkReent ENOTDIR)
          else
            old <- get_cwd_ni v ;;
            match old with
            | Some o => ntfsCloseEntry v o
            | None => Ret tt
            end ;;;
            set_cwd_ni v n ;;;
            ntfsUnlock v ;;;
            Ret (0, r)
      end
  end.

(** [vd != ntfsGetVolume (newName, true)] *)
Definition other_volume (v : ntfs_vd) (v' : option ntfs_vd) : bool :=
  match v' with
  | Some v2 => negb (Nat.eqb v v2)
  | None => true
  end.

Definition ntfs_rename_r (r : _reent) (oldName newName : cstring) : prog (Z * _reent) :=
  v <- ntfsGetVolume oldName ;;
  match v with
  | None => Ret (-1, mkReent ENODEV)
  | Some v =>
      ntfsLock v ;;;
      v' <- ntfsGetVolume newName ;;
      if other_volume v v' then
        ntfsUnlock v ;;;
        Ret (-1, mkReent EXDEV)
      else
      n <- ntfsOpenEntry v newName ;;
      match n with
      | Some n =>
          ntfsCloseEntry v n ;;;
          ntfsUnlock v ;;;
          Ret (-1, mkReent EEXIST)
      | None =>
          linked <- ntfsLink v oldName newName ;;
          if negb (linked =? 0) then
            ntfsUnlock v ;;;
            Ret (-1, r)
          else
          unlinked <- ntfsUnlink v oldName None ;;
          if negb (unlinked =? 0) then
            undone <- ntfsUnlink v newName None ;;
            if negb (undone =? 0) then
              ntfsUnlock v ;;;
              Ret (-1, r)
            else
              ntfsUnlock v ;;;
              Ret (-1, r)
          else
            ntfsUnlock v ;;;
            Ret (0, r)
      end
  end.

(** [ntfs_mkdir_r]; its [mode] argument is not used. *)
Definition ntfs_mkdir_r (r : _reent) (path : cstring) (mode : Z) : prog (Z * _reent) :=
  v <- ntfsGetVolume path ;;
  match v with
  | None => Ret (-1, mkReent ENODEV)
  | Some v =>
      ntfsLock v ;;;
      n <- ntfsCreate v path S_IFDIR None ;;
      match n with
      | None =>
          ntfsUnlock v ;;;
          e <- read_errno ;;
          Ret (-1, mkReent e)
      | Some n =>
          ntfsCloseEntry v n ;;;
          ntfsUnlock v ;;;
          Ret (0, r)
      end
  end.

Definition ntfs_rmdir_r (r : _reent) (path : cstring) : prog (Z * _reent) :=
  v <- ntfsGetVolume path ;;
  match v with
  | None => Ret (-1, mkReent ENODEV)
  | Some v =>
      ret <- ntfsUnlink v path (Some S_IFDIR) ;;
      if ret =? 0 then Ret (ret, r) else
      e <- read_errno ;;
      Ret (ret, mkReent e)
  end.

(** ** [ntfs_statvfs_r] *)

(** The arithmetic of lines 974-989 is that of [s64 size] and
    [int delta_bits] (lines 938-939). The fields of the volume are
    declared in headers of the library; they are read here as integers.
    A result that does not fit the type the routine declares for it, a
    shift of a negative value and a shift by a negative count or by 64 or
    more are undefined ([None]). *)
Definition as_s64 (x : Z) : option Z :=
  if (- 2 ^ 63 <=? x) && (x <? 2 ^ 63) then Some x else None.

Definition as_int (x : Z) : option Z :=
  if (- 2 ^ 31 <=? x) && (x <? 2 ^ 31) then Some x else None.

(** [size <<= delta_bits] when [delta_bits >= 0], [size >>= -delta_bits]
    otherwise, for a [size] that is not negative. *)
Definition scale_size (size delta_bits : Z) : option Z :=
  if delta_bits >=? 0 then
    if delta_bits <? 64 then as_s64 (size * 2 ^ delta_bits) else None
  else
    if - delta_bits <? 64 then Some (Z.shiftr size (- delta_bits)) else None.

(** [(allocated_size << 3) + size] *)
Definition count_files (allocated_size size : Z) : option Z :=
  if allocated_size <? 0 then None else
  match as_s64 (allocated_size * 8) with
  | Some bits => as_s64 (bits + size)
  | None => None
  end.

(** [memset (buf, 0, sizeof (struct statvfs))] *)
Definition zeroed : statvfs := mkStatvfs 0 0 0 0 0 0 0 0 0 0 0.

(** [ntfs_statvfs_r]; [buf] tells whether the caller's
    [struct statvfs *] is non-NULL; the result carries what the routine
    stored in it, if anything. [MAX] is the greater of its arguments. *)
Definition ntfs_statvfs_r (r : _reent) (path : cstring) (buf : bool)
    : prog (Z * _reent * option statvfs) :=
  v <- ntfsGetVolume path ;;
  match v with
  | None => Ret (-1, mkReent ENODEV, None)
  | Some v =>
      if negb buf then Ret (0, r, None) else
      ntfsLock v ;;;
      failed <- ntfs_volume_get_free_space v ;;
      if negb (failed =? 0) then
        ntfsUnlock v ;;;
        Ret (-1, mkReent EIO, Some zeroed)
      else
        bsize <- vol_field v cluster_size ;;
        frsize <- vol_field v cluster_size ;;
        blocks <- vol_field v nr_clusters ;;
        free <- vol_field v free_clusters ;;
        let size := Z.max free 0 in
        let bfree := size in
        bits <- vol_field v cluster_size_bits ;;
        record_bits <- vol_field v mft_record_size_bits ;;
        match as_int (bits - record_bits) with
        | None => Undef
        | Some delta_bits =>
            match scale_size size delta_bits with
            | None => Undef
            | Some size =>
                allocated_size <- vol_field v mftbmp_na_allocated_size ;;
                match count_files allocated_size size with
                | None => Undef
                | Some files =>
                    free_records <- vol_field v free_mft_records ;;
                    match as_s64 (size + free_records) with
                    | None => Undef
                    | Some size =>
                        let ffree := Z.max size 0 in
                        id <- vd_id v ;;
                        read_only <- NVolReadOnly v ;;
                        ntfsUnlock v ;;;
                        Ret (0, r,
                             Some (mkStatvfs bsize frsize blocks bfree bfree files
                                     ffree ffree id
                                     (if read_only then ST_RDONLY else 0)
                                     NTFS_MAX_NAME_LEN))
                    end
                end
            end
        end
  end.

(** ** The directory iterator *)

(** [ntfs_readdir_filler]: the callback of [ntfs_readdir]. [dir] is
    [STATE (dirState)], which may be NULL. *)
Definition ntfs_readdir_filler (dir : option ntfs_dir_state) (uname : list Z)
    (name_len name_type pos mref : Z) (dt_type : dt_type_t)
    : prog (Z * option ntfs_dir_state) :=
  match dir with
  | None => write_errno EINVAL ;;; Ret (-1, dir)
  | Some d =>
      match vd d with
      | None => write_errno EINVAL ;;; Ret (-1, dir)
      | Some _ =>
          if name_type =? FILE_NAME_DOS then Ret (0, dir) else
          converted <- ntfsUnicodeToLocal uname name_len ;;
          let '(rc, entry_name) := converted in
          if rc <? 0 then Ret (-1, dir) else
          entry <- ntfs_malloc ;;
          if negb entry then
            ntfs_free (the_name entry_name) ;;;
            Ret (-1, dir)
          else
            Ret (0, Some (mkDirState (vd d) (ni d)
                            (first d ++ [mkDirEntry entry_name mref dt_type])
                            (current d)))
      end
  end.

(** [dir->first] as a value for [dir->current]. *)
Definition first_node (es : list ntfs_dir_entry) : option nat :=
  match es with
  | [] => None
  | _ :: _ => Some 0%nat
  end.

(** [dir->current->next] *)
Definition next_node (es : list ntfs_dir_entry) (i : nat) : option nat :=
  if (S i <? length es)%nat then Some (S i) else None.

(** [ntfs_diropen_r]; [self] is the address of the directory state
    [dir], which the routine links into the list of open directories. It
    returns whether its result is non-NULL. *)
Definition ntfs_diropen_r (r : _reent) (self : dir_ptr) (dir : ntfs_dir_state)
    (path : cstring) : prog (bool * _reent * ntfs_dir_state) :=
  v <- ntfsGetVolume path ;;
  let dir := mkDirState v (ni dir) (first dir) (current dir) in
  match v with
  | None => Ret (false, mkReent ENODEV, dir)
  | Some v =>
      ntfsLock v ;;;
      n <- ntfsOpenEntry v path ;;
      let dir := mkDirState (vd dir) n (first dir) (current dir) in
      match n with
      | None =>
          ntfsUnlock v ;;;
          Ret (false, mkReent ENOENT, dir)
      | Some n =>
          flags <- mrec_flags n ;;
          if negb (logical_and flags MFT_RECORD_IS_DIRECTORY) then
            ntfsCloseEntry v n ;;;
            ntfsUnlock v ;;;
            Ret (false, mkReent ENOTDIR, dir)
          else
            listed <- ntfs_readdir n ;;
            let '(rc, es) := listed in
            let dir := mkDirState (vd dir) (ni dir) es None in
            if negb (rc =? 0) then
              dir <- ntfsCloseDir_at dir ;;
              ntfsUnlock v ;;;
              e <- read_errno ;;
              Ret (false, mkReent e, dir)
            else
              let dir := mkDirState (vd dir) (ni dir) (first dir) (first_node (first dir)) in
              ntfsUpdateTimes v n ;;;
              head <- get_firstOpenDir v ;;
              match head with
              | Some h =>
                  set_nextOpenDir self (Some h) ;;;
                  set_prevOpenDir h (Some self)
              | None => set_nextOpenDir self None
              end ;;;
              set_prevOpenDir self None ;;;
              set_firstOpenDir v (Some self) ;;;
              incr_openDirCount v ;;;
              ntfsUnlock v ;;;
              Ret (true, r, dir)
      end
  end.

Definition ntfs_dirreset_r (r : _reent) (dir : option ntfs_dir_state)
    : prog (Z * _reent * option ntfs_dir_state) :=
  match dir with
  | None => Ret (-1, mkReent EBADF, dir)
  | Some d =>
      match vd d, ni d with
      | Some v, Some n =>
          ntfsLock v ;;;
          let d := mkDirState (vd d) (ni d) (first d) (first_node (first d)) in
          ntfsUpdateTimes v n ;;;
          ntfsUnlock v ;;;
          Ret (0, r, Some d)
      | _, _ => Ret (-1, mkReent EBADF, dir)
      end
  end.

(** [strncpy (dst, src, n)]: the [n] bytes it stores. *)
Definition strncpy (src : cstring) (n : nat) : list byte :=
  take n src ++ repeat x00 (n - length src).

(** The node [dir->current] points to, with its position; a position
    past the end of the list stands for NULL, as NULL itself does. *)
Definition current_node (d : ntfs_dir_state) : option (nat * ntfs_dir_entry) :=
  match current d with
  | Some i =>
      match first d !! i with
      | Some e => Some (i, e)
      | None => None
      end
  | None => None
  end.

(** What [ntfs_dirnext_r] leaves: its result, the [_reent], the directory
    state, the [NAME_MAX + 1] bytes stored in [filename] and the
    [struct stat] stored in [filestat], when it stored them. *)
Record dirnext_result : Type := mkDirnext {
  dn_ret : Z;
  dn_reent : _reent;
  dn_dir : option ntfs_dir_state;
  dn_filename : option (list byte);
  dn_filestat : option stat
}.

(** [ntfs_dirnext_r]; [filestat] tells whether the caller's
    [struct stat *] is non-NULL. *)
Definition ntfs_dirnext_r (r : _reent) (dir : option ntfs_dir_state) (filestat : bool)
    : prog dirnext_result :=
  match dir with
  | None => Ret (mkDirnext (-1) (mkReent EBADF) dir None None)
  | Some d =>
      match vd d, ni d with
      | Some v, Some n =>
          ntfsLock v ;;;
          match current_node d with
          | None =>
              ntfsUnlock v ;;;
              Ret (mkDirnext (-1) (mkReent ENOENT) dir None None)
          | Some (i, e) =>
              let filename := strncpy (name e) (NAME_MAX + 1) in
              st <- (if filestat then
                       mode <- match type e with
                               | NTFS_DT_DIR =>
                                   dmask <- get_dmask v ;;
                                   Ret (mkMode (Some S_IFDIR) (Z.land 511 (Z.lnot dmask)))
                               | NTFS_DT_LNK => Ret (mkMode (Some S_IFLNK) 511)
                               | NTFS_DT_FIFO => Ret (mkMode (Some S_IFIFO) 0)
                               | NTFS_DT_SOCK => Ret (mkMode (Some S_IFSOCK) 0)
                               | NTFS_DT_BLK => Ret (mkMode (Some S_IFBLK) 0)
                               | NTFS_DT_CHR => Ret (mkMode (Some S_IFCHR) 0)
                               | NTFS_DT_REPARSE => Ret (mkMode (Some S_IFLNK) 511)
                               | NTFS_DT_other _ =>
                                   fmask <- get_fmask v ;;
                                   Ret (mkMode (Some S_IFREG) (Z.land 511 (Z.lnot fmask)))
                               end ;;
                       Ret (Some (mkStat (MREF (mref e)) mode))
                     else Ret None) ;;
              let d := mkDirState (vd d) (ni d) (first d) (next_node (first d) i) in
              ntfsUpdateTimes v n ;;;
              ntfsUnlock v ;;;
              Ret (mkDirnext 0 r (Some d) (Some filename) st)
          end
      | _, _ => Ret (mkDirnext (-1) (mkReent EBADF) dir None None)
      end
  end.

(** [ntfs_dirclose_r]; [self] is the address of the directory state. *)
Definition ntfs_dirclose_r (r : _reent) (self : dir_ptr) (dir : option ntfs_dir_state)
    : prog (Z * _reent * option ntfs_dir_state) :=
  match dir with
  | None => Ret (-1, mkReent EBADF, dir)
  | Some d =>
      match vd d with
      | None => Ret (-1, mkReent EBADF, dir)
      | Some v =>
          ntfsLock v ;;;
          d <- ntfsCloseDir_at d ;;
          decr_openDirCount v ;;;
          next <- get_nextOpenDir self ;;
          match next with
          | Some nx =>
              prev <- get_prevOpenDir self ;;
              set_prevOpenDir nx prev
          | None => Ret tt
          end ;;;
          prev <- get_prevOpenDir self ;;
          match prev with
          | Some p =>
              next <- get_nextOpenDir self ;;
              set_nextOpenDir p next
          | None =>
              next <- get_nextOpenDir self ;;
              set_firstOpenDir v next
          end ;;;
          ntfsUnlock v ;;;
          Ret (0, r, Some d)
      end
  end.

End Devoptab.

(** ** The routines a program calls, and sequences of callbacks *)

(** A call of one of the thirteen routines of ntfsdir.c that the devoptab
    table points to, with its arguments. *)
Inductive devoptab_call : Type :=
  | stat_r (r : _reent) (path : cstring) (st : bool)
  | lstat_r (r : _reent) (path : cstring) (st : bool)
  | symlink_r (r : _reent) (target linkpath : cstring)
  | unlink_r (r : _reent) (path : cstring)
  | chdir_r (r : _reent) (path : cstring)
  | rename_r (r : _reent) (oldName newName : cstring)
  | mkdir_r (r : _reent) (path : cstring) (mode : Z)
  | rmdir_r (r : _reent) (path : cstring)
  | statvfs_r (r : _reent) (path : cstring) (buf : bool)
  | diropen_r (r : _reent) (self : dir_ptr) (dir : ntfs_dir_state) (path : cstring)
  | dirreset_r (r : _reent) (dir : option ntfs_dir_state)
  | dirnext_r (r : _reent) (dir : option ntfs_dir_state) (filestat : bool)
  | dirclose_r (r : _reent) (self : dir_ptr) (dir : option ntfs_dir_state).

(** The call, its result dropped. *)
Definition perform_call `{hdr : headers} (c : devoptab_call) : prog unit :=
  match c with
  | stat_r r path st => ntfs_stat_r r path st ;;; Ret tt
  | lstat_r r path st => ntfs_lstat_r r path st ;;; Ret tt
  | symlink_r r target linkpath => ntfs_symlink_r r target linkpath ;;; Ret tt
  | unlink_r r path => ntfs_unlink_r r path ;;; Ret tt
  | chdir_r r path => ntfs_chdir_r r path ;;; Ret tt
  | rename_r r oldName newName => ntfs_rename_r r oldName newName ;;; Ret tt
  | mkdir_r r path mode => ntfs_mkdir_r r path mode ;;; Ret tt
  | rmdir_r r path => ntfs_rmdir_r r path ;;; Ret tt
  | statvfs_r r path buf => ntfs_statvfs_r r path buf ;;; Ret tt
  | diropen_r r self dir path => ntfs_diropen_r r self dir path ;;; Ret tt
  | dirreset_r r dir => ntfs_dirreset_r r dir ;;; Ret tt
  | dirnext_r r dir filestat => ntfs_dirnext_r r dir filestat ;;; Ret tt
  | dirclose_r r self dir => ntfs_dirclose_r r self dir ;;; Ret tt
  end.

(** The routines that take the volume lock: all but [ntfs_unlink_r] and
    [ntfs_rmdir_r]. *)
Definition takes_lock (c : devoptab_call) : bool :=
  match c with
  | unlink_r _ _ | rmdir_r _ _ => false
  | _ => true
  end.

(** Where a routine stands with the volume lock. *)
Inductive lock_phase : Type :=
  | NotLocked
  | Locked (v : ntfs_vd)
  | Unlocked.

(** The effect of a call on the phase, [None] when the call breaks the
    discipline: the lock is taken once and released once, on the same
    volume; outside the lock a routine only looks up volumes and touches
    [errno]. *)
Definition lock_step {X : Type} (ph : lock_phase) (c : lib_call X) : option lock_phase :=
  match c with
  | ntfsLock v =>
      match ph with
      | NotLocked => Some (Locked v)
      | _ => None
      end
  | ntfsUnlock v =>
      match ph with
      | Locked v' => if Nat.eqb v v' then Some Unlocked else None
      | _ => None
      end
  | ntfsGetVolume _ | read_errno | write_errno _ => Some ph
  | _ =>
      match ph with
      | Locked _ => Some ph
      | _ => None
      end
  end.

Fixpoint lock_walk (ph : lock_phase) (tr : list event) : option lock_phase :=
  match tr with
  | [] => Some ph
  | Event c _ :: tr' =>
      match lock_step ph c with
      | Some ph' => lock_walk ph' tr'
      | None => None
      end
  end.

(** A trace that keeps the discipline and does not end with the lock
    held. *)
Definition disciplined (tr : list event) : bool :=
  match lock_walk NotLocked tr with
  | Some NotLocked | Some Unlocked => true
  | Some (Locked _) | None => false
  end.

Definition is_lock_call (ev : event) : bool :=
  match ev with
  | Event c _ =>
      match c with
      | ntfsLock _ | ntfsUnlock _ => true
      | _ => false
      end
  end.

(** Answers of the library, read off a trace. *)
Definition stat_answer (ev : event) : option Z :=
  match ev with
  | Event c x =>
      match c in lib_call X return X -> option Z with
      | ntfsStat _ _ => fun rc => Some rc
      | _ => fun _ => None
      end x
  end.

Definition errno_answer (ev : event) : option errno_t :=
  match ev with
  | Event c x =>
      match c in lib_call X return X -> option errno_t with
      | read_errno => fun e => Some e
      | _ => fun _ => None
      end x
  end.

Definition flags_answer (ev : event) : option Z :=
  match ev with
  | Event c x =>
      match c in lib_call X return X -> option Z with
      | mrec_flags _ => fun f => Some f
      | _ => fun _ => None
      end x
  end.

Definition link_answer (ev : event) : option Z :=
  match ev with
  | Event c x =>
      match c in lib_call X return X -> option Z with
      | ntfsLink _ _ _ => fun rc => Some rc
      | _ => fun _ => None
      end x
  end.

Definition unlink_answer (ev : event) : option (cstring * Z) :=
  match ev with
  | Event c x =>
      match c in lib_call X return X -> option (cstring * Z) with
      | ntfsUnlink _ path _ => fun rc => Some (path, rc)
      | _ => fun _ => None
      end x
  end.

Definition converted_name (ev : event) : option cstring :=
  match ev with
  | Event c x =>
      match c in lib_call X return X -> option cstring with
      | ntfsUnicodeToLocal _ _ => fun a => Some (snd a)
      | _ => fun _ => None
      end x
  end.

(** Calls made, read off a trace. *)
Definition cwd_set (ev : event) : option (ntfs_vd * ntfs_inode) :=
  match ev with
  | Event c _ =>
      match c with
      | set_cwd_ni v n => Some (v, n)
      | _ => None
      end
  end.

Definition readdir_called (ev : event) : option ntfs_inode :=
  match ev with
  | Event c _ =>
      match c with
      | ntfs_readdir n => Some n
      | _ => None
      end
  end.

Definition freed_object (ev : event) : option freed :=
  match ev with
  | Event c _ =>
      match c with
      | ntfs_free p => Some p
      | _ => None
      end
  end.

Definition closed_inode (ev : event) : option (ntfs_vd * ntfs_inode) :=
  match ev with
  | Event c _ =>
      match c with
      | ntfsCloseEntry v n => Some (v, n)
      | _ => None
      end
  end.

(** An entry as [ntfs_readdir] hands it to its callback. *)
Record raw_entry : Type := mkRaw {
  raw_name : list Z;
  raw_name_len : Z;
  raw_name_type : Z;
  raw_pos : Z;
  raw_mref : Z;
  raw_dt_type : dt_type_t
}.

(** The callback invoked on a sequence of entries, up to the first
    invocation that does not return 0. *)
Fixpoint fill `{hdr : headers} (raws : list raw_entry) (dir : option ntfs_dir_state)
    : prog (Z * option ntfs_dir_state) :=
  match raws with
  | [] => Ret (0, dir)
  | e :: raws' =>
      res <- ntfs_readdir_filler dir (raw_name e) (raw_name_len e) (raw_name_type e)
               (raw_pos e) (raw_mref e) (raw_dt_type e) ;;
      if fst res =? 0 then fill raws' (snd res) else Ret res
  end.

(** [ntfs_dirnext_r] called until it does not return 0, at most [fuel]
    times: the results of the calls. *)
Fixpoint read_all `{hdr : headers} (fuel : nat) (r : _reent) (dir : option ntfs_dir_state)
    (filestat : bool) : prog (list dirnext_result) :=
  match fuel with
  | O => Ret []
  | S fuel' =>
      res <- ntfs_dirnext_r r dir filestat ;;
      if dn_ret res =? 0 then
        rest <- read_all fuel' (dn_reent res) (dn_dir res) filestat ;;
        Ret (res :: rest)
      else Ret [res]
  end.

(** ** Reasoning about routines *)

(** [wpt p Q]: [Q] holds of every trace and result of [p]. *)
Fixpoint wpt {A : Type} (p : prog A) (Q : list event -> A -> Prop) : Prop :=
  match p with
  | Ret a => Q [] a
  | Call c k => forall x, wpt (k x) (fun tr a => Q (Event c x :: tr) a)
  | Undef => True
  end.

(** [wlock ph p Q]: from phase [ph], [p] keeps the lock discipline
    whatever the library answers, and ends in a phase that satisfies [Q]. *)
Fixpoint wlock {A : Type} (ph : lock_phase) (p : prog A) (Q : A -> lock_phase -> Prop)
    : Prop :=
  match p with
  | Ret a => Q a ph
  | Call c k =>
      match lock_step ph c with
      | Some ph' => forall x, wlock ph' (k x) Q
      | None => False
      end
  | Undef => True
  end.

Section Routines.

Context `{hdr : headers}.

Lemma wpt_exec {A : Type} (p : prog A) (Q : list event -> A -> Prop) :
  wpt p Q <-> (forall tr a, exec p tr a -> Q tr a).
Proof.
  revert Q. induction p as [a|X c k IH|]; intros Q; cbn.
  - split.
    + intros HQ tr a' [-> ->]. exact HQ.
    + intros HQ. now apply HQ.
  - split.
    + intros Hw tr a (x & tr' & -> & Hex).
      exact (proj1 (IH x _) (Hw x) tr' a Hex).
    + intros HQ x. apply IH. intros tr a Hex. apply HQ. eauto.
  - tauto.
Qed.

Lemma wpt_mono {A : Type} (p : prog A) (Q Q' : list event -> A -> Prop) :
  (forall tr a, Q tr a -> Q' tr a) -> wpt p Q -> wpt p Q'.
Proof.
  intros HQ Hw. apply wpt_exec. intros tr a Hex.
  apply HQ. exact (proj1 (wpt_exec p Q) Hw tr a Hex).
Qed.

Lemma wpt_bind {A B : Type} (p : prog A) (f : A -> prog B) (Q : list event -> B -> Prop) :
  wpt p (fun tr1 a => wpt (f a) (fun tr2 b => Q (tr1 ++ tr2) b)) ->
  wpt (pbind p f) Q.
Proof.
  revert Q. induction p as [a|X c k IH|]; intros Q; cbn.
  - intros Hw. exact Hw.
  - intros Hw x. apply IH. exact (Hw x).
  - exact id.
Qed.

Lemma exec_bind {A B : Type} (p : prog A) (f : A -> prog B) (tr : list event) (b : B) :
  exec (pbind p f) tr b <->
  exists tr1 a tr2, tr = tr1 ++ tr2 /\ exec p tr1 a /\ exec (f a) tr2 b.
Proof.
  revert tr. induction p as [a|X c k IH|]; intros tr; cbn.
  - split.
    + intros Hex. exists [], a, tr. auto.
    + intros (tr1 & a' & tr2 & -> & [-> ->] & Hex). exact Hex.
  - split.
    + intros (x & tr' & -> & Hex).
      destruct (proj1 (IH x tr') Hex) as (tr1 & a & tr2 & -> & H1 & H2).
      exists (Event c x :: tr1), a, tr2. split; [reflexivity|]. split; [|exact H2].
      eauto.
    + intros (tr1 & a & tr2 & -> & (x & tr' & -> & H1) & H2).
      exists x, (tr' ++ tr2). split; [reflexivity|]. apply IH. eauto 6.
  - split; [contradiction|]. intros (tr1 & a & tr2 & _ & [] & _).
Qed.

(** A run against a library that returns is an execution. *)
Lemma run_exec {A : Type} (lib : library) (p : prog A) (a : A) :
  fst (run_against lib p) = Some a ->
  exec p (snd (run_against lib p)) a.
Proof.
  induction p as [a'|X c k IH|]; cbn.
  - intros [= ->]. auto.
  - specialize (IH (lib X c)). destruct (run_against lib (k (lib X c))) as [a' tr].
    cbn in *. eauto.
  - discriminate.
Qed.

Lemma wlock_mono {A : Type} (ph : lock_phase) (p : prog A)
    (Q Q' : A -> lock_phase -> Prop) :
  (forall a ph', Q a ph' -> Q' a ph') -> wlock ph p Q -> wlock ph p Q'.
Proof.
  intros HQ. revert ph. induction p as [a|X c k IH|]; intros ph; cbn.
  - apply HQ.
  - destruct (lock_step ph c) as [ph'|]; [|tauto]. intros Hw x. apply IH, Hw.
  - exact id.
Qed.

Lemma wlock_bind {A B : Type} (ph : lock_phase) (p : prog A) (f : A -> prog B)
    (Q : B -> lock_phase -> Prop) :
  wlock ph p (fun a ph' => wlock ph' (f a) Q) -> wlock ph (pbind p f) Q.
Proof.
  revert ph. induction p as [a|X c k IH|]; intros ph; cbn.
  - tauto.
  - destruct (lock_step ph c) as [ph'|]; [|tauto]. intros Hw x. apply IH, Hw.
  - exact id.
Qed.

Lemma wlock_exec {A : Type} (ph : lock_phase) (p : prog A)
    (Q : A -> lock_phase -> Prop) (tr : list event) (a : A) :
  wlock ph p Q -> exec p tr a ->
  exists ph', lock_walk ph tr = Some ph' /\ Q a ph'.
Proof.
  revert ph tr. induction p as [a'|X c k IH|]; intros ph tr; cbn.
  - intros HQ [-> ->]. eauto.
  - intros Hw (x & tr' & -> & Hex). cbn.
    destruct (lock_step ph c) as [ph'|]; [|contradiction].
    exact (IH x ph' tr' (Hw x) Hex).
  - intros _ [].
Qed.

(** The loop of [ntfsCloseDir] runs under the lock. *)
Lemma wlock_free_entries (v : ntfs_vd) (es : list ntfs_dir_entry) :
  wlock (Locked v) (free_entries es) (fun _ ph => ph = Locked v).
Proof.
  induction es as [|e es IH]; cbn.
  - reflexivity.
  - intros _ _. exact IH.
Qed.

Lemma wlock_closeDir (v : ntfs_vd) (d : ntfs_dir_state) :
  wlock (Locked v) (ntfsCloseDir_at d) (fun _ ph => ph = Locked v).
Proof.
  unfold ntfsCloseDir_at. destruct (vd d) as [v'|]; [|reflexivity].
  apply wlock_bind. eapply wlock_mono; [|apply wlock_free_entries].
  intros _ ph ->. destruct (ni d); cbn; auto.
Qed.

(** The calls of [ntfsCloseDir] and the state it leaves. *)
Definition free_events (es : list ntfs_dir_entry) : list event :=
  flat_map (fun e => [Event (ntfs_free (the_name (name e))) tt;
                      Event (ntfs_free (the_entry e)) tt]) es.

Definition closeDir_events (d : ntfs_dir_state) : list event :=
  match vd d with
  | None => []
  | Some v =>
      free_events (first d) ++
      match ni d with
      | Some n => [Event (ntfsCloseEntry v n) tt]
      | None => []
      end
  end.

Definition closeDir_state (d : ntfs_dir_state) : ntfs_dir_state :=
  match vd d with
  | None => d
  | Some _ => mkDirState (vd d) None [] None
  end.

Lemma exec_free_entries (es : list ntfs_dir_entry) (tr : list event) (u : unit) :
  exec (free_entries es) tr u -> tr = free_events es.
Proof.
  revert tr. induction es as [|e es IH]; intros tr; cbn.
  - now intros [-> _].
  - intros ([] & tr1 & -> & [] & tr2 & -> & Hex). now rewrite (IH tr2 Hex).
Qed.

Lemma exec_closeDir (d : ntfs_dir_state) (tr : list event) (d' : ntfs_dir_state) :
  exec (ntfsCloseDir_at d) tr d' -> tr = closeDir_events d /\ d' = closeDir_state d.
Proof.
  unfold ntfsCloseDir_at, closeDir_events, closeDir_state.
  destruct (vd d) as [v|]; [|now intros [-> ->]].
  intros Hex. apply exec_bind in Hex. destruct Hex as (tr1 & u & tr2 & -> & H1 & H2).
  apply exec_free_entries in H1. subst tr1.
  destruct (ni d) as [n|]; cbn in H2.
  - destruct H2 as ([] & tr' & -> & -> & ->). auto.
  - destruct H2 as [-> ->]. auto.
Qed.

(** [ntfsCloseDir] only frees and closes. *)
Lemma omap_closeDir_events {B : Type} (f : event -> option B) (d : ntfs_dir_state) :
  (forall p, f (Event (ntfs_free p) tt) = None) ->
  (forall v n, f (Event (ntfsCloseEntry v n) tt) = None) ->
  omap f (closeDir_events d) = [].
Proof.
  intros Hfree Hclose. unfold closeDir_events. destruct (vd d) as [v|]; [|reflexivity].
  rewrite omap_app.
  assert (Hes : omap f (free_events (first d)) = []).
  { induction (first d) as [|e es IH]; [reflexivity|].
    cbn. rewrite !Hfree. exact IH. }
  rewrite Hes. destruct (ni d); cbn; [rewrite Hclose|]; reflexivity.
Qed.

Definition released (ph : lock_phase) : Prop :=
  match ph with
  | Locked _ => False
  | _ => True
  end.

Create HintDb devoptab.

#[local] Hint Unfold ntfs_stat_r ntfs_lstat_r ntfs_symlink_r ntfs_unlink_r ntfs_chdir_r
  ntfs_rename_r ntfs_mkdir_r ntfs_rmdir_r ntfs_statvfs_r ntfs_diropen_r ntfs_dirreset_r
  ntfs_dirnext_r ntfs_dirclose_r ntfs_readdir_filler : devoptab.

Ltac walk :=
  repeat first
    [ progress autounfold with devoptab
    | progress cbn -[ntfsCloseDir_at closeDir_events closeDir_state]
    | progress intros
    | rewrite Nat.eqb_refl
    | match goal with
      | |- context [match ?x with _ => _ end] => destruct x eqn:?
      end
    | exact I ].

Lemma locking_routines (c : devoptab_call) :
  takes_lock c = true -> wlock NotLocked (perform_call c) (fun _ ph => released ph).
Proof.
  destruct c; cbn [takes_lock]; try discriminate; intros _.
  - walk.
  - walk.
  - walk.
  - walk.
  - walk.
  - walk.
  - walk.
  - walk.
    do 2 apply wlock_bind. eapply wlock_mono; [|apply wlock_closeDir].
    intros d ph ->. walk.
  - walk.
  - walk.
  - walk.
    do 2 apply wlock_bind. eapply wlock_mono; [|apply wlock_closeDir].
    intros d ph ->. walk.
Qed.

(** X14. Lock discipline of the thirteen routines of ntfsdir.c that the
    devoptab table points to ([ntfs_stat_r], [ntfs_lstat_r],
    [ntfs_symlink_r], [ntfs_unlink_r], [ntfs_chdir_r], [ntfs_rename_r],
    [ntfs_mkdir_r], [ntfs_rmdir_r], [ntfs_statvfs_r], [ntfs_diropen_r],
    [ntfs_dirreset_r], [ntfs_dirnext_r], [ntfs_dirclose_r]), whatever the
    library answers, in every execution that returns (for
    [ntfs_statvfs_r]: whose arithmetic is defined). A routine other than
    [ntfs_unlink_r] and [ntfs_rmdir_r] takes the volume lock at most
    once; when it has taken it, it releases it exactly once, on the same
    volume, before it returns; before the lock and after the release it
    only looks up volumes and reads or writes [errno]: every other
    library call and every access to the library's objects is made with
    the lock held. [ntfs_unlink_r] and [ntfs_rmdir_r] neither take nor
    release the lock. *)
Theorem devoptab_lock_discipline (c : devoptab_call) (tr : list event) :
  exec (perform_call c) tr tt ->
  if takes_lock c then disciplined tr = true
  else forallb (fun ev => negb (is_lock_call ev)) tr = true.
Proof.
  destruct (takes_lock c) eqn:Hc.
  - intros Hex.
    destruct (wlock_exec _ _ _ _ _ (locking_routines c Hc) Hex) as (ph & Hwalk & Hph).
    unfold disciplined. rewrite Hwalk. destruct ph; [reflexivity|contradiction|reflexivity].
  - revert tr. 
    assert (Hw : wpt (perform_call c)
                   (fun tr _ => forallb (fun ev => negb (is_lock_call ev)) tr = true)).
    { destruct c; try discriminate; walk; reflexivity. }
    intros tr Hex. exact (proj1 (wpt_exec _ _) Hw tr tt Hex).
Qed.

(** Membership in the answers read off a concrete trace. *)
Ltac answers :=
  repeat match goal with
         | H : In _ (omap _ _) |- _ => cbn in H
         | H : _ \/ _ |- _ => destruct H
         | H : False |- _ => contradiction
         | H : Some _ = Some _ |- _ => injection H as H
         | H : (_ =? _) = true |- _ => apply Z.eqb_eq in H
         | H : (_ =? _) = false |- _ => apply Z.eqb_neq in H
         end; subst.

(** X15. Once the volume and the entry were found, [ntfs_stat_r] and
    [ntfs_lstat_r] return 0 whatever [ntfsStat] returned: a failure of
    [ntfsStat] only shows in [r->_errno], which then holds the [errno]
    the library left; after a success [r->_errno] is untouched. *)
Theorem stat_returns_0_once_entry_found (lstat : bool) (r : _reent) (path : cstring)
    (st : bool) (tr : list event) (ret : Z) (r' : _reent) :
  exec ((if lstat then ntfs_lstat_r else ntfs_stat_r) r path st) tr (ret, r') ->
  forall rc, In rc (omap stat_answer tr) ->
    ret = 0 /\
    if rc =? 0 then r' = r
    else exists e, In e (omap errno_answer tr) /\ r' = mkReent e.
Proof.
  intros Hex. revert tr ret r' Hex.
  assert (Hw : wpt ((if lstat then ntfs_lstat_r else ntfs_stat_r) r path st)
                 (fun tr res =>
                    forall rc, In rc (omap stat_answer tr) ->
                      fst res = 0 /\
                      if rc =? 0 then snd res = r
                      else exists e, In e (omap errno_answer tr) /\ snd res = mkReent e)).
  { destruct lstat; walk; answers; try congruence; auto.
    all: split; [reflexivity|]; eexists; split; [left; reflexivity|reflexivity]. }
  intros tr ret r' Hex. exact (proj1 (wpt_exec _ _) Hw tr (ret, r') Hex).
Qed.

Ltac members :=
  repeat match goal with
         | H : In _ (omap _ _) |- _ => cbn in H
         | H : _ \/ _ |- _ => destruct H
         | H : False |- _ => contradiction
         | H : Some _ = Some _ |- _ => injection H as H
         end; subst.

(** X16. The directory test of [ntfs_chdir_r] and [ntfs_diropen_r],
    [flags && MFT_RECORD_IS_DIRECTORY], is a logical conjunction: an entry
    is refused with [ENOTDIR] only when its MFT record flags are all
    zero. Any entry with a non-zero flag, directory or not, becomes the
    current directory of the volume, or is read as a directory. *)
Theorem directory_test_accepts_nonzero_flags :
  MFT_RECORD_IS_DIRECTORY <> 0 ->
  (forall r path tr ret r',
     exec (ntfs_chdir_r r path) tr (ret, r') ->
     forall flags, In flags (omap flags_answer tr) ->
       if flags =? 0
       then ret = -1 /\ r' = mkReent ENOTDIR /\ omap cwd_set tr = []
       else ret = 0 /\ r' = r /\ exists v n, omap cwd_set tr = [(v, n)]) /\
  (forall r self dir path tr ok r' dir',
     exec (ntfs_diropen_r r self dir path) tr (ok, r', dir') ->
     forall flags, In flags (omap flags_answer tr) ->
       if flags =? 0
       then ok = false /\ r' = mkReent ENOTDIR /\ omap readdir_called tr = []
       else exists n, In n (omap readdir_called tr)).
Proof.
  intros HM.
  assert (HM' : (MFT_RECORD_IS_DIRECTORY =? 0) = false) by (apply Z.eqb_neq; exact HM).
  split.
  - intros r path.
    assert (Hw : wpt (ntfs_chdir_r r path)
                   (fun tr res =>
                      forall flags, In flags (omap flags_answer tr) ->
                        if flags =? 0
                        then fst res = -1 /\ snd res = mkReent ENOTDIR /\ omap cwd_set tr = []
                        else fst res = 0 /\ snd res = r /\
                             exists v n, omap cwd_set tr = [(v, n)])).
    { walk; members; unfold logical_and in *; rewrite ?HM' in *;
        repeat match goal with
               | E : (?x =? 0) = _ |- _ => rewrite E in *; clear E
               end; cbn in *; try discriminate; eauto 6. }
    intros tr ret r' Hex. exact (proj1 (wpt_exec _ _) Hw tr (ret, r') Hex).
  - intros r self dir path.
    assert (Hw : wpt (ntfs_diropen_r r self dir path)
                   (fun tr res =>
                      forall flags, In flags (omap flags_answer tr) ->
                        if flags =? 0
                        then fst (fst res) = false /\ snd (fst res) = mkReent ENOTDIR /\
                             omap readdir_called tr = []
                        else exists n, In n (omap readdir_called tr))).
    { walk.
      all: try (apply wpt_bind, wpt_exec; intros tr1 d1 Hex1;
                apply exec_closeDir in Hex1; destruct Hex1 as [-> ->]; walk).
      all: rewrite ?omap_app, ?omap_closeDir_events in * by reflexivity.
      all: members; unfold logical_and in *; rewrite ?HM' in *;
        repeat match goal with
               | E : (?x =? 0) = _ |- _ => rewrite E in *; clear E
               end; cbn in *; members; try discriminate; eauto 6. }
    intros tr ok r' dir' Hex. exact (proj1 (wpt_exec _ _) Hw tr (ok, r', dir') Hex).
Qed.

(** X17. [ntfs_rename_r] returns 0 exactly when [ntfsLink] and the
    [ntfsUnlink] of the old name both returned 0. When the old name
    cannot be removed it removes the new link again, and fails whichever
    way that goes. It stores an error in [r->_errno] only before it
    calls [ntfsLink] (no volume, another volume, an existing target):
    when the link or an unlink fails it returns -1 and leaves
    [r->_errno] as it was. *)
Theorem rename_outcomes (r : _reent) (oldName newName : cstring) (tr : list event)
    (ret : Z) (r' : _reent) :
  exec (ntfs_rename_r r oldName newName) tr (ret, r') ->
  (ret = 0 \/ ret = -1) /\
  (ret = 0 <->
   omap link_answer tr = [0] /\ omap unlink_answer tr = [(oldName, 0)]) /\
  (omap link_answer tr <> [] -> r' = r) /\
  (omap link_answer tr = [] ->
   ret = -1 /\ In r' (map mkReent [ENODEV; EXDEV; EEXIST]) /\ omap unlink_answer tr = []) /\
  (forall rc, In rc (omap link_answer tr) -> rc <> 0 -> omap unlink_answer tr = []) /\
  (forall p rc rest, omap unlink_answer tr = (p, rc) :: rest ->
     p = oldName /\
     if rc =? 0 then rest = [] else exists rc', rest = [(newName, rc')]).
Proof.
  revert tr ret r'.
  assert (Hw : wpt (ntfs_rename_r r oldName newName)
                 (fun tr res =>
                    (fst res = 0 \/ fst res = -1) /\
                    (fst res = 0 <->
                     omap link_answer tr = [0] /\ omap unlink_answer tr = [(oldName, 0)]) /\
                    (omap link_answer tr <> [] -> snd res = r) /\
                    (omap link_answer tr = [] ->
                     fst res = -1 /\ In (snd res) (map mkReent [ENODEV; EXDEV; EEXIST]) /\
                     omap unlink_answer tr = []) /\
                    (forall rc, In rc (omap link_answer tr) -> rc <> 0 ->
                       omap unlink_answer tr = []) /\
                    (forall p rc rest, omap unlink_answer tr = (p, rc) :: rest ->
                       p = oldName /\
                       if rc =? 0 then rest = []
                       else exists rc', rest = [(newName, rc')]))).
  { unfold ntfs_rename_r.
    repeat first
      [ progress cbn
      | intro
      | match goal with
        | |- context [match ?x with _ => _ end] => destruct x eqn:?
        | |- context [if negb (?x =? 0) then _ else _] => destruct (Z.eqb_spec x 0)
        | |- context [if other_volume ?a ?b then _ else _] => destruct (other_volume a b)
        end ].
    all: subst; repeat split; intros;
      repeat match goal with
             | E : _ /\ _ |- _ => destruct E
             | E : _ \/ _ |- _ => destruct E
             end; simplify_eq; cbn; auto; try lia; try congruence.
    all: repeat match goal with
                | E : negb (_ =? 0) = true |- _ => apply negb_true_iff in E
                | E : negb (_ =? 0) = false |- _ => apply negb_false_iff in E
                end.
    all: repeat match goal with
                | E : (_ =? 0) = true |- _ => apply Z.eqb_eq in E; subst
                | E : (_ =? 0) = false |- _ => rewrite ?E; clear E
                end; cbn; eauto. }
  intros tr ret r' Hex. exact (proj1 (wpt_exec _ _) Hw tr (ret, r') Hex).
Qed.

Lemma omap_freed_free_events (es : list ntfs_dir_entry) :
  omap freed_object (free_events es)
  = flat_map (fun e => [the_name (name e); the_entry e]) es.
Proof.
  induction es as [|e es IH]; [reflexivity|]. cbn. now rewrite <- IH.
Qed.

Lemma omap_closed_free_events (es : list ntfs_dir_entry) :
  omap closed_inode (free_events es) = [].
Proof.
  induction es as [|e es IH]; [reflexivity|exact IH].
Qed.

Lemma length_free_events (es : list ntfs_dir_entry) :
  length (free_events es) = (2 * length es)%nat.
Proof.
  induction es as [|e es IH]; [reflexivity|].
  change (free_events (e :: es))
    with (Event (ntfs_free (the_name (name e))) tt
          :: Event (ntfs_free (the_entry e)) tt :: free_events es).
  cbn [length]. rewrite IH. lia.
Qed.

(** X18. [ntfsCloseDir] on a directory state with a volume frees the name
    and the node of every entry of the list exactly once, in list order,
    closes the inode when there is one, makes no other call, and leaves
    the state empty, so that closing it again frees nothing. On a state
    without a volume it returns at once: the entries are not freed. *)
Theorem closeDir_frees_every_entry_once (d : ntfs_dir_state) (tr : list event)
    (dir' : option ntfs_dir_state) :
  exec (ntfsCloseDir (Some d)) tr dir' ->
  match vd d with
  | None => tr = [] /\ dir' = Some d
  | Some v =>
      omap freed_object tr
      = flat_map (fun e => [the_name (name e); the_entry e]) (first d) /\
      omap closed_inode tr = match ni d with Some n => [(v, n)] | None => [] end /\
      length tr = (2 * length (first d) + match ni d with Some _ => 1 | None => 0 end)%nat /\
      dir' = Some (mkDirState (Some v) None [] None) /\
      forall tr2 dir2, exec (ntfsCloseDir dir') tr2 dir2 -> tr2 = [] /\ dir2 = dir'
  end.
Proof.
  unfold ntfsCloseDir. intros Hex. apply exec_bind in Hex.
  destruct Hex as (tr1 & d1 & tr2 & -> & H1 & [-> ->]).
  apply exec_closeDir in H1. destruct H1 as [-> ->]. rewrite app_nil_r.
  unfold closeDir_events, closeDir_state. destruct (vd d) as [v|] eqn:Hv; [|auto].
  rewrite !omap_app, omap_freed_free_events, length_app.
  rewrite omap_closed_free_events, length_free_events.
  split; [destruct (ni d); cbn; now rewrite app_nil_r|].
  split; [destruct (ni d); reflexivity|].
  split; [destruct (ni d); reflexivity|].
  split; [reflexivity|].
  intros tr2 dir2 Hex. apply exec_bind in Hex.
  destruct Hex as (tr3 & d3 & tr4 & -> & H3 & [-> ->]).
  apply exec_closeDir in H3. destruct H3 as [-> ->]. auto.
Qed.

(** An entry the callback lists: one whose name is not a DOS name. *)
Definition listed (x : raw_entry) : bool := negb (raw_name_type x =? FILE_NAME_DOS).

Lemma filler_step (d : ntfs_dir_state) (x : raw_entry) :
  vd d <> None ->
  wpt (ntfs_readdir_filler (Some d) (raw_name x) (raw_name_len x) (raw_name_type x)
         (raw_pos x) (raw_mref x) (raw_dt_type x))
      (fun tr res =>
         (fst res = 0 /\ listed x = false /\ snd res = Some d /\ tr = []) \/
         (fst res = 0 /\ listed x = true /\
          exists nm, omap converted_name tr = [nm] /\
            snd res = Some (mkDirState (vd d) (ni d)
                              (first d ++ [mkDirEntry nm (raw_mref x) (raw_dt_type x)])
                              (current d))) \/
         (fst res = -1 /\ listed x = true /\ snd res = Some d /\
          exists nm, omap converted_name tr = [nm])).
Proof.
  intros Hvd. unfold ntfs_readdir_filler, listed.
  destruct (vd d) as [v|]; [|congruence].
  destruct (raw_name_type x =? FILE_NAME_DOS); cbn; [auto|].
  intros [rc nm]. destruct (rc <? 0); cbn; [eauto 8|].
  intros [|]; cbn; [|eauto 8].
  right. left. eauto 6.
Qed.

(** X19. A sequence of invocations of the callback [ntfs_readdir_filler]
    on a directory state with a volume, run up to the first invocation
    that does not return 0, leaves the entries that were in the list in
    place and appends after them, in the order of the invocations,
    exactly one entry for each invocation that returned 0 on a name that
    is not a DOS name, with the [mref] and the [dt_type] it was given
    and the name [ntfsUnicodeToLocal] produced for it. When all return 0
    these are all the names that are not DOS names. Otherwise the result
    is -1, the failing invocation is on a name that is not a DOS name,
    and it adds nothing: the list is as the invocations before it made
    it. The volume, the inode and the cursor are never touched. *)
Theorem filler_appends_in_order (raws : list raw_entry) (d : ntfs_dir_state)
    (tr : list event) (ret : Z) (dir' : option ntfs_dir_state) :
  vd d <> None ->
  exec (fill raws (Some d)) tr (ret, dir') ->
  exists processed added,
    dir' = Some (mkDirState (vd d) (ni d) (first d ++ added) (current d)) /\
    map (fun e => (mref e, type e)) added
    = map (fun x => (raw_mref x, raw_dt_type x)) (List.filter listed processed) /\
    ((ret = 0 /\ processed = raws /\ map name added = omap converted_name tr) \/
     (ret = -1 /\
      exists x rest nm,
        raws = processed ++ x :: rest /\ listed x = true /\
        omap converted_name tr = map name added ++ [nm])).
Proof.
  revert d tr. induction raws as [|x raws IH]; intros d tr Hvd; cbn [fill].
  - intros [-> Hres]. injection Hres as -> ->. exists [], [].
    rewrite app_nil_r. destruct d. cbn.
    split; [reflexivity|]. split; [reflexivity|]. left. auto.
  - intros Hex. apply exec_bind in Hex.
    destruct Hex as (tr1 & res & tr2 & -> & H1 & H2).
    pose proof (proj1 (wpt_exec _ _) (filler_step d x Hvd) tr1 res H1) as Hstep.
    destruct Hstep
      as [(Hret & Hl & Hd & ->)|[(Hret & Hl & nm & Hnm & Hd)|(Hret & Hl & Hd & nm & Hnm)]].
    + rewrite Hret, Hd in H2. cbn in H2.
      destruct (IH d tr2 Hvd H2) as (processed & added & Hdir & Hmap & Hcases).
      exists (x :: processed), added. split; [exact Hdir|].
      cbn [List.filter]. rewrite Hl. split; [exact Hmap|].
      destruct Hcases as [(-> & -> & Hn)|(-> & x' & rest & nm & -> & Hl' & Hn)].
      * left. auto.
      * right. split; [reflexivity|]. exists x', rest, nm. auto.
    + rewrite Hret, Hd in H2. cbn in H2.
      edestruct IH as (processed & added & Hdir & Hmap & Hcases);
        [|exact H2|]; [exact Hvd|].
      cbn in Hdir. rewrite <- app_assoc in Hdir.
      exists (x :: processed), (mkDirEntry nm (raw_mref x) (raw_dt_type x) :: added).
      split; [exact Hdir|].
      cbn [List.filter]. rewrite Hl. cbn [map mref type name]. rewrite Hmap.
      split; [reflexivity|]. rewrite omap_app, Hnm.
      destruct Hcases as [(-> & -> & Hn)|(-> & x' & rest & nm' & -> & Hl' & Hn)].
      * left. rewrite Hn. auto.
      * right. split; [reflexivity|]. exists x', rest, nm'. rewrite Hn. auto.
    + rewrite Hret in H2. cbn in H2. destruct H2 as [-> Hres].
      destruct res as [ret0 dir0]. cbn in *. injection Hres as -> ->. subst.
      exists [], []. rewrite !app_nil_r. destruct d. cbn.
      split; [reflexivity|]. split; [reflexivity|].
      right. split; [reflexivity|]. exists x, raws, nm. auto.
Qed.

(** The cursor on the node at position [i], NULL past the last node. *)
Definition cursor (es : list ntfs_dir_entry) (i : nat) : option nat :=
  if (i <? length es)%nat then Some i else None.

Lemma first_node_cursor (es : list ntfs_dir_entry) : first_node es = cursor es 0.
Proof. destruct es; reflexivity. Qed.

(** What a call of [ntfs_dirnext_r] gives for the entry [e]. *)
Definition lists (r : _reent) (filestat : bool) (e : ntfs_dir_entry)
    (res : dirnext_result) : Prop :=
  dn_ret res = 0 /\ dn_reent res = r /\
  dn_filename res = Some (strncpy (name e) (NAME_MAX + 1)) /\
  if filestat then exists m, dn_filestat res = Some (mkStat (MREF (mref e)) m)
  else dn_filestat res = None.

Lemma dirnext_step (r : _reent) (v : ntfs_vd) (n : ntfs_inode)
    (es : list ntfs_dir_entry) (i : nat) (filestat : bool) :
  wpt (ntfs_dirnext_r r (Some (mkDirState (Some v) (Some n) es (cursor es i))) filestat)
      (fun tr res =>
         match es !! i with
         | Some e =>
             lists r filestat e res /\
             dn_dir res = Some (mkDirState (Some v) (Some n) es (cursor es (S i)))
         | None =>
             dn_ret res = -1 /\ dn_reent res = mkReent ENOENT /\
             dn_filename res = None /\ dn_filestat res = None /\
             dn_dir res = Some (mkDirState (Some v) (Some n) es None)
         end).
Proof.
  unfold ntfs_dirnext_r, current_node, cursor, lists. cbn [vd ni first current].
  destruct (Nat.ltb_spec i (length es)) as [Hi|Hi].
  - destruct (lookup_lt_is_Some_2 es i Hi) as [e He]. rewrite He.
    destruct filestat; [destruct (type e)|]; cbn; intros; unfold next_node;
      repeat split; eauto.
  - rewrite (lookup_ge_None_2 es i Hi). cbn. intros. repeat split.
Qed.

Lemma read_all_from (r : _reent) (v : ntfs_vd) (n : ntfs_inode)
    (es : list ntfs_dir_entry) (filestat : bool) (fuel : nat) :
  forall (i : nat) (tr : list event) (results : list dirnext_result),
    (i <= length es)%nat -> (length es - i < fuel)%nat ->
    exec (read_all fuel r (Some (mkDirState (Some v) (Some n) es (cursor es i))) filestat)
         tr results ->
    exists listed last,
      results = listed ++ [last] /\
      Forall2 (lists r filestat) (drop i es) listed /\
      dn_ret last = -1 /\ dn_reent last = mkReent ENOENT /\
      dn_filename last = None /\ dn_filestat last = None /\
      dn_dir last = Some (mkDirState (Some v) (Some n) es None).
Proof.
  induction fuel as [|fuel IH]; intros i tr results Hi Hfuel; [lia|].
  cbn [read_all]. intros Hex. apply exec_bind in Hex.
  destruct Hex as (tr1 & res & tr2 & -> & H1 & H2).
  pose proof (proj1 (wpt_exec _ _) (dirnext_step r v n es i filestat) tr1 res H1) as Hstep.
  destruct (es !! i) as [e|] eqn:He.
  - destruct Hstep as [Hl Hdir]. pose proof Hl as (Hret & Hr & _).
    rewrite Hret, Hr, Hdir in H2. cbn [Z.eqb] in H2.
    apply exec_bind in H2. destruct H2 as (tr3 & rest & tr4 & -> & H3 & [-> ->]).
    pose proof (lookup_lt_Some _ _ _ He) as Hlt.
    destruct (IH (S i) tr3 rest ltac:(lia) ltac:(lia) H3)
      as (listed & last & -> & Hall & Hlast).
    exists (res :: listed), last. split; [reflexivity|].
    split; [|exact Hlast].
    rewrite (drop_S _ _ _ He). constructor; assumption.
  - destruct Hstep as (Hret & Hrest). rewrite Hret in H2. cbn in H2.
    destruct H2 as [-> ->].
    exists [], res. split; [reflexivity|].
    rewrite drop_ge by (apply lookup_ge_None; exact He).
    split; [constructor|]. split; [exact Hret|exact Hrest].
Qed.

(** X20. After [ntfs_dirreset_r], successive calls of [ntfs_dirnext_r]
    return 0 once for each entry of the list, in list order, each with
    the entry's name copied by [strncpy] over [NAME_MAX + 1] bytes and,
    when asked for, a [struct stat] whose [st_ino] is the [MREF] of the
    entry, and leave [r->_errno] alone; the call after the last entry
    returns -1 with [ENOENT], stores nothing, and leaves the cursor at
    NULL. *)
Theorem dirnext_lists_entries_in_order (r : _reent) (d : ntfs_dir_state)
    (v : ntfs_vd) (n : ntfs_inode) (fuel : nat) (filestat : bool)
    (tr : list event) (results : list dirnext_result) :
  vd d = Some v -> ni d = Some n -> (length (first d) < fuel)%nat ->
  exec (res <- ntfs_dirreset_r r (Some d) ;;
        read_all fuel (snd (fst res)) (snd res) filestat) tr results ->
  exists listed last,
    results = listed ++ [last] /\
    Forall2 (lists r filestat) (first d) listed /\
    dn_ret last = -1 /\ dn_reent last = mkReent ENOENT /\
    dn_filename last = None /\ dn_filestat last = None /\
    dn_dir last = Some (mkDirState (Some v) (Some n) (first d) None).
Proof.
  intros Hv Hn Hfuel Hex. apply exec_bind in Hex.
  destruct Hex as (tr1 & res & tr2 & -> & H1 & H2).
  unfold ntfs_dirreset_r in H1. rewrite Hv, Hn in H1. cbn in H1.
  destruct H1 as ([] & tr3 & -> & [] & tr4 & -> & [] & tr5 & -> & -> & ->).
  cbn [fst snd] in H2. rewrite first_node_cursor in H2.
  exact (read_all_from r v n (first d) filestat fuel 0%nat tr2 results
           ltac:(lia) ltac:(lia) H2).
Qed.

End Routines.

(** ** Concrete runs *)

(** Header constants for the runs: the directory flag is bit 1, DOS
    names have type 2, [NAME_MAX] is 255 and [MREF] keeps the low 48 bits
    of a reference. *)
Definition ntfs_3g : headers :=
  {| MFT_RECORD_IS_DIRECTORY := 2;
     FILE_NAME_DOS := 2;
     NAME_MAX := 255;
     MREF := fun m => Z.land m (2 ^ 48 - 1);
     ST_RDONLY := 1;
     NTFS_MAX_NAME_LEN := 255 |}.

(** A library for the runs. Every path is on volume 1; every entry exists
    but the one named [b]; the record flags of every entry are 1 (in use,
    not a directory); [ntfsStat] fails; the name [a] cannot be unlinked;
    [errno] reads 5; names are converted unit by unit. *)
Definition scripted : library :=
  fun X c =>
    match c in lib_call X return X with
    | ntfsGetVolume _ => Some 1%nat
    | ntfsLock _ => tt
    | ntfsUnlock _ => tt
    | ntfsParseEntry _ _ _ => Some 7%nat
    | ntfsOpenEntry _ path =>
        match path with
        | [x62] => None
        | _ => Some 7%nat
        end
    | ntfsCloseEntry _ _ => tt
    | ntfsStat _ _ => -1
    | ntfsCreate _ _ _ _ => Some 8%nat
    | ntfsLink _ _ _ => 0
    | ntfsUnlink _ path _ =>
        match path with
        | [x61] => 5
        | _ => 0
        end
    | ntfsUpdateTimes _ _ => tt
    | ntfs_readdir _ => (0, [])
    | ntfsUnicodeToLocal uname name_len => (name_len, map byte_of_Z uname)
    | ntfs_malloc => true
    | ntfs_free _ => tt
    | read_errno => errno_value 5
    | write_errno _ => tt
    | mrec_flags _ => 1
    | get_cwd_ni _ => None
    | set_cwd_ni _ _ => tt
    | get_dmask _ => 18
    | get_fmask _ => 18
    | get_firstOpenDir _ => None
    | set_firstOpenDir _ _ => tt
    | incr_openDirCount _ => tt
    | decr_openDirCount _ => tt
    | get_prevOpenDir _ => None
    | get_nextOpenDir _ => None
    | set_prevOpenDir _ _ => tt
    | set_nextOpenDir _ _ => tt
    | ntfs_volume_get_free_space _ => 0
    | vol_field _ f =>
        match f with
        | cluster_size => 4096
        | nr_clusters => 1000
        | free_clusters => 300
        | cluster_size_bits => 12
        | mft_record_size_bits => 10
        | mftbmp_na_allocated_size => 8
        | free_mft_records => 20
        end
    | vd_id _ => 9
    | NVolReadOnly _ => true
    end.

(** A directory state with two entries, [a] and [b]. *)
Definition two_entries : ntfs_dir_state :=
  mkDirState (Some 1%nat) (Some 7%nat)
    [mkDirEntry [x61] 5 NTFS_DT_DIR; mkDirEntry [x62] 6 (NTFS_DT_other 8)] None.

(** An execution read off a run. *)
Ltac by_run :=
  cbn; repeat (eexists; eexists; split; [reflexivity|]); split; reflexivity.

(** X14, witness: against the scripted library, the rename of [a] to
    [b], where the old name cannot be removed, and a call of
    [ntfs_statvfs_r]. *)
Lemma devoptab_lock_discipline_witness :
  (exists tr,
     exec (perform_call (hdr := ntfs_3g) (rename_r (mkReent (errno_value 0)) [x61] [x62]))
          tr tt /\
     length tr = 8%nat /\ disciplined tr = true) /\
  (exists tr,
     exec (perform_call (hdr := ntfs_3g) (statvfs_r (mkReent (errno_value 0)) [x61] true))
          tr tt /\
     length tr = 14%nat /\ disciplined tr = true).
Proof.
  assert (Hrename : exec (perform_call (hdr := ntfs_3g)
                            (rename_r (mkReent (errno_value 0)) [x61] [x62]))
                      (snd (run_against scripted
                              (perform_call (hdr := ntfs_3g)
                                 (rename_r (mkReent (errno_value 0)) [x61] [x62])))) tt)
    by by_run.
  assert (Hstatvfs : exec (perform_call (hdr := ntfs_3g)
                             (statvfs_r (mkReent (errno_value 0)) [x61] true))
                       (snd (run_against scripted
                               (perform_call (hdr := ntfs_3g)
                                  (statvfs_r (mkReent (errno_value 0)) [x61] true)))) tt)
    by by_run.
  split.
  - eexists. split; [exact Hrename|]. split; [reflexivity|].
    exact (devoptab_lock_discipline (hdr := ntfs_3g)
             (rename_r (mkReent (errno_value 0)) [x61] [x62]) _ Hrename).
  - eexists. split; [exact Hstatvfs|]. split; [reflexivity|].
    exact (devoptab_lock_discipline (hdr := ntfs_3g)
             (statvfs_r (mkReent (errno_value 0)) [x61] true) _ Hstatvfs).
Defined.

(** X15, witness: [ntfs_stat_r] against the scripted library, whose
    [ntfsStat] returns -1. *)
Lemma stat_returns_0_once_entry_found_witness :
  exists tr r',
    exec (ntfs_stat_r (mkReent (errno_value 0)) [x61] true) tr (0, r') /\
    In (-1) (omap stat_answer tr) /\ r' = mkReent (errno_value 5).
Proof.
  exists (snd (run_against scripted (ntfs_stat_r (mkReent (errno_value 0)) [x61] true))),
         (mkReent (errno_value 5)).
  assert (Hex : exec (ntfs_stat_r (mkReent (errno_value 0)) [x61] true)
                  (snd (run_against scripted
                          (ntfs_stat_r (mkReent (errno_value 0)) [x61] true)))
                  (0, mkReent (errno_value 5))) by by_run.
  split; [exact Hex|]. split; [left; reflexivity|].
  destruct (stat_returns_0_once_entry_found false _ _ _ _ _ _ Hex (-1))
    as [_ (e & _ & He)]; [left; reflexivity|].
  reflexivity.
Defined.

(** X16, witness: an entry whose flags are 1, so without the directory
    bit 2, becomes the current directory, and is opened as a directory. *)
Lemma directory_test_accepts_nonzero_flags_witness :
  Z.land 1 (MFT_RECORD_IS_DIRECTORY (headers := ntfs_3g)) = 0 /\
  (exists tr r',
     exec (ntfs_chdir_r (hdr := ntfs_3g) (mkReent (errno_value 0)) [x61]) tr (0, r') /\
     In 1 (omap flags_answer tr) /\ omap cwd_set tr = [(1%nat, 7%nat)]) /\
  (exists tr,
     exec (ntfs_diropen_r (hdr := ntfs_3g) (mkReent (errno_value 0)) 3%nat
             (mkDirState None None [] None) [x61]) tr
          (true, mkReent (errno_value 0), mkDirState (Some 1%nat) (Some 7%nat) [] None) /\
     In 1 (omap flags_answer tr) /\ In 7%nat (omap readdir_called tr)).
Proof.
  destruct (directory_test_accepts_nonzero_flags (hdr := ntfs_3g) ltac:(discriminate))
    as [Hchdir Hopen].
  split; [reflexivity|]. split.
  - exists (snd (run_against scripted
                   (ntfs_chdir_r (hdr := ntfs_3g) (mkReent (errno_value 0)) [x61]))),
           (mkReent (errno_value 0)).
    assert (Hex : exec (ntfs_chdir_r (hdr := ntfs_3g) (mkReent (errno_value 0)) [x61])
                    (snd (run_against scripted
                            (ntfs_chdir_r (hdr := ntfs_3g) (mkReent (errno_value 0)) [x61])))
                    (0, mkReent (errno_value 0))) by by_run.
    split; [exact Hex|]. split; [left; reflexivity|].
    destruct (Hchdir _ _ _ _ _ Hex 1 ltac:(left; reflexivity)) as (_ & _ & v & n & Hset).
    reflexivity.
  - exists (snd (run_against scripted
                   (ntfs_diropen_r (hdr := ntfs_3g) (mkReent (errno_value 0)) 3%nat
                      (mkDirState None None [] None) [x61]))).
    assert (Hex : exec (ntfs_diropen_r (hdr := ntfs_3g) (mkReent (errno_value 0)) 3%nat
                          (mkDirState None None [] None) [x61])
                    (snd (run_against scripted
                            (ntfs_diropen_r (hdr := ntfs_3g) (mkReent (errno_value 0)) 3%nat
                               (mkDirState None None [] None) [x61])))
                    (true, mkReent (errno_value 0),
                     mkDirState (Some 1%nat) (Some 7%nat) [] None)) by by_run.
    split; [exact Hex|]. split; [left; reflexivity|].
    destruct (Hopen _ _ _ _ _ _ _ _ Hex 1 ltac:(left; reflexivity)) as [n Hn].
    left. reflexivity.
Defined.

(** X17, witness: the rename of [a] to [b]: the link succeeds, the old
    name cannot be removed, the new link is removed, the result is -1
    and [r->_errno] is as it was. *)
Lemma rename_outcomes_witness :
  exists tr,
    exec (ntfs_rename_r (mkReent (errno_value 0)) [x61] [x62]) tr
         (-1, mkReent (errno_value 0)) /\
    omap link_answer tr = [0] /\
    omap unlink_answer tr = [([x61], 5); ([x62], 0)].
Proof.
  exists (snd (run_against scripted (ntfs_rename_r (mkReent (errno_value 0)) [x61] [x62]))).
  assert (Hex : exec (ntfs_rename_r (mkReent (errno_value 0)) [x61] [x62])
                  (snd (run_against scripted
                          (ntfs_rename_r (mkReent (errno_value 0)) [x61] [x62])))
                  (-1, mkReent (errno_value 0))) by by_run.
  split; [exact Hex|].
  destruct (rename_outcomes _ _ _ _ _ _ Hex) as (_ & _ & _ & _ & _ & Hun).
  split; reflexivity.
Defined.

(** X18, witness: closing the directory state [two_entries]. *)
Lemma closeDir_frees_every_entry_once_witness :
  exists tr dir',
    exec (ntfsCloseDir (Some two_entries)) tr dir' /\
    omap freed_object tr
    = [the_name [x61]; the_entry (mkDirEntry [x61] 5 NTFS_DT_DIR);
       the_name [x62]; the_entry (mkDirEntry [x62] 6 (NTFS_DT_other 8))] /\
    omap closed_inode tr = [(1%nat, 7%nat)] /\
    dir' = Some (mkDirState (Some 1%nat) None [] None).
Proof.
  exists (snd (run_against scripted (ntfsCloseDir (Some two_entries)))),
         (Some (mkDirState (Some 1%nat) None [] None)).
  assert (Hex : exec (ntfsCloseDir (Some two_entries))
                  (snd (run_against scripted (ntfsCloseDir (Some two_entries))))
                  (Some (mkDirState (Some 1%nat) None [] None))) by by_run.
  split; [exact Hex|].
  destruct (closeDir_frees_every_entry_once two_entries _ _ Hex)
    as (Hfreed & Hclosed & _ & _ & _).
  split; [exact Hfreed|]. split; [exact Hclosed|reflexivity].
Defined.

(** The directory state of a directory that was opened and not yet
    read, and two sequences of names for the callback: [a], a DOS name
    and [b]; and [a], a name whose conversion fails, and [b]. *)
Definition opened : ntfs_dir_state := mkDirState (Some 1%nat) (Some 7%nat) [] None.

Definition three_names : list raw_entry :=
  [mkRaw [97] 1 1 0 5 NTFS_DT_DIR; mkRaw [65; 126; 49] 3 2 1 5 NTFS_DT_DIR;
   mkRaw [98] 1 0 2 6 (NTFS_DT_other 8)].

Definition failing_names : list raw_entry :=
  [mkRaw [97] 1 1 0 5 NTFS_DT_DIR; mkRaw [99] (-1) 1 1 9 NTFS_DT_LNK;
   mkRaw [98] 1 0 2 6 (NTFS_DT_other 8)].

(** X19, witness: the callback invoked for [three_names], which leaves
    the two entries [a] and [b]; and for [failing_names], which stops at
    the second name and leaves the entry [a] alone. *)
Lemma filler_appends_in_order_witness :
  (exists tr,
     exec (fill (hdr := ntfs_3g) three_names (Some opened)) tr (0, Some two_entries)) /\
  (exists tr,
     exec (fill (hdr := ntfs_3g) failing_names (Some opened)) tr
          (-1, Some (mkDirState (Some 1%nat) (Some 7%nat)
                       [mkDirEntry [x61] 5 NTFS_DT_DIR] None)) /\
     omap converted_name tr = [[x61]; [x63]]).
Proof.
  assert (Hall : exec (fill (hdr := ntfs_3g) three_names (Some opened))
                   (snd (run_against scripted
                           (fill (hdr := ntfs_3g) three_names (Some opened))))
                   (0, Some two_entries)) by by_run.
  assert (Hfail : exec (fill (hdr := ntfs_3g) failing_names (Some opened))
                    (snd (run_against scripted
                            (fill (hdr := ntfs_3g) failing_names (Some opened))))
                    (-1, Some (mkDirState (Some 1%nat) (Some 7%nat)
                                 [mkDirEntry [x61] 5 NTFS_DT_DIR] None))) by by_run.
  split.
  - eexists. exact Hall.
  - eexists. split; [exact Hfail|].
    destruct (filler_appends_in_order (hdr := ntfs_3g) failing_names opened _ _ _
                ltac:(cbn; discriminate) Hfail)
      as (processed & added & Hdir & Hmap & Hcases).
    destruct (filler_appends_in_order (hdr := ntfs_3g) three_names opened _ _ _
                ltac:(cbn; discriminate) Hall)
      as (processed' & added' & Hdir' & Hmap' & Hcases').
    reflexivity.
Defined.

(** X20, witness: the listing of [two_entries], three calls of
    [ntfs_dirnext_r] after the reset. *)
Lemma dirnext_lists_entries_in_order_witness :
  exists tr results,
    exec (res <- ntfs_dirreset_r (mkReent (errno_value 0)) (Some two_entries) ;;
          read_all (hdr := ntfs_3g) 3 (snd (fst res)) (snd res) true) tr results /\
    map dn_ret results = [0; 0; -1] /\
    map dn_filename results
    = [Some (x61 :: repeat x00 255); Some (x62 :: repeat x00 255); None] /\
    map (fun res => st_mode <$> dn_filestat res) results
    = [Some (mkMode (Some S_IFDIR) 493); Some (mkMode (Some S_IFREG) 493); None].
Proof.
  exists (snd (run_against scripted
                 (res <- ntfs_dirreset_r (mkReent (errno_value 0)) (Some two_entries) ;;
                  read_all (hdr := ntfs_3g) 3 (snd (fst res)) (snd res) true))),
         (default [] (fst (run_against scripted
                 (res <- ntfs_dirreset_r (mkReent (errno_value 0)) (Some two_entries) ;;
                  read_all (hdr := ntfs_3g) 3 (snd (fst res)) (snd res) true)))).
  assert (Hex : exec (res <- ntfs_dirreset_r (mkReent (errno_value 0)) (Some two_entries) ;;
                      read_all (hdr := ntfs_3g) 3 (snd (fst res)) (snd res) true)
                  (snd (run_against scripted
                          (res <- ntfs_dirreset_r (mkReent (errno_value 0))
                                    (Some two_entries) ;;
                           read_all (hdr := ntfs_3g) 3 (snd (fst res)) (snd res) true)))
                  (default [] (fst (run_against scripted
                          (res <- ntfs_dirreset_r (mkReent (errno_value 0))
                                    (Some two_entries) ;;
                           read_all (hdr := ntfs_3g) 3 (snd (fst res)) (snd res) true)))))
    by (apply run_exec; reflexivity).
  split; [exact Hex|].
  destruct (dirnext_lists_entries_in_order (hdr := ntfs_3g) _ two_entries 1%nat 7%nat 3%nat
              true _ _ eq_refl eq_refl ltac:(cbn; lia) Hex)
    as (listed & last & _).
  repeat split.
Defined.
